(** * FigJam MCP plugin: layout validation and arrangement engine

    Shallow embedding of [figma-plugin/code.ts]: [handleValidateLayout],
    [handleAlignElements], [handleDistributeElements] and
    [resizeParentSections].

    Modelling conventions.
    - A JavaScript [number] is an exact rational ([Q]): there is no rounding,
      no NaN and no infinity.  The decimal literals [0.1], [0.55] and [1.4]
      are the rationals 1/10, 55/100 and 14/10.  Computed numbers are
      compared with [==] ([Qeq]).
    - The scene graph of the host is a heap of nodes: the list of all nodes
      of the current page in document order (the order of
      [figma.currentPage.findAll()]).  A node reference is its address (its
      index in that list); [parent] holds the address of the parent node,
      [None] for a child of the page.
    - The node types are the five kinds of elements the tools create and
      query; the length of a text is the length of its [string].
    - The [details] and [suggestion] strings of an issue are kept as the
      template used together with the values the source interpolates. *)

From Stdlib Require Import QArith Qround Lqa Lia ZArith List String Bool
  Permutation.
Import ListNotations.
Open Scope Q_scope.

(** ** Numbers *)

Abbreviation number := Q.

Definition Qle_lt_dec (a b : number) : {a <= b} + {b < a} :=
  match Qlt_le_dec b a with
  | left H => right H
  | right H => left H
  end.

Definition Math_max (a b : number) : number := if Qlt_le_dec a b then b else a.
Definition Math_min (a b : number) : number := if Qlt_le_dec b a then b else a.
Definition Math_floor (a : number) : number := inject_Z (Qfloor a).
Definition Math_ceil (a : number) : number := inject_Z (Qceiling a).
(** [Math.round] rounds to the nearest integer, ties towards +infinity. *)
Definition Math_round (a : number) : number := inject_Z (Qfloor (a + (1#2))).

Definition len (s : string) : number := inject_Z (Z.of_nat (String.length s)).

(** ** Scene nodes *)

Inductive NodeType := STICKY | SHAPE_WITH_TEXT | TEXT | CONNECTOR | SECTION.

Definition NodeType_eqb (s t : NodeType) : bool :=
  match s, t with
  | STICKY, STICKY | SHAPE_WITH_TEXT, SHAPE_WITH_TEXT | TEXT, TEXT
  | CONNECTOR, CONNECTOR | SECTION, SECTION => true
  | _, _ => false
  end.

(** [characters] is [node.text.characters] (the text of a shape, the label
    of a connector), [fontSize] is [node.text.fontSize]; [connectorStart]
    and [connectorEnd] hold the [endpointNodeId] of an endpoint when the
    endpoint has one. *)
Record SceneNode := mkNode {
  id : string;
  name : string;
  type : NodeType;
  x : number;
  y : number;
  width : number;
  height : number;
  parent : option nat;
  characters : string;
  fontSize : number;
  connectorStart : option string;
  connectorEnd : option string
}.

Definition Scene := list SceneNode.

Definition node (sc : Scene) (a : nat) : option SceneNode := nth_error sc a.

Definition indexed (sc : Scene) : list (nat * SceneNode) :=
  combine (seq 0 (List.length sc)) sc.

Definition parent_eqb (p q : option nat) : bool :=
  match p, q with
  | None, None => true
  | Some a, Some b => Nat.eqb a b
  | _, _ => false
  end.

(** [figma.currentPage.children] is [children sc None]; [sec.children] for
    the section at address [a] is [children sc (Some a)]. *)
Definition children (sc : Scene) (p : option nat) : list (nat * SceneNode) :=
  filter (fun an => parent_eqb (parent (snd an)) p) (indexed sc).

Definition findAll (sc : Scene) : list SceneNode := sc.

(** [figma.currentPage.findOne(n => n.id === id)]: the first node in
    document order with that id. *)
Fixpoint findFrom (a : nat) (sc : Scene) (i : string) : option nat :=
  match sc with
  | [] => None
  | n :: rest => if String.eqb (id n) i then Some a else findFrom (S a) rest i
  end.

Definition findNodeById (sc : Scene) (i : string) : option nat :=
  findFrom 0 sc i.

Definition resolve (sc : Scene) (i : string) : option SceneNode :=
  match findNodeById sc i with
  | Some a => node sc a
  | None => None
  end.

(** ** Issues *)

Inductive IssueType :=
  text_truncated | overlap | tight_connector | connector_through_shape
| section_bleed.

Inductive MoveDir := horizontally | vertically.

Inductive BleedEdge := bleed_left | bleed_right | bleed_top | bleed_bottom.

(** ['<edge> by ' + Math.round(amount) + 'px'] *)
Definition Bleed := (BleedEdge * number)%type.

Inductive Details :=
| TruncatedIn (text40 : string) (ellipsis : bool) (w h : number)
| OverlapsBy (nameA nameB : string) (area : number)
| OnlyGap (gap : number) (dir : MoveDir) (startName endName : string)
| PassesThrough (startName endName boxName : string)
| BleedsOutside (childName secName : string) (bleeds : list Bleed).

Inductive Suggestion :=
| ResizeToAtLeast (w h : number)
| MoveToAvoidOverlap (boxB : string)
| MoveAtLeast (endId : string) (amount : number) (dir : MoveDir)
    (target : number)
| MoveOutOfPath (boxName boxId startName endName : string)
| ResizeSectionToAtLeast (secId : string) (w h : number) (childId : string)
| ResizeSectionLarger (secId childId : string).

Record Issue := mkIssue {
  issueType : IssueType;
  elementId : string;
  elementName : string;
  details : Details;
  suggestion : Suggestion
}.

(** ** validate_layout *)

Module Box.
Record t := mk {
  id : string;
  name : string;
  x : number;
  y : number;
  w : number;
  h : number;
  nodeType : NodeType
}.
End Box.

(** The local variables of the truncation check of a shape. *)
Definition padding : number := 40.

(** [(shape.text.fontSize as number) || 14] *)
Definition fontSizeOf (shape : SceneNode) : number :=
  if Qeq_dec (fontSize shape) 0 then 14 else fontSize shape.

Definition charWidth (shape : SceneNode) : number :=
  fontSizeOf shape * (55#100).

Definition availableWidth (shape : SceneNode) : number :=
  width shape - padding.

Definition availableHeight (shape : SceneNode) : number :=
  height shape - padding.

Definition charsPerLine (shape : SceneNode) : number :=
  Math_max 1 (Math_floor (availableWidth shape / charWidth shape)).

Definition linesNeeded (shape : SceneNode) : number :=
  Math_ceil (len (characters shape) / charsPerLine shape).

Definition lineHeight (shape : SceneNode) : number :=
  fontSizeOf shape * (14#10).

Definition textHeight (shape : SceneNode) : number :=
  linesNeeded shape * lineHeight shape.

Definition suggestedHeight (shape : SceneNode) : number :=
  Math_ceil (textHeight shape + padding + 20).

Definition suggestedWidth (shape : SceneNode) : number :=
  if Qlt_le_dec (charsPerLine shape * 2) (len (characters shape))
  then Math_max (width shape)
         (Math_ceil (len (characters shape) * charWidth shape / 2 + padding))
  else width shape.

(** Text truncation check of one child of the page. *)
Definition textTruncation (nd : SceneNode) : list Issue :=
  if NodeType_eqb (type nd) SHAPE_WITH_TEXT then
    let textContent := characters nd in
    if (0 <? String.length textContent)%nat then
      if Qlt_le_dec (availableHeight nd) (textHeight nd) then
        [ mkIssue text_truncated (id nd) (name nd)
            (TruncatedIn (substring 0 40 textContent)
               (40 <? String.length textContent)%nat
               (Math_round (width nd)) (Math_round (height nd)))
            (ResizeToAtLeast (suggestedWidth nd) (suggestedHeight nd)) ]
      else []
    else []
  else [].

Definition boxOf (nd : SceneNode) : list Box.t :=
  if NodeType_eqb (type nd) CONNECTOR then []
  else [ Box.mk (id nd) (name nd) (x nd) (y nd) (width nd) (height nd)
           (type nd) ].

(** The [boxes] array: one entry per non-connector child of the page. *)
Definition collectBoxes (sc : Scene) : list Box.t :=
  flat_map boxOf (map snd (children sc None)).

Definition arrow : string := " ↔ ".

(** Body of the two nested overlap loops for one pair [a < b]. *)
Definition overlapPair (boxA boxB : Box.t) : list Issue :=
  if NodeType_eqb (Box.nodeType boxA) SECTION
     || NodeType_eqb (Box.nodeType boxB) SECTION then []
  else
    let overlapX :=
      (if Qlt_le_dec (Box.x boxA) (Box.x boxB + Box.w boxB)
       then true else false)
      && (if Qlt_le_dec (Box.x boxB) (Box.x boxA + Box.w boxA)
          then true else false) in
    let overlapY :=
      (if Qlt_le_dec (Box.y boxA) (Box.y boxB + Box.h boxB)
       then true else false)
      && (if Qlt_le_dec (Box.y boxB) (Box.y boxA + Box.h boxA)
          then true else false) in
    if overlapX && overlapY then
      let ox1 := Math_max (Box.x boxA) (Box.x boxB) in
      let oy1 := Math_max (Box.y boxA) (Box.y boxB) in
      let ox2 := Math_min (Box.x boxA + Box.w boxA) (Box.x boxB + Box.w boxB) in
      let oy2 := Math_min (Box.y boxA + Box.h boxA) (Box.y boxB + Box.h boxB) in
      let overlapArea := (ox2 - ox1) * (oy2 - oy1) in
      let smallerArea :=
        Math_min (Box.w boxA * Box.h boxA) (Box.w boxB * Box.h boxB) in
      if Qlt_le_dec (smallerArea * (1#10)) overlapArea then
        [ mkIssue overlap (Box.id boxA)
            (Box.name boxA ++ arrow ++ Box.name boxB)
            (OverlapsBy (Box.name boxA) (Box.name boxB)
               (Math_round overlapArea))
            (MoveToAvoidOverlap (Box.id boxB)) ]
      else []
    else [].

(** [for a in 0..n: for b in a+1..n: ...] *)
Fixpoint overlapIssues (boxes : list Box.t) : list Issue :=
  match boxes with
  | [] => []
  | boxA :: rest => flat_map (overlapPair boxA) rest ++ overlapIssues rest
  end.

Definition MIN_CONNECTOR_GAP : number := 80.

Definition connLabel (conn : SceneNode) : string :=
  if String.eqb (characters conn) "" then "(unlabeled)" else characters conn.

(** Horizontal distance between the connected elements ([-1]: they overlap
    horizontally). *)
Definition gapH (startNode endNode : SceneNode) : number :=
  if Qle_lt_dec (x startNode + width startNode) (x endNode) then
    x endNode - (x startNode + width startNode)
  else if Qle_lt_dec (x endNode + width endNode) (x startNode) then
    x startNode - (x endNode + width endNode)
  else -1.

Definition gapV (startNode endNode : SceneNode) : number :=
  if Qle_lt_dec (y startNode + height startNode) (y endNode) then
    y endNode - (y startNode + height startNode)
  else if Qle_lt_dec (y endNode + height endNode) (y startNode) then
    y startNode - (y endNode + height endNode)
  else -1.

Definition effectiveGap (gH gV : number) : number :=
  if Qle_lt_dec 0 gH then
    if Qle_lt_dec 0 gV then Math_min gH gV else gH
  else if Qle_lt_dec 0 gV then gV
  else -1.

Definition moveDir (gH gV : number) : MoveDir :=
  if Qle_lt_dec 0 gH then
    if Qlt_le_dec gV 0 then horizontally
    else if Qle_lt_dec gH gV then horizontally else vertically
  else vertically.

(** Endpoints of a connector, when both carry an [endpointNodeId] that
    resolves. *)
Definition endpoints (sc : Scene) (cn : SceneNode)
  : option (SceneNode * SceneNode) :=
  if NodeType_eqb (type cn) CONNECTOR then
    match connectorStart cn, connectorEnd cn with
    | Some s, Some e =>
        match resolve sc s, resolve sc e with
        | Some startNode, Some endNode => Some (startNode, endNode)
        | _, _ => None
        end
    | _, _ => None
    end
  else None.

(** Body of the tight-spacing loop for one node of [allNodes]. *)
Definition tightConnector (sc : Scene) (cn : SceneNode) : list Issue :=
  match endpoints sc cn with
  | None => []
  | Some (startNode, endNode) =>
      let gH := gapH startNode endNode in
      let gV := gapV startNode endNode in
      let gap := effectiveGap gH gV in
      if Qle_lt_dec 0 gap then
        if Qlt_le_dec gap MIN_CONNECTOR_GAP then
          let moveAmount := MIN_CONNECTOR_GAP - gap in
          [ mkIssue tight_connector (id cn)
              ("Connector: " ++ connLabel cn)
              (OnlyGap (Math_round gap) (moveDir gH gV)
                 (name startNode) (name endNode))
              (MoveAtLeast (id endNode) (Math_round moveAmount)
                 (moveDir gH gV) MIN_CONNECTOR_GAP) ]
        else []
      else []
  end.

Definition tightIssues (sc : Scene) : list Issue :=
  flat_map (tightConnector sc) (findAll sc).

(** The Liang-Barsky loop over [k = 0..3]; [None] is the [break] with
    [intersects = false], [Some (u1, u2)] the interval after the loop. *)
Fixpoint clip (pq : list (number * number)) (u1 u2 : number)
  : option (number * number) :=
  match pq with
  | [] => Some (u1, u2)
  | (p, q) :: rest =>
      if Qeq_dec p 0 then
        if Qlt_le_dec q 0 then None else clip rest u1 u2
      else
        let t := q / p in
        if Qlt_le_dec p 0 then
          clip rest (if Qlt_le_dec u1 t then t else u1) u2
        else
          clip rest u1 (if Qlt_le_dec t u2 then t else u2)
  end.

Definition segmentHitsBox (lx1 ly1 lx2 ly2 : number) (bx : Box.t) : bool :=
  let dx := lx2 - lx1 in
  let dy := ly2 - ly1 in
  let p := [ - dx; dx; - dy; dy ] in
  let q := [ lx1 - Box.x bx; Box.x bx + Box.w bx - lx1;
             ly1 - Box.y bx; Box.y bx + Box.h bx - ly1 ] in
  match clip (combine p q) 0 1 with
  | None => false
  | Some (u1, u2) => if Qle_lt_dec u1 u2 then true else false
  end.

(** Body of the inner loop over [boxes] of the path check. *)
Definition throughBox (cn sn2 en2 : SceneNode) (bx : Box.t) : list Issue :=
  if NodeType_eqb (Box.nodeType bx) SECTION
     || NodeType_eqb (Box.nodeType bx) TEXT then []
  else if String.eqb (Box.id bx) (id sn2) || String.eqb (Box.id bx) (id en2)
  then []
  else
    let lx1 := x sn2 + width sn2 / 2 in
    let ly1 := y sn2 + height sn2 / 2 in
    let lx2 := x en2 + width en2 / 2 in
    let ly2 := y en2 + height en2 / 2 in
    if segmentHitsBox lx1 ly1 lx2 ly2 bx then
      [ mkIssue connector_through_shape (id cn)
          ("Connector: " ++ connLabel cn)
          (PassesThrough (name sn2) (name en2) (Box.name bx))
          (MoveOutOfPath (Box.name bx) (Box.id bx) (name sn2) (name en2)) ]
    else [].

Definition throughShape (sc : Scene) (boxes : list Box.t) (cn : SceneNode)
  : list Issue :=
  match endpoints sc cn with
  | None => []
  | Some (sn2, en2) => flat_map (throughBox cn sn2 en2) boxes
  end.

Definition throughIssues (sc : Scene) (boxes : list Box.t) : list Issue :=
  flat_map (throughShape sc boxes) (findAll sc).

Definition SECTION_PADDING : number := 40.

(** The [bleeds] array of pass (a) for one child of a section. *)
Definition bleedsOf (sec sChild : SceneNode) : list Bleed :=
  (if Qlt_le_dec (x sChild) 0
   then [ (bleed_left, Math_round (- x sChild)) ] else [])
  ++ (if Qlt_le_dec (width sec) (x sChild + width sChild)
      then [ (bleed_right, Math_round (x sChild + width sChild - width sec)) ]
      else [])
  ++ (if Qlt_le_dec (y sChild) SECTION_PADDING
      then [ (bleed_top, Math_round (SECTION_PADDING - y sChild)) ] else [])
  ++ (if Qlt_le_dec (height sec) (y sChild + height sChild)
      then [ (bleed_bottom,
              Math_round (y sChild + height sChild - height sec)) ]
      else []).

(** Pass (a): actual children of the section, section-relative frame. *)
Definition bleedChild (sec sChild : SceneNode) : list Issue :=
  if NodeType_eqb (type sChild) CONNECTOR then []
  else
    match bleedsOf sec sChild with
    | [] => []
    | bleeds =>
        [ mkIssue section_bleed (id sChild) (name sChild)
            (BleedsOutside (name sChild) (name sec) bleeds)
            (ResizeSectionToAtLeast (id sec)
               (Math_ceil (Math_max (x sChild + width sChild + 30) (width sec)))
               (Math_ceil
                  (Math_max (y sChild + height sChild + 30) (height sec)))
               (id sChild)) ]
    end.

Definition vBleedsOf (sec : SceneNode) (child : Box.t) : list Bleed :=
  let secRight := x sec + width sec in
  let secBottom := y sec + height sec in
  (if Qlt_le_dec (Box.x child) (x sec + 10)
   then [ (bleed_left, Math_round (x sec + 10 - Box.x child)) ] else [])
  ++ (if Qlt_le_dec (secRight - 10) (Box.x child + Box.w child)
      then [ (bleed_right,
              Math_round (Box.x child + Box.w child - secRight + 10)) ]
      else [])
  ++ (if Qlt_le_dec (Box.y child) (y sec + SECTION_PADDING)
      then [ (bleed_top, Math_round (y sec + SECTION_PADDING - Box.y child)) ]
      else [])
  ++ (if Qlt_le_dec (secBottom - 10) (Box.y child + Box.h child)
      then [ (bleed_bottom,
              Math_round (Box.y child + Box.h child - secBottom + 10)) ]
      else []).

(** Pass (b): page-level boxes whose centre falls inside the section. *)
Definition bleedVisual (sec : SceneNode) (child : Box.t) : list Issue :=
  if NodeType_eqb (Box.nodeType child) SECTION then []
  else if String.eqb (Box.id child) (id sec) then []
  else
    let secRight := x sec + width sec in
    let secBottom := y sec + height sec in
    let childCX := Box.x child + Box.w child / 2 in
    let childCY := Box.y child + Box.h child / 2 in
    let insideSection :=
      (if Qlt_le_dec (x sec) childCX then true else false)
      && (if Qlt_le_dec childCX secRight then true else false)
      && (if Qlt_le_dec (y sec) childCY then true else false)
      && (if Qlt_le_dec childCY secBottom then true else false) in
    if insideSection then
      match vBleedsOf sec child with
      | [] => []
      | vBleeds =>
          [ mkIssue section_bleed (Box.id child) (Box.name child)
              (BleedsOutside (Box.name child) (name sec) vBleeds)
              (ResizeSectionLarger (id sec) (Box.id child)) ]
      end
    else [].

(** Body of the bleed loop for one child [sNode] of the page, at address
    [s]. *)
Definition bleedSection (sc : Scene) (boxes : list Box.t)
    (sNode : nat * SceneNode) : list Issue :=
  let (s, sec) := sNode in
  if NodeType_eqb (type sec) SECTION then
    flat_map (bleedChild sec) (map snd (children sc (Some s)))
    ++ flat_map (bleedVisual sec) boxes
  else [].

Definition bleedIssues (sc : Scene) (boxes : list Box.t) : list Issue :=
  flat_map (bleedSection sc boxes) (children sc None).

Definition truncationIssues (sc : Scene) : list Issue :=
  flat_map textTruncation (map snd (children sc None)).

(** The [issues] array returned by [handleValidateLayout]. *)
Definition handleValidateLayout (sc : Scene) : list Issue :=
  let boxes := collectBoxes sc in
  truncationIssues sc
  ++ overlapIssues boxes
  ++ tightIssues sc
  ++ throughIssues sc boxes
  ++ bleedIssues sc boxes.

(** ** Mutation of the scene *)

(** [update f a sc]: the node at address [a] is replaced by [f] of itself
    (a write through the reference [a]). *)
Fixpoint update (f : SceneNode -> SceneNode) (a : nat) (sc : Scene) : Scene :=
  match sc, a with
  | [], _ => []
  | n :: rest, O => f n :: rest
  | n :: rest, S a' => n :: update f a' rest
  end.

Definition setX (v : number) (n : SceneNode) : SceneNode :=
  mkNode (id n) (name n) (type n) v (y n) (width n) (height n) (parent n)
    (characters n) (fontSize n) (connectorStart n) (connectorEnd n).

Definition setY (v : number) (n : SceneNode) : SceneNode :=
  mkNode (id n) (name n) (type n) (x n) v (width n) (height n) (parent n)
    (characters n) (fontSize n) (connectorStart n) (connectorEnd n).

Definition resizeWithoutConstraints (w h : number) (n : SceneNode)
  : SceneNode :=
  mkNode (id n) (name n) (type n) (x n) (y n) w h (parent n)
    (characters n) (fontSize n) (connectorStart n) (connectorEnd n).

(** [shape.resize(w, h)], as applied by update_element. *)
Definition resize (w h : number) (n : SceneNode) : SceneNode :=
  mkNode (id n) (name n) (type n) (x n) (y n) w h (parent n)
    (characters n) (fontSize n) (connectorStart n) (connectorEnd n).

(** Read of a numeric property through a reference. *)
Definition get (f : SceneNode -> number) (sc : Scene) (a : nat) : number :=
  match node sc a with
  | Some n => f n
  | None => 0
  end.

Definition centerX (n : SceneNode) : number := x n + width n / 2.
Definition centerY (n : SceneNode) : number := y n + height n / 2.
Definition rightEdge (n : SceneNode) : number := x n + width n.
Definition bottomEdge (n : SceneNode) : number := y n + height n.

(** One write per element of [nodes], in order. *)
Definition writeAll (f : SceneNode -> SceneNode) (nodes : list nat)
    (sc : Scene) : Scene :=
  fold_left (fun s a => update f a s) nodes sc.

(** [var m = nodes[0].f; for (i = 1 ..) if (nodes[i].f < m) m = nodes[i].f] *)
Definition minOf (f : SceneNode -> number) (sc : Scene) (nodes : list nat)
  : number :=
  match nodes with
  | [] => 0
  | a0 :: rest =>
      fold_left (fun m a => if Qlt_le_dec (get f sc a) m then get f sc a else m)
        rest (get f sc a0)
  end.

Definition maxOf (f : SceneNode -> number) (sc : Scene) (nodes : list nat)
  : number :=
  match nodes with
  | [] => 0
  | a0 :: rest =>
      fold_left (fun m a => if Qlt_le_dec m (get f sc a) then get f sc a else m)
        rest (get f sc a0)
  end.

Definition sumOf (f : SceneNode -> number) (sc : Scene) (nodes : list nat)
  : number :=
  fold_left (fun s a => s + get f sc a) nodes 0.

Definition count (nodes : list nat) : number :=
  inject_Z (Z.of_nat (List.length nodes)).

(** The lookup loop shared by align and distribute: ids that do not
    resolve are skipped. *)
Definition resolveNodes (sc : Scene) (elementIds : list string) : list nat :=
  flat_map (fun i => match findNodeById sc i with
                     | Some a => [a]
                     | None => []
                     end) elementIds.

(** ** Section auto-fit *)

(** Shift of the children of a section: [None] when neither axis needs
    one. *)
Definition shiftOf (sc : Scene) (kids : list nat) : option (number * number) :=
  let minX := minOf x sc kids in
  let minY := minOf y sc kids in
  let shiftX :=
    if Qlt_le_dec minX SECTION_PADDING then SECTION_PADDING - minX else 0 in
  let shiftY :=
    if Qlt_le_dec minY SECTION_PADDING then SECTION_PADDING - minY else 0 in
  if Qlt_le_dec 0 shiftX then Some (shiftX, shiftY)
  else if Qlt_le_dec 0 shiftY then Some (shiftX, shiftY)
  else None.

Definition shiftBy (d : number * number) (c : SceneNode) : SceneNode :=
  setY (y c + snd d) (setX (x c + fst d) c).

Definition shiftChildren (sc : Scene) (kids : list nat) : Scene :=
  match shiftOf sc kids with
  | Some d => writeAll (shiftBy d) kids sc
  | None => sc
  end.

(** Body of the loop of [resizeParentSections] for the section at address
    [p] with the non-empty child list [kids]; the boolean tells whether the
    section was resized. *)
Definition fitSection (sc : Scene) (p : nat) (kids : list nat)
  : Scene * bool :=
  let maxX := maxOf rightEdge sc kids in
  let maxY := maxOf bottomEdge sc kids in
  let sc1 := shiftChildren sc kids in
  let maxX := match shiftOf sc kids with
              | Some d => maxX + fst d
              | None => maxX
              end in
  let maxY := match shiftOf sc kids with
              | Some d => maxY + snd d
              | None => maxY
              end in
  let newW := maxX + SECTION_PADDING in
  let newH := maxY + SECTION_PADDING in
  if (if Qlt_le_dec (get width sc1 p) newW then true else false)
     || (if Qlt_le_dec (get height sc1 p) newH then true else false)
  then
    (update (resizeWithoutConstraints (Math_max newW (get width sc1 p))
               (Math_max newH (get height sc1 p))) p sc1, true)
  else (sc1, false).

Record FitState := mkFit {
  scene : Scene;
  visited : list string;
  resized : list string
}.

(** One iteration of the loop over [nodes]. *)
Definition fitParent (st : FitState) (a : nat) : FitState :=
  match node (scene st) a with
  | None => st
  | Some n =>
      match parent n with
      | None => st
      | Some p =>
          match node (scene st) p with
          | None => st
          | Some sec =>
              if negb (NodeType_eqb (type sec) SECTION) then st
              else if existsb (String.eqb (id sec)) (visited st) then st
              else
                match map fst (children (scene st) (Some p)) with
                | [] => mkFit (scene st) (id sec :: visited st) (resized st)
                | kids =>
                    let (sc', r) := fitSection (scene st) p kids in
                    mkFit sc' (id sec :: visited st)
                      (if r then (resized st ++ [id sec])%list
                       else resized st)
                end
          end
      end
  end.

Definition resizeParentSections (sc : Scene) (nodes : list nat)
  : Scene * list string :=
  let st := fold_left fitParent nodes (mkFit sc [] []) in
  (scene st, resized st).

(** ** align_elements *)

Module Alignment.
Inductive t := left | center | right | top | middle | bottom.
End Alignment.

(** The [switch (alignment)] of [handleAlignElements]. *)
Definition alignNodes (sc : Scene) (nodes : list nat) (alignment : Alignment.t)
  : Scene :=
  match alignment with
  | Alignment.left =>
      let minX := minOf x sc nodes in
      writeAll (setX minX) nodes sc
  | Alignment.right =>
      let maxRight := maxOf rightEdge sc nodes in
      writeAll (fun n => setX (maxRight - width n) n) nodes sc
  | Alignment.center =>
      let sumCX := sumOf centerX sc nodes in
      let avgCX := sumCX / count nodes in
      writeAll (fun n => setX (avgCX - width n / 2) n) nodes sc
  | Alignment.top =>
      let minY := minOf y sc nodes in
      writeAll (setY minY) nodes sc
  | Alignment.bottom =>
      let maxBottom := maxOf bottomEdge sc nodes in
      writeAll (fun n => setY (maxBottom - height n) n) nodes sc
  | Alignment.middle =>
      let sumCY := sumOf centerY sc nodes in
      let avgCY := sumCY / count nodes in
      writeAll (fun n => setY (avgCY - height n / 2) n) nodes sc
  end.

Record AlignResult := mkAligned {
  alignedCount : nat;
  alignedResized : option (list string)
}.

Definition handleAlignElements (sc : Scene) (elementIds : list string)
    (alignment : Alignment.t) : Scene * AlignResult :=
  let nodes := resolveNodes sc elementIds in
  if (List.length nodes <? 2)%nat then
    (sc, mkAligned (List.length nodes) None)
  else
    let (sc', sections) :=
      resizeParentSections (alignNodes sc nodes alignment) nodes in
    (sc', mkAligned (List.length nodes) (Some sections)).

(** ** distribute_elements *)

Inductive Direction := horizontal | vertical.

(** [nodes.sort((a, b) => key a - key b)], a stable sort. *)
Fixpoint insertBy (key : nat -> number) (a : nat) (l : list nat) : list nat :=
  match l with
  | [] => [a]
  | b :: rest =>
      if Qlt_le_dec (key a) (key b) then a :: b :: rest
      else b :: insertBy key a rest
  end.

Definition sortBy (key : nat -> number) (nodes : list nat) : list nat :=
  fold_left (fun acc a => insertBy key a acc) nodes [].

(** [for (i ..) { nodes[i].x = current; current += nodes[i].width + gap }] *)
Definition placeAll (set : number -> SceneNode -> SceneNode)
    (size : SceneNode -> number) (gap : number) (nodes : list nat)
    (first : number) (sc : Scene) : Scene * number :=
  fold_left (fun (st : Scene * number) a =>
               let sc1 := update (set (snd st)) a (fst st) in
               (sc1, snd st + (get size sc1 a + gap)))
    nodes (sc, first).

(** The repositioning of [handleDistributeElements] on the sorted nodes;
    returns the gap used. *)
Definition distributeNodes (sc : Scene) (nodes : list nat)
    (direction : Direction) (minSpacing : number) : Scene * number :=
  match direction with
  | horizontal =>
      let firstLeft := get x sc (hd 0%nat nodes) in
      let totalElementWidth := sumOf width sc nodes in
      let lastRight := get rightEdge sc (last nodes 0%nat) in
      let naturalGap :=
        ((lastRight - firstLeft) - totalElementWidth) / (count nodes - 1) in
      let gap := Math_max naturalGap minSpacing in
      (fst (placeAll setX width gap nodes firstLeft sc), gap)
  | vertical =>
      let firstTop := get y sc (hd 0%nat nodes) in
      let totalElementHeight := sumOf height sc nodes in
      let lastBottom := get bottomEdge sc (last nodes 0%nat) in
      let naturalGapV :=
        ((lastBottom - firstTop) - totalElementHeight) / (count nodes - 1) in
      let gapV := Math_max naturalGapV minSpacing in
      (fst (placeAll setY height gapV nodes firstTop sc), gapV)
  end.

Definition sortNodes (sc : Scene) (nodes : list nat) (direction : Direction)
  : list nat :=
  match direction with
  | horizontal => sortBy (get x sc) nodes
  | vertical => sortBy (get y sc) nodes
  end.

Record DistributeResult := mkDistributed {
  distributedCount : nat;
  spacing : option number;
  distributedResized : option (list string)
}.

Definition handleDistributeElements (sc : Scene) (elementIds : list string)
    (direction : Direction) (spacing : option number)
  : Scene * DistributeResult :=
  let minSpacing := match spacing with Some s => s | None => 60 end in
  let nodes := resolveNodes sc elementIds in
  if (List.length nodes <? 3)%nat then
    (sc, mkDistributed (List.length nodes) None None)
  else
    let nodes := sortNodes sc nodes direction in
    let (sc1, gap) := distributeNodes sc nodes direction minSpacing in
    let (sc2, sections) := resizeParentSections sc1 nodes in
    (sc2, mkDistributed (List.length nodes) (Some gap) (Some sections)).


(** ** Vocabulary of the statements *)

(** Area of the intersection of two boxes, zero when they do not meet. *)
Definition intersectionArea (a b : Box.t) : number :=
  Math_max 0 (Math_min (Box.x a + Box.w a) (Box.x b + Box.w b)
              - Math_max (Box.x a) (Box.x b))
  * Math_max 0 (Math_min (Box.y a + Box.h a) (Box.y b + Box.h b)
                - Math_max (Box.y a) (Box.y b)).

Definition smallerArea (a b : Box.t) : number :=
  Math_min (Box.w a * Box.h a) (Box.w b * Box.h b).

(** An overlap issue names the pair: [elementId] is the earlier box, the
    suggestion moves the later one. *)
Definition overlapReported (issues : list Issue) (a b : Box.t) : Prop :=
  exists i, In i issues /\ issueType i = overlap /\
    ((elementId i = Box.id a /\ suggestion i = MoveToAvoidOverlap (Box.id b))
     \/ (elementId i = Box.id b
         /\ suggestion i = MoveToAvoidOverlap (Box.id a))).

(** Condition under which the loop body reports the pair. *)
Definition overlapCond (a b : Box.t) : Prop :=
  Box.nodeType a <> SECTION /\ Box.nodeType b <> SECTION /\
  Box.x a < Box.x b + Box.w b /\ Box.x b < Box.x a + Box.w a /\
  Box.y a < Box.y b + Box.h b /\ Box.y b < Box.y a + Box.h a /\
  smallerArea a b * (1#10) <
    (Math_min (Box.x a + Box.w a) (Box.x b + Box.w b)
     - Math_max (Box.x a) (Box.x b))
    * (Math_min (Box.y a + Box.h a) (Box.y b + Box.h b)
       - Math_max (Box.y a) (Box.y b)).

(** ** Example scenes *)

Definition shapeAt (i : string) (px py w h : number) (p : option nat)
  : SceneNode :=
  mkNode i i SHAPE_WITH_TEXT px py w h p "" 0 None None.

Definition sectionAt (i : string) (px py w h : number) (p : option nat)
  : SceneNode :=
  mkNode i i SECTION px py w h p "" 0 None None.

Definition connectorAt (i s e : string) (p : option nat) : SceneNode :=
  mkNode i i CONNECTOR 0 0 0 0 p "" 0 (Some s) (Some e).


Definition boxA : Box.t := Box.mk "A" "A" 0 0 100 100 SHAPE_WITH_TEXT.
Definition boxB : Box.t := Box.mk "B" "B" (899#10) 0 100 100 SHAPE_WITH_TEXT.



Definition obstacleId (i : Issue) : option string :=
  match suggestion i with
  | MoveOutOfPath _ b _ _ => Some b
  | _ => None
  end.





(** A shape 100x50 holding a sentence of 44 characters. *)
Definition crowdedShape : SceneNode :=
  mkNode "S" "S" SHAPE_WITH_TEXT 0 0 100 50 None
    "The quick brown fox jumps over the lazy dog." 14 None None.

(** Two identical shapes [P], [Q] inside the section [S]; a connector
    between the page-level shapes [A] and [B] whose straight path crosses
    the shape [O], a child of the section [T]. *)
Definition nestedScene : Scene :=
  [ sectionAt "S" 0 0 600 400 None;
    shapeAt "P" 100 100 100 100 (Some 0%nat);
    shapeAt "Q" 100 100 100 100 (Some 0%nat);
    shapeAt "A" 20 500 100 100 None;
    shapeAt "B" 300 500 100 100 None;
    sectionAt "T" 0 400 600 400 None;
    shapeAt "O" 150 100 100 100 (Some 5%nat);
    connectorAt "K" "A" "B" None ].

(** Box of a node in the page frame, for a node whose parent is a
    page-level section. *)
Definition absoluteBox (sec nd : SceneNode) : Box.t :=
  Box.mk (id nd) (name nd) (x sec + x nd) (y sec + y nd) (width nd)
    (height nd) (type nd).



(** [frame n n']: [n'] is [n] up to its position and size. *)
Definition frame (n n' : SceneNode) : Prop :=
  n' = mkNode (id n) (name n) (type n) (x n') (y n') (width n') (height n')
         (parent n) (characters n) (fontSize n) (connectorStart n)
         (connectorEnd n).

(** The node at address [p] is a Section and the parent of one of
    [nodes]. *)
Definition touched (sc : Scene) (nodes : list nat) (p : nat) : Prop :=
  exists b nb sec, In b nodes /\ node sc b = Some nb /\ parent nb = Some p
                   /\ node sc p = Some sec /\ type sec = SECTION.

(** Shift received by a node, given the shift [D p] applied to the children
    of each section [p]. *)
Definition shiftOfParent (D : nat -> number * number) (n : SceneNode)
  : number * number :=
  match parent n with
  | Some p => D p
  | None => (0, 0)
  end.

(** [autoFitted D nodes sc sc']: [sc'] is [sc] where the children of each
    section [p] moved by [D p], a shift that is zero unless [p] is touched,
    and where touched sections may have grown. *)
Definition autoFitted (D : nat -> number * number) (nodes : list nat)
    (sc sc' : Scene) : Prop :=
  (forall p, 0 <= fst (D p) /\ 0 <= snd (D p))
  /\ (forall p, touched sc nodes p \/ D p = (0, 0))
  /\ forall a,
       match node sc a, node sc' a with
       | Some n, Some n' =>
           frame n n'
           /\ x n' == x n + fst (shiftOfParent D n)
           /\ y n' == y n + snd (shiftOfParent D n)
           /\ ((width n' = width n /\ height n' = height n)
               \/ (touched sc nodes a
                   /\ width n <= width n' /\ height n <= height n'))
       | None, None => True
       | _, _ => False
       end.

(** Invariant of the loop of [resizeParentSections] started on [sc]: only
    the children of sections already visited have been shifted. *)
Definition fitInvariant (sc : Scene) (nodes : list nat) (st : FitState)
  : Prop :=
  exists D, autoFitted D nodes sc (scene st)
            /\ forall p sec, node sc p = Some sec ->
                 ~ In (id sec) (visited st) -> D p = (0, 0).

(** [m] is the least value of [f] over [nodes]. *)
Definition isMinOf (f : SceneNode -> number) (sc : Scene) (nodes : list nat)
    (m : number) : Prop :=
  (forall a, In a nodes -> m <= get f sc a)
  /\ (exists a, In a nodes /\ m = get f sc a).

Definition isMaxOf (f : SceneNode -> number) (sc : Scene) (nodes : list nat)
    (m : number) : Prop :=
  (forall a, In a nodes -> get f sc a <= m)
  /\ (exists a, In a nodes /\ m = get f sc a).

(** Arithmetic mean of [f] over [nodes]. *)
Definition meanOf (f : SceneNode -> number) (sc : Scene) (nodes : list nat)
  : number :=
  sumOf f sc nodes / count nodes.

(** State of [nodes] in [mid] after the repositioning of an alignment of
    the scene [sc]. *)
Definition aligned (alignment : Alignment.t) (sc : Scene) (nodes : list nat)
    (mid : Scene) : Prop :=
  forall a, In a nodes ->
    get width mid a = get width sc a /\ get height mid a = get height sc a
    /\ match alignment with
       | Alignment.left =>
           get x mid a = minOf x sc nodes /\ get y mid a = get y sc a
       | Alignment.right =>
           get x mid a + get width mid a == maxOf rightEdge sc nodes
           /\ get y mid a = get y sc a
       | Alignment.center =>
           get x mid a + get width mid a / 2 == meanOf centerX sc nodes
           /\ get y mid a = get y sc a
       | Alignment.top =>
           get y mid a = minOf y sc nodes /\ get x mid a = get x sc a
       | Alignment.bottom =>
           get y mid a + get height mid a == maxOf bottomEdge sc nodes
           /\ get x mid a = get x sc a
       | Alignment.middle =>
           get y mid a + get height mid a / 2 == meanOf centerY sc nodes
           /\ get x mid a = get x sc a
       end.

(** The elements {x:0,w:50}, {x:30,w:20}, {x:10,w:40}, on the page and
    inside a section. *)
Definition threeOnPage : Scene :=
  [ shapeAt "a" 0 100 50 50 None; shapeAt "b" 30 100 20 50 None;
    shapeAt "c" 10 100 40 50 None ].

Definition threeInSection : Scene :=
  [ sectionAt "S" 0 0 600 400 None;
    shapeAt "a" 0 100 50 50 (Some 0%nat);
    shapeAt "b" 30 100 20 50 (Some 0%nat);
    shapeAt "c" 10 100 40 50 (Some 0%nat) ].

Definition xs (sc : Scene) : list number := map (fun n => Qred (x n)) sc.
Definition rightEdges (sc : Scene) : list number :=
  map (fun n => Qred (rightEdge n)) sc.

(** ** Calls *)

Inductive Call :=
| AlignElements (elementIds : list string) (alignment : Alignment.t)
| DistributeElements (elementIds : list string) (direction : Direction)
    (spacing : option number).

(** The node array handed to auto-fit by a call (empty when the call
    returns early). *)
Definition moved (sc : Scene) (c : Call) : list nat :=
  match c with
  | AlignElements ids _ =>
      let nodes := resolveNodes sc ids in
      if (List.length nodes <? 2)%nat then [] else nodes
  | DistributeElements ids direction _ =>
      let nodes := resolveNodes sc ids in
      if (List.length nodes <? 3)%nat then []
      else sortNodes sc nodes direction
  end.

(** The scene after the repositioning of a call, before auto-fit. *)
Definition reposition (sc : Scene) (c : Call) : Scene :=
  match c with
  | AlignElements ids alignment =>
      let nodes := resolveNodes sc ids in
      if (List.length nodes <? 2)%nat then sc
      else alignNodes sc nodes alignment
  | DistributeElements ids direction spacing =>
      let nodes := resolveNodes sc ids in
      if (List.length nodes <? 3)%nat then sc
      else fst (distributeNodes sc (sortNodes sc nodes direction) direction
                  (match spacing with Some s => s | None => 60 end))
  end.

Definition run (sc : Scene) (c : Call) : Scene :=
  match c with
  | AlignElements ids alignment =>
      fst (handleAlignElements sc ids alignment)
  | DistributeElements ids direction spacing =>
      fst (handleDistributeElements sc ids direction spacing)
  end.


(** A call repositions along the x axis. *)
Definition horizontalCall (c : Call) : bool :=
  match c with
  | AlignElements _ (Alignment.left | Alignment.center | Alignment.right) =>
      true
  | AlignElements _ _ => false
  | DistributeElements _ horizontal _ => true
  | DistributeElements _ vertical _ => false
  end.

(** Three elements of width 50 at the given x. *)
Definition threeAt (x1 x2 x3 : number) : Scene :=
  [ shapeAt "a" x1 0 50 50 None; shapeAt "b" x2 0 50 50 None;
    shapeAt "c" x3 0 50 50 None ].

Definition sameButX (n n' : SceneNode) : Prop := n' = setX (x n') n.
Definition sameButY (n n' : SceneNode) : Prop := n' = setY (y n') n.

(** The shift applied by auto-fit on each axis. *)
Definition shiftX (sc : Scene) (kids : list nat) : number :=
  if Qlt_le_dec (minOf x sc kids) SECTION_PADDING
  then SECTION_PADDING - minOf x sc kids else 0.

Definition shiftY (sc : Scene) (kids : list nat) : number :=
  if Qlt_le_dec (minOf y sc kids) SECTION_PADDING
  then SECTION_PADDING - minOf y sc kids else 0.

Definition gapUsed (r : DistributeResult) : option number :=
  option_map Qred (spacing r).

From Stdlib Require Import Sorted Ascii.

(** ** Further vocabulary *)


(** The centre of the box lies strictly inside the rectangle of the
    section. *)
Definition centreInside (sec : SceneNode) (bx : Box.t) : Prop :=
  x sec < Box.x bx + Box.w bx / 2
  /\ Box.x bx + Box.w bx / 2 < x sec + width sec
  /\ y sec < Box.y bx + Box.h bx / 2
  /\ Box.y bx + Box.h bx / 2 < y sec + height sec.

(** The boxes do not share a region of positive width and height. *)
Definition apart (a b : Box.t) : Prop :=
  Box.x b + Box.w b <= Box.x a \/ Box.x a + Box.w a <= Box.x b
  \/ Box.y b + Box.h b <= Box.y a \/ Box.y a + Box.h a <= Box.y b.

(** Box [b] lies within box [a]. *)
Definition within (a b : Box.t) : Prop :=
  Box.x a <= Box.x b /\ Box.x b + Box.w b <= Box.x a + Box.w a
  /\ Box.y a <= Box.y b /\ Box.y b + Box.h b <= Box.y a + Box.h a.

(** A connector issue of either kind for the connector [cn]. *)
Definition connectorReported (issues : list Issue) (cn : SceneNode) : Prop :=
  exists i, In i issues
            /\ (issueType i = tight_connector
                \/ issueType i = connector_through_shape)
            /\ elementId i = id cn.

(** An endpoint of the connector carries no node id, or an id that no node
    of the page has. *)
Definition dangling (sc : Scene) (cn : SceneNode) : Prop :=
  connectorStart cn = None \/ connectorEnd cn = None
  \/ (exists i, connectorStart cn = Some i /\ resolve sc i = None)
  \/ (exists i, connectorEnd cn = Some i /\ resolve sc i = None).



(** No node of [nodes] has a Section as its parent. *)
Definition noSectionParent (sc : Scene) (nodes : list nat) : Prop :=
  forall a n p sec, In a nodes -> node sc a = Some n -> parent n = Some p ->
    node sc p = Some sec -> type sec <> SECTION.


(** The node at address [p] has grown from [sc] to [sc'] on some axis. *)
Definition hasGrown (sc sc' : Scene) (p : nat) : Prop :=
  exists sec sec', node sc p = Some sec /\ node sc' p = Some sec'
                   /\ (width sec < width sec' \/ height sec < height sec').

(** Invariant of the loop of [resizeParentSections] on the list of resized
    sections: it holds the ids of visited sections that have grown, each
    once. *)
Definition resizedInvariant (sc : Scene) (st : FitState) : Prop :=
  NoDup (resized st)
  /\ (forall i, In i (resized st) -> In i (visited st))
  /\ (forall i, In i (resized st) ->
        exists p sec, node sc p = Some sec /\ id sec = i
                      /\ type sec = SECTION /\ hasGrown sc (scene st) p)
  /\ (forall p, hasGrown sc (scene st) p ->
        exists sec, node sc p = Some sec /\ In (id sec) (resized st))
  /\ (forall a,
        match node sc a, node (scene st) a with
        | Some n, Some n' =>
            frame n n' /\ width n <= width n' /\ height n <= height n'
        | None, None => True
        | _, _ => False
        end).

(** Sum of sizes plus one gap per element: the distance the placement loop
    advances over the elements of [l]. *)
Definition advance (size : SceneNode -> number) (gap : number) (sc : Scene)
    (l : list nat) : number :=
  sumOf size sc l + count l * gap.

Definition naturalGap (sc : Scene) (nodes : list nat) : number :=
  ((get rightEdge sc (last nodes 0%nat) - get x sc (hd 0%nat nodes))
   - sumOf width sc nodes) / (count nodes - 1).

Definition naturalGapV (sc : Scene) (nodes : list nat) : number :=
  ((get bottomEdge sc (last nodes 0%nat) - get y sc (hd 0%nat nodes))
   - sumOf height sc nodes) / (count nodes - 1).

(** ** Colours

    [resolveColor] and [hexToRgb].  A string is a sequence of code units
    below 256, one [ascii] each.  A channel is [None] when the source
    computes [NaN]. *)

Inductive Error :=
| ElementNotFound (i : string)
| StartElementNotFound (i : string)
| EndElementNotFound (i : string)
| TypeError
| HostError.

Module RGB.
Record t := mk { r : option number; g : option number; b : option number }.
End RGB.

(** White space skipped by [parseInt]: TAB, LF, VT, FF, CR, SP, NBSP. *)
Definition isWhiteSpace (c : ascii) : bool :=
  existsb (Nat.eqb (nat_of_ascii c)) [9; 10; 11; 12; 13; 32; 160]%nat.

Definition hexDigit (c : ascii) : option Z :=
  let n := Z.of_nat (nat_of_ascii c) in
  if ((48 <=? n) && (n <=? 57))%Z then Some (n - 48)%Z
  else if ((97 <=? n) && (n <=? 102))%Z then Some (n - 87)%Z
  else if ((65 <=? n) && (n <=? 70))%Z then Some (n - 55)%Z
  else None.

Fixpoint trimStart (s : string) : string :=
  match s with
  | String c s' => if isWhiteSpace c then trimStart s' else s
  | EmptyString => EmptyString
  end.

(** Value of the longest prefix of hexadecimal digits; [acc] is the value
    read so far, [None] before the first digit. *)
Fixpoint digits16 (s : string) (acc : option Z) : option Z :=
  match s with
  | String c s' =>
      match hexDigit c with
      | Some d =>
          digits16 s'
            (Some (16 * match acc with Some a => a | None => 0 end + d)%Z)
      | None => acc
      end
  | EmptyString => acc
  end.

(** [parseInt(s, 16)]: white space, an optional sign and an optional
    [0x] or [0X] are skipped; [None] is [NaN]. *)
Definition parseInt16 (s : string) : option Z :=
  let s1 := trimStart s in
  let signed :=
    match s1 with
    | String c t =>
        if Ascii.eqb c "-" then ((-1)%Z, t)
        else if Ascii.eqb c "+" then (1%Z, t) else (1%Z, s1)
    | EmptyString => (1%Z, s1)
    end in
  let s3 :=
    match snd signed with
    | String c0 (String c1 t) =>
        if Ascii.eqb c0 "0" && (Ascii.eqb c1 "x" || Ascii.eqb c1 "X")
        then t else snd signed
    | _ => snd signed
    end in
  option_map (Z.mul (fst signed)) (digits16 s3 None).

(** [hex.replace('#', '')]: the first [#] is removed. *)
Fixpoint removeHash (s : string) : string :=
  match s with
  | String c t => if Ascii.eqb c "#" then t else String c (removeHash t)
  | EmptyString => EmptyString
  end.

Definition channel (s : string) : option number :=
  option_map (fun z => inject_Z z / 255) (parseInt16 s).

Definition hexToRgb (hex : string) : RGB.t :=
  let h := removeHash hex in
  RGB.mk (channel (substring 0 2 h)) (channel (substring 2 2 h))
    (channel (substring 4 2 h)).

Definition FIGJAM_COLORS : list (string * string) :=
  [ ("LIGHT_BLUE", "#C2E5FF"); ("LIGHT_GREEN", "#CDF4D3");
    ("LIGHT_VIOLET", "#E4CCFF"); ("LIGHT_YELLOW", "#FFECBD");
    ("LIGHT_ORANGE", "#FFE0C2"); ("LIGHT_RED", "#FFCDC2");
    ("LIGHT_PINK", "#FFC2EC"); ("LIGHT_TEAL", "#C6FAF6");
    ("LIGHT_GRAY", "#D9D9D9");
    ("BLUE", "#3DADFF"); ("GREEN", "#66D575"); ("VIOLET", "#9747FF");
    ("YELLOW", "#FFC943"); ("ORANGE", "#FF9E42"); ("RED", "#FF7556");
    ("PINK", "#F849C1"); ("TEAL", "#5AD8CC"); ("GRAY", "#B3B3B3");
    ("DARK_GRAY", "#757575"); ("BLACK", "#1E1E1E");
    ("WHITE", "#FFFFFF") ]%string.

Fixpoint lookup (k : string) (m : list (string * string)) : option string :=
  match m with
  | [] => None
  | (k', v) :: m' => if String.eqb k' k then Some v else lookup k m'
  end.

(** Property names that every object inherits: [FIGJAM_COLORS[color]] is
    then a function (an object for [__proto__]), which is truthy and has no
    [replace] method, so that [hexToRgb] throws a TypeError. *)
Definition inheritedKeys : list string :=
  [ "constructor"; "hasOwnProperty"; "isPrototypeOf";
    "propertyIsEnumerable"; "toLocaleString"; "toString"; "valueOf";
    "__defineGetter__"; "__defineSetter__"; "__lookupGetter__";
    "__lookupSetter__"; "__proto__" ]%string.

Definition resolveColor (color : string) : Error + RGB.t :=
  match lookup color FIGJAM_COLORS with
  | Some hex => inr (hexToRgb hex)
  | None =>
      if existsb (String.eqb color) inheritedKeys then inl TypeError
      else inr (hexToRgb color)
  end.

(** A colour with three defined channels in the unit interval. *)
Definition validChannel (c : option number) : Prop :=
  exists v, c = Some v /\ 0 <= v <= 1.

Definition validRGB (c : RGB.t) : Prop :=
  validChannel (RGB.r c) /\ validChannel (RGB.g c) /\ validChannel (RGB.b c).

Definition byteOf (d1 d2 : Z) : number := inject_Z (16 * d1 + d2) / 255.

(** ** The host

    What the handlers ask of the plugin API and do not decide themselves:
    which properties a node of a given type has (the [in] tests), whether
    a call is accepted or throws, and the layout of a node after its text
    has been set. *)
Record Host := mkHost {
  hasCharacters : NodeType -> bool;
  hasResize : NodeType -> bool;
  hasFills : NodeType -> bool;
  resizeOk : SceneNode -> number -> number -> bool;
  fontOk : SceneNode -> bool;
  setText : string -> SceneNode -> SceneNode;
  paintOk : SceneNode -> RGB.t -> bool
}.

Definition setCharacters (s : string) (n : SceneNode) : SceneNode :=
  mkNode (id n) (name n) (type n) (x n) (y n) (width n) (height n)
    (parent n) s (fontSize n) (connectorStart n) (connectorEnd n).

Definition definedChannel (c : option number) : bool :=
  match c with
  | Some v => if Qle_lt_dec 0 v then if Qle_lt_dec v 1 then true else false
              else false
  | None => false
  end.

(** The host of the examples: text nodes have [characters]; shapes and
    text nodes have [resize]; every type but connectors has [fills]; sizes
    of at least 0.01 and colours with channels in [0, 1] are accepted;
    fonts load; setting a text changes nothing else. *)
Definition exampleHost : Host :=
  mkHost
    (fun t => NodeType_eqb t TEXT)
    (fun t => NodeType_eqb t SHAPE_WITH_TEXT || NodeType_eqb t TEXT)
    (fun t => negb (NodeType_eqb t CONNECTOR))
    (fun _ w h => if Qle_lt_dec (1#100) w
                  then if Qle_lt_dec (1#100) h then true else false
                  else false)
    (fun _ => true)
    setCharacters
    (fun _ c => definedChannel (RGB.r c) && definedChannel (RGB.g c)
                && definedChannel (RGB.b c)).

(** ** Serialization and queries *)

Definition typeName (t : NodeType) : string :=
  match t with
  | STICKY => "STICKY"
  | SHAPE_WITH_TEXT => "SHAPE_WITH_TEXT"
  | TEXT => "TEXT"
  | CONNECTOR => "CONNECTOR"
  | SECTION => "SECTION"
  end.

Record Serialized := mkSerialized {
  sId : string;
  sName : string;
  sType : NodeType;
  sX : number;
  sY : number;
  sWidth : number;
  sHeight : number;
  sText : option string;
  sLabel : option string
}.

Definition serializeNode (h : Host) (n : SceneNode) : Serialized :=
  let text1 := if hasCharacters h (type n) then Some (characters n)
               else None in
  let text2 := if NodeType_eqb (type n) SHAPE_WITH_TEXT
               then Some (characters n) else text1 in
  let label := if NodeType_eqb (type n) CONNECTOR
               then if String.eqb (characters n) "" then None
                    else Some (characters n)
               else None in
  mkSerialized (id n) (name n) (type n) (x n) (y n) (width n) (height n)
    text2 label.

(** [handleQueryElements]: the elements and their count. *)
Definition handleQueryElements (h : Host) (sc : Scene)
    (type_ : option string) : list Serialized * nat :=
  let nodes := map snd (children sc None) in
  let nodes :=
    match type_ with
    | Some t =>
        if negb (String.eqb t "") && negb (String.eqb t "ALL")
        then filter (fun n => String.eqb (typeName (type n)) t) nodes
        else nodes
    | None => nodes
    end in
  (map (serializeNode h) nodes, List.length nodes).

(** [typeCounts[child.type] = (typeCounts[child.type] || 0) + 1] on an
    object whose keys are kept in the order of their first assignment. *)
Fixpoint bump (t : NodeType) (m : list (NodeType * nat))
  : list (NodeType * nat) :=
  match m with
  | [] => [(t, 1%nat)]
  | (t', k) :: m' =>
      if NodeType_eqb t' t then (t', S k) :: m' else (t', k) :: bump t m'
  end.

Record BoardInfo := mkBoardInfo {
  pageName : string;
  elementCount : nat;
  typeCounts : list (NodeType * nat)
}.

Definition handleGetBoardInfo (page : string) (sc : Scene) : BoardInfo :=
  let children := map snd (children sc None) in
  mkBoardInfo page (List.length children)
    (fold_left (fun m child => bump (type child) m) children []).

(** [typeCounts[t]], 0 for a missing key. *)
Fixpoint countOf (t : NodeType) (m : list (NodeType * nat)) : nat :=
  match m with
  | [] => 0%nat
  | (t', k) :: m' => if NodeType_eqb t' t then k else countOf t m'
  end.

(** ** update_element *)

Record UpdateParams := mkUpdateParams {
  uId : string;
  uX : option number;
  uY : option number;
  uWidth : option number;
  uHeight : option number;
  uText : option string;
  uColor : option string
}.

Definition updatePosition (p : UpdateParams) (n : SceneNode) : SceneNode :=
  let n1 := match uX p with Some v => setX v n | None => n end in
  match uY p with Some v => setY v n1 | None => n1 end.

Definition updateSize (h : Host) (p : UpdateParams) (n : SceneNode)
  : Error + SceneNode :=
  match uWidth p, uHeight p with
  | None, None => inr n
  | _, _ =>
      let newW := match uWidth p with Some w => w | None => width n end in
      let newH := match uHeight p with Some v => v | None => height n end in
      if NodeType_eqb (type n) SECTION then
        if resizeOk h n newW newH
        then inr (resizeWithoutConstraints newW newH n) else inl HostError
      else if hasResize h (type n) then
        if resizeOk h n newW newH then inr (resize newW newH n)
        else inl HostError
      else inr n
  end.

Definition loadFontAndSet (h : Host) (t : string) (n : SceneNode)
  : Error + SceneNode :=
  if fontOk h n then inr (setText h t n) else inl HostError.

Definition updateText (h : Host) (p : UpdateParams) (n : SceneNode)
  : Error + SceneNode :=
  match uText p with
  | None => inr n
  | Some t =>
      if hasCharacters h (type n) then loadFontAndSet h t n
      else if NodeType_eqb (type n) SHAPE_WITH_TEXT then loadFontAndSet h t n
      else if NodeType_eqb (type n) STICKY then loadFontAndSet h t n
      else inr n
  end.

Definition updateColor (h : Host) (p : UpdateParams) (n : SceneNode)
  : Error + unit :=
  match uColor p with
  | Some c =>
      if hasFills h (type n) then
        match resolveColor c with
        | inl e => inl e
        | inr rgb => if paintOk h n rgb then inr tt else inl HostError
        end
      else inr tt
  | None => inr tt
  end.

(** The scene after the call and its outcome; what was written before an
    exception stays written. *)
Definition handleUpdateElement (h : Host) (sc : Scene) (p : UpdateParams)
  : Scene * (Error + Serialized) :=
  match findNodeById sc (uId p) with
  | None => (sc, inl (ElementNotFound (uId p)))
  | Some a =>
      match node sc a with
      | None => (sc, inl (ElementNotFound (uId p)))
      | Some n0 =>
          let n2 := updatePosition p n0 in
          match updateSize h p n2 with
          | inl e => (update (fun _ => n2) a sc, inl e)
          | inr n3 =>
              match updateText h p n3 with
              | inl e => (update (fun _ => n3) a sc, inl e)
              | inr n4 =>
                  match updateColor h p n4 with
                  | inl e => (update (fun _ => n4) a sc, inl e)
                  | inr _ =>
                      (update (fun _ => n4) a sc, inr (serializeNode h n4))
                  end
              end
          end
      end
  end.

(** The node as the call leaves it: what was written before an exception
    stays written. *)
Definition updatedNode (h : Host) (p : UpdateParams) (n0 : SceneNode)
  : SceneNode :=
  let n2 := updatePosition p n0 in
  match updateSize h p n2 with
  | inl _ => n2
  | inr n3 =>
      match updateText h p n3 with
      | inl _ => n3
      | inr n4 => n4
      end
  end.

Definition sameIdentity (n n' : SceneNode) : Prop :=
  id n' = id n /\ type n' = type n /\ parent n' = parent n.

(** The host leaves the identity of a node alone when it sets its text. *)
Definition textKeepsIdentity (h : Host) : Prop :=
  forall t n, sameIdentity n (setText h t n).

Definition requested (v : option number) (old : number) : number :=
  match v with Some w => w | None => old end.

Definition resizable (h : Host) (t : NodeType) : bool :=
  NodeType_eqb t SECTION || hasResize h t.

Definition sizeGiven (p : UpdateParams) : bool :=
  match uWidth p, uHeight p with
  | None, None => false
  | _, _ => true
  end.

(** An update that names only a new size. *)
Definition resizeTo (i : string) (w h : number) : UpdateParams :=
  mkUpdateParams i None None (Some w) (Some h) None None.

Definition truncationReported (issues : list Issue) (i : string) : Prop :=
  exists j, In j issues /\ issueType j = text_truncated /\ elementId j = i.

(** ** batch_create ([src/index.ts])

    The server side of the batch tool.  The bridge and the plugin behind it
    are the environment: a state of any type [World] and a function
    [sendCommand] that, from a state and a command, gives the next state
    and either the response the promise resolves with or the message of
    the exception it rejects with. *)

Module Kind.
Inductive t := shape | sticky | text | connector | section.
End Kind.

Module Spec.
Record t := mk {
  type : Kind.t;
  refId : option string;
  shapeType : option string;
  text : option string;
  x : option number;
  y : option number;
  width : option number;
  height : option number;
  color : option string;
  wide : option bool;
  fontSize : option number;
  startElementId : option string;
  endElementId : option string;
  label : option string;
  strokeColor : option string;
  name : option string
}.
End Spec.

Inductive Command :=
| create_section (name : string) (x y width height : number)
| create_shape (shapeType text : string) (x y width height : number)
    (color : string)
| create_sticky (text : string) (x y : number) (wide : bool) (color : string)
| create_text (text : string) (x y fontSize : number)
| create_connector (startElementId endElementId : string)
    (label strokeColor : option string).

(** [data] is the [id] of the response's [data] object when there is
    one. *)
Record Response := mkResponse {
  success : bool;
  data : option string;
  error : option string
}.

Inductive Outcome :=
| Resolved (res : Response)
| Rejected (message : string).

(** [o ?? d] *)
Definition orElse {A} (o : option A) (d : A) : A :=
  match o with Some v => v | None => d end.

(** Truthiness of an optional string: present and not empty. *)
Definition truthy (s : option string) : bool :=
  match s with
  | Some s => negb (String.eqb s ""%string)
  | None => false
  end.

(** [Map.set] *)
Definition mapSet (k v : string) (m : list (string * string))
  : list (string * string) :=
  (k, v) :: filter (fun p => negb (String.eqb (fst p) k)) m.

(** [refIdMap.get(id) ?? id] *)
Definition resolveRef (refIdMap : list (string * string)) (i : string)
  : string :=
  orElse (lookup i refIdMap) i.

(** The command built by the [switch]. *)
Definition commandOf (refIdMap : list (string * string)) (spec : Spec.t)
  : Command :=
  match Spec.type spec with
  | Kind.section =>
      create_section (orElse (Spec.name spec) "Section"%string)
        (orElse (Spec.x spec) 0) (orElse (Spec.y spec) 0)
        (orElse (Spec.width spec) 600) (orElse (Spec.height spec) 400)
  | Kind.shape =>
      create_shape (orElse (Spec.shapeType spec) "ROUNDED_RECTANGLE"%string)
        (orElse (Spec.text spec) ""%string)
        (orElse (Spec.x spec) 0) (orElse (Spec.y spec) 0)
        (orElse (Spec.width spec) 200) (orElse (Spec.height spec) 100)
        (orElse (Spec.color spec) "LIGHT_BLUE"%string)
  | Kind.sticky =>
      create_sticky (orElse (Spec.text spec) ""%string)
        (orElse (Spec.x spec) 0) (orElse (Spec.y spec) 0)
        (orElse (Spec.wide spec) false)
        (orElse (Spec.color spec) "LIGHT_YELLOW"%string)
  | Kind.text =>
      create_text (orElse (Spec.text spec) ""%string)
        (orElse (Spec.x spec) 0) (orElse (Spec.y spec) 0)
        (orElse (Spec.fontSize spec) 16)
  | Kind.connector =>
      create_connector
        (resolveRef refIdMap (orElse (Spec.startElementId spec) ""%string))
        (resolveRef refIdMap (orElse (Spec.endElementId spec) ""%string))
        (Spec.label spec) (Spec.strokeColor spec)
  end.

Record Created := mkCreated {
  createdRefId : option string;
  createdId : string;
  createdType : Kind.t
}.

(** An entry of [errors]: the type, the refId when it is shown and the
    message. *)
Record BatchError := mkBatchError {
  errorType : Kind.t;
  errorRefId : option string;
  errorMessage : string
}.

Definition shownRef (spec : Spec.t) : option string :=
  if truthy (Spec.refId spec) then Spec.refId spec else None.

Module BatchOutput.
Record t := mk {
  created : list Created;
  count : nat;
  errors : option (list BatchError);
  isError : bool
}.
End BatchOutput.

Section Batch.
Variable World : Type.
Variable sendCommand : World -> Command -> World * Outcome.

Record BatchState := mkBatch {
  world : World;
  refIdMap : list (string * string);
  results : list Created;
  errors : list BatchError
}.

Definition pushError (w : World) (st : BatchState) (spec : Spec.t)
    (message : string) : BatchState :=
  mkBatch w (refIdMap st) (results st)
    (errors st ++ [mkBatchError (Spec.type spec) (shownRef spec) message]).

(** One iteration of the loop over the specs. *)
Definition batchStep (st : BatchState) (spec : Spec.t) : BatchState :=
  let (w, out) := sendCommand (world st) (commandOf (refIdMap st) spec) in
  match out with
  | Resolved res =>
      match success res, data res with
      | true, Some createdId =>
          mkBatch w
            (if truthy (Spec.refId spec)
             then mapSet (orElse (Spec.refId spec) ""%string) createdId (refIdMap st)
             else refIdMap st)
            (results st ++ [mkCreated (Spec.refId spec) createdId
                              (Spec.type spec)])
            (errors st)
      | _, _ => pushError w st spec (orElse (error res) "unknown error"%string)
      end
  | Rejected message => pushError w st spec message
  end.

Definition runBatch (w : World) (specs : list Spec.t) : BatchState :=
  fold_left batchStep specs (mkBatch w [] [] []).

Definition batch_create (w : World) (specs : list Spec.t)
  : World * BatchOutput.t :=
  let st := runBatch w specs in
  (world st,
   BatchOutput.mk (results st) (List.length (results st))
     (if (0 <? List.length (errors st))%nat then Some (errors st) else None)
     ((0 <? List.length (errors st))%nat
      && (List.length (results st) =? 0)%nat)).

(** The spec was answered by a successful response that carries data. *)
Definition succeeded (st : BatchState) (spec : Spec.t) : bool :=
  match snd (sendCommand (world st) (commandOf (refIdMap st) spec)) with
  | Resolved res =>
      match success res, data res with
      | true, Some _ => true
      | _, _ => false
      end
  | Rejected _ => false
  end.
End Batch.

Arguments world {World}.
Arguments refIdMap {World}.
Arguments results {World}.
Arguments errors {World}.

(** The id of the last element of [l] created under the reference [r]. *)
Fixpoint latest (r : string) (l : list Created) : option string :=
  match l with
  | [] => None
  | c :: l' =>
      match latest r l' with
      | Some i => Some i
      | None =>
          match createdRefId c with
          | Some r' => if String.eqb r' r then Some (createdId c) else None
          | None => None
          end
      end
  end.

(** What a reference stands for given the elements created so far. *)
Definition refersTo (l : list Created) (r : string) : string :=
  if String.eqb r ""%string then r else orElse (latest r l) r.

(** Invariant of the loop: the map of references agrees with the list of
    created elements. *)
Definition refsAgree {World : Type} (st : BatchState World) : Prop :=
  forall r, lookup r (refIdMap st)
            = if String.eqb r "" then None else latest r (results st).

(** ** The bridge ([bridge.ts])

    [BridgeServer] as a state machine over the events of the event loop:
    each handler runs to completion.  A call of [sendCommand] is named by
    the number [call] of the promise it returns, which also names the
    timer it arms; the id is the UUID drawn for the command and [payload]
    stands for its type and parameters.  [readyStateOpen] is what the
    socket answers when asked whether it is open; [send] on a socket that
    answered so does not throw.  A message that cannot be parsed into a
    response is [message ws None]. *)
Module Bridge.

Inductive Event :=
| connection (ws : nat)
| message (ws : nat) (response : option (string * Response))
| close (ws : nat)
| sendCommand (call : nat) (id payload : string) (readyStateOpen : bool)
| timeout (call : nat)
| stop.

Inductive Effect :=
| resolve (call : nat) (id : string) (res : Response)
| send (ws : nat) (id payload : string).

Record t := mk {
  pluginSocket : option nat;
  pendingCommands : list (string * nat);
  timers : list (nat * string)
}.

Definition init : t := mk None [] [].

Definition failure (message : string) : Response :=
  mkResponse false None (Some message).

Definition notConnected : string :=
  "FigJam plugin is not connected. Please open the FigJam MCP plugin in your Figma editor.".

Definition timedOut : string := "Command timed out after 15000ms".

(** [Map.get], [Map.set] and [Map.delete] on a map kept in insertion
    order. *)
Fixpoint get (id : string) (m : list (string * nat)) : option nat :=
  match m with
  | [] => None
  | (k, c) :: m' => if String.eqb k id then Some c else get id m'
  end.

Fixpoint set (id : string) (call : nat) (m : list (string * nat))
  : list (string * nat) :=
  match m with
  | [] => [(id, call)]
  | (k, c) :: m' =>
      if String.eqb k id then (k, call) :: m' else (k, c) :: set id call m'
  end.

Definition delete (id : string) (m : list (string * nat))
  : list (string * nat) :=
  filter (fun p => negb (String.eqb (fst p) id)) m.

Definition clearTimeout (call : nat) (ts : list (nat * string))
  : list (nat * string) :=
  filter (fun p => negb (Nat.eqb (fst p) call)) ts.

Definition armed (call : nat) (ts : list (nat * string)) : option string :=
  option_map snd (find (fun p => Nat.eqb (fst p) call) ts).

(** The loop of the close handler and of [stop]: every pending command
    has its timer cleared and is resolved with a failure. *)
Definition rejectAll (message : string) (b : t) : list (nat * string) * list Effect :=
  (fold_left (fun ts p => clearTimeout (snd p) ts) (pendingCommands b)
     (timers b),
   map (fun p => resolve (snd p) (fst p) (failure message))
     (pendingCommands b)).

Definition sameSocket (s : option nat) (ws : nat) : bool :=
  match s with Some w => Nat.eqb w ws | None => false end.

Definition step (b : t) (e : Event) : t * list Effect :=
  match e with
  | connection ws => (mk (Some ws) (pendingCommands b) (timers b), [])
  | message _ None => (b, [])
  | message _ (Some (id, res)) =>
      match get id (pendingCommands b) with
      | None => (b, [])
      | Some call =>
          (mk (pluginSocket b) (delete id (pendingCommands b))
             (clearTimeout call (timers b)),
           [resolve call id res])
      end
  | close ws =>
      let (ts, effects) := rejectAll "Plugin disconnected" b in
      (mk (if sameSocket (pluginSocket b) ws then None else pluginSocket b)
         [] ts,
       effects)
  | sendCommand call id payload readyStateOpen =>
      match pluginSocket b with
      | Some ws =>
          if readyStateOpen then
            (mk (pluginSocket b) (set id call (pendingCommands b))
               (timers b ++ [(call, id)]),
             [send ws id payload])
          else (b, [resolve call "" (failure notConnected)])
      | None => (b, [resolve call "" (failure notConnected)])
      end
  | timeout call =>
      match armed call (timers b) with
      | None => (b, [])
      | Some id =>
          (mk (pluginSocket b) (delete id (pendingCommands b))
             (clearTimeout call (timers b)),
           [resolve call id (failure timedOut)])
      end
  | stop =>
      let (ts, effects) := rejectAll "Server shutting down" b in
      (mk (pluginSocket b) [] ts, effects)
  end.

Fixpoint run (b : t) (es : list Event) : t * list Effect :=
  match es with
  | [] => (b, [])
  | e :: es' =>
      let (b1, o1) := step b e in
      let (b2, o2) := run b1 es' in
      (b2, o1 ++ o2)
  end.

(** The calls of [sendCommand] in a trace, with their ids. *)
Definition sentBy (e : Event) : list (nat * string) :=
  match e with
  | sendCommand call id _ _ => [(call, id)]
  | _ => []
  end.

Definition sent (es : list Event) : list (nat * string) :=
  flat_map sentBy es.

(** The promises resolved by a list of effects, with the id of the
    response. *)
Definition resolvedBy (o : Effect) : list (nat * string) :=
  match o with
  | resolve call id _ => [(call, id)]
  | send _ _ _ => []
  end.

Definition resolved (os : list Effect) : list (nat * string) :=
  flat_map resolvedBy os.

Definition swap (p : string * nat) : nat * string := (snd p, fst p).

(** Invariant: a pending command has its timer, timers and map keys are
    unique, a call with a timer was sent under that id and is not
    resolved, no call is resolved twice and only calls that were sent are
    resolved, under the id they were sent with or under the empty id. *)
Definition invariant (sentSoFar resolvedSoFar : list (nat * string)) (b : t)
  : Prop :=
  (forall id c, In (id, c) (pendingCommands b) -> In (c, id) (timers b))
  /\ NoDup (map fst (timers b))
  /\ NoDup (map fst (pendingCommands b))
  /\ (forall c id, In (c, id) (timers b) ->
        In (c, id) sentSoFar /\ ~ In c (map fst resolvedSoFar))
  /\ NoDup (map fst resolvedSoFar)
  /\ (forall c id, In (c, id) resolvedSoFar ->
        In (c, id) sentSoFar
        \/ (id = ""%string /\ In c (map fst sentSoFar))).

End Bridge.

(** With ids that do not collide: the armed timers are those of the
    pending commands, pending ids were sent, and a call that was made is
    resolved or still pending. *)
Definition bridgeTracks (sentSoFar resolvedSoFar : list (nat * string))
    (b : Bridge.t) : Prop :=
  Bridge.timers b = map Bridge.swap (Bridge.pendingCommands b)
  /\ (forall id c, In (id, c) (Bridge.pendingCommands b) ->
        In id (map snd sentSoFar))
  /\ (forall c i, In (c, i) sentSoFar ->
        In c (map fst resolvedSoFar)
        \/ In (i, c) (Bridge.pendingCommands b)).

Definition exampleTrace : list Bridge.Event :=
  [ Bridge.connection 1;
    Bridge.sendCommand 0 "u0" "create_shape" true;
    Bridge.sendCommand 1 "u1" "validate_layout" true;
    Bridge.message 1 (Some ("u0"%string, mkResponse true (Some "1:2"%string) None));
    Bridge.timeout 0;
    Bridge.connection 2;
    Bridge.sendCommand 2 "u2" "clear_board" true;
    Bridge.close 1;
    Bridge.timeout 1;
    Bridge.sendCommand 3 "u3" "get_board_info" false ]%string.



(** The ids of the elements that a suggestion names. *)
Definition suggestionIds (s : Suggestion) : list string :=
  match s with
  | ResizeToAtLeast _ _ => []
  | MoveToAvoidOverlap boxB => [boxB]
  | MoveAtLeast endId _ _ _ => [endId]
  | MoveOutOfPath _ boxId _ _ => [boxId]
  | ResizeSectionToAtLeast secId _ _ childId => [secId; childId]
  | ResizeSectionLarger secId childId => [secId; childId]
  end.

(** Some node of the page has the id. *)
Definition onPage (sc : Scene) (i : string) : Prop :=
  exists n, In n sc /\ id n = i.

(** The kind of element an issue of each type is reported for. *)
Definition subjectOf (t : IssueType) (n : SceneNode) : Prop :=
  match t with
  | text_truncated => type n = SHAPE_WITH_TEXT /\ parent n = None
  | overlap => type n <> SECTION /\ type n <> CONNECTOR /\ parent n = None
  | tight_connector | connector_through_shape => type n = CONNECTOR
  | section_bleed => type n <> CONNECTOR
  end.
(** * Properties *)

(** ** Lists and the heap *)

Lemma In_singleton_if {A} (c : bool) (v i : A) :
  In i (if c then [v] else []) <-> c = true /\ i = v.
Proof.
  destruct c; simpl; split; intros H.
  - destruct H as [H | []]; auto.
  - destruct H as [_ H]; auto.
  - contradiction.
  - destruct H; discriminate.
Qed.

Lemma NoDup_map_inj {A B} (f : A -> B) (l : list A) (a b : A) :
  NoDup (map f l) -> In a l -> In b l -> f a = f b -> a = b.
Proof.
  induction l as [| c l IH]; simpl; intros Hnd Ha Hb Hf; [contradiction |].
  inversion Hnd as [| ? ? Hnotin Hnd']; subst.
  destruct Ha as [-> | Ha], Hb as [-> | Hb]; auto.
  - exfalso. apply Hnotin. rewrite Hf. now apply in_map.
  - exfalso. apply Hnotin. rewrite <- Hf. now apply in_map.
Qed.

(** [before a b l]: [a] occurs in [l] at a smaller index than [b]. *)
Definition before {A} (a b : A) (l : list A) : Prop :=
  exists l1 l2 l3, l = (l1 ++ a :: l2 ++ b :: l3)%list.

Lemma before_cons {A} (a b c : A) (l : list A) :
  before a b (c :: l) <-> (c = a /\ In b l) \/ before a b l.
Proof.
  split.
  - intros (l1 & l2 & l3 & E). destruct l1 as [| d l1]; simpl in E.
    + injection E as -> ->. left. split; auto.
      apply in_or_app. right. now left.
    + injection E as -> ->. right. now exists l1, l2, l3.
  - intros [[-> Hb] | (l1 & l2 & l3 & ->)].
    + apply in_split in Hb as (l2 & l3 & ->). now exists [], l2, l3.
    + now exists (c :: l1), l2, l3.
Qed.

Lemma before_total {A} (a b : A) (l : list A) :
  In a l -> In b l -> a <> b -> before a b l \/ before b a l.
Proof.
  induction l as [| c l IH]; simpl; [contradiction |].
  intros [-> | Ha] [-> | Hb] Hne.
  - congruence.
  - left. apply before_cons. auto.
  - right. apply before_cons. auto.
  - destruct (IH Ha Hb Hne); [left | right]; apply before_cons; auto.
Qed.

Lemma before_In {A} (a b : A) (l : list A) :
  before a b l -> In a l /\ In b l.
Proof.
  intros (l1 & l2 & l3 & ->). split.
  - apply in_or_app. right. now left.
  - apply in_or_app. right. right. apply in_or_app. right. now left.
Qed.

(** ** Issue types of the five checks *)

Lemma textTruncation_type nd i :
  In i (textTruncation nd) -> issueType i = text_truncated.
Proof.
  unfold textTruncation.
  repeat match goal with
         | |- context [if ?c then _ else _] => destruct c
         end; simpl; intros H; try contradiction.
  all: destruct H as [<- | []]; reflexivity.
Qed.

Lemma overlapPair_type a b i :
  In i (overlapPair a b) -> issueType i = overlap.
Proof.
  unfold overlapPair.
  repeat match goal with
         | |- context [if ?c then _ else _] => destruct c
         end; simpl; intros H; try contradiction.
  all: destruct H as [<- | []]; reflexivity.
Qed.

Lemma overlapIssues_In boxes i :
  In i (overlapIssues boxes) <->
  exists a b, before a b boxes /\ In i (overlapPair a b).
Proof.
  induction boxes as [| c rest IH]; simpl.
  - split; [contradiction |].
    intros (a & b & (l1 & l2 & l3 & E) & _). now destruct l1.
  - rewrite in_app_iff, in_flat_map, IH. split.
    + intros [(b & Hb & Hi) | (a & b & Hab & Hi)].
      * exists c, b. split; [apply before_cons |]; auto.
      * exists a, b. split; [apply before_cons |]; auto.
    + intros (a & b & Hab & Hi). apply before_cons in Hab.
      destruct Hab as [[-> Hb] | Hab]; [left | right]; eauto.
Qed.

Lemma overlapIssues_type boxes i :
  In i (overlapIssues boxes) -> issueType i = overlap.
Proof.
  rewrite overlapIssues_In. intros (a & b & _ & H).
  eapply overlapPair_type; eauto.
Qed.

Lemma tightConnector_type sc cn i :
  In i (tightConnector sc cn) -> issueType i = tight_connector.
Proof.
  unfold tightConnector. destruct (endpoints sc cn) as [[s e] |];
    [| contradiction].
  repeat match goal with
         | |- context [if ?c then _ else _] => destruct c
         end; simpl; intros H; try contradiction.
  destruct H as [<- | []]; reflexivity.
Qed.

Lemma throughBox_type cn s e bx i :
  In i (throughBox cn s e bx) -> issueType i = connector_through_shape.
Proof.
  unfold throughBox.
  repeat match goal with
         | |- context [if ?c then _ else _] => destruct c
         end; simpl; intros H; try contradiction.
  destruct H as [<- | []]; reflexivity.
Qed.

Lemma throughIssues_type sc boxes i :
  In i (throughIssues sc boxes) -> issueType i = connector_through_shape.
Proof.
  unfold throughIssues, throughShape. rewrite in_flat_map.
  intros (cn & _ & H). destruct (endpoints sc cn) as [[s e] |];
    [| contradiction].
  apply in_flat_map in H as (bx & _ & H). eapply throughBox_type; eauto.
Qed.

Lemma bleedChild_type sec c i :
  In i (bleedChild sec c) -> issueType i = section_bleed.
Proof.
  unfold bleedChild. destruct (NodeType_eqb _ _); [contradiction |].
  destruct (bleedsOf sec c); [contradiction |].
  intros [<- | []]; reflexivity.
Qed.

Lemma bleedVisual_type sec c i :
  In i (bleedVisual sec c) -> issueType i = section_bleed.
Proof.
  unfold bleedVisual.
  repeat match goal with
         | |- context [if ?c then _ else _] => destruct c
         end; simpl; try contradiction.
  all: destruct (vBleedsOf sec c); [contradiction |].
  all: intros [<- | []]; reflexivity.
Qed.

Lemma bleedIssues_type sc boxes i :
  In i (bleedIssues sc boxes) -> issueType i = section_bleed.
Proof.
  unfold bleedIssues. rewrite in_flat_map.
  intros ([s sec] & _ & H). unfold bleedSection in H.
  destruct (NodeType_eqb _ _); [| contradiction].
  apply in_app_iff in H as [H | H]; apply in_flat_map in H as (c & _ & H).
  - eapply bleedChild_type; eauto.
  - eapply bleedVisual_type; eauto.
Qed.

Lemma truncationIssues_type sc i :
  In i (truncationIssues sc) -> issueType i = text_truncated.
Proof.
  unfold truncationIssues. rewrite in_flat_map.
  intros (nd & _ & H). eapply textTruncation_type; eauto.
Qed.

(** Each check contributes the issues of its own type, and only those. *)
Lemma validate_In sc i :
  In i (handleValidateLayout sc) <->
  match issueType i with
  | text_truncated => In i (truncationIssues sc)
  | overlap => In i (overlapIssues (collectBoxes sc))
  | tight_connector => In i (tightIssues sc)
  | connector_through_shape => In i (throughIssues sc (collectBoxes sc))
  | section_bleed => In i (bleedIssues sc (collectBoxes sc))
  end.
Proof.
  unfold handleValidateLayout. rewrite !in_app_iff.
  pose proof (truncationIssues_type sc i) as H1.
  pose proof (overlapIssues_type (collectBoxes sc) i) as H2.
  assert (H3 : In i (tightIssues sc) -> issueType i = tight_connector).
  { unfold tightIssues. rewrite in_flat_map.
    intros (cn & _ & H). eapply tightConnector_type; eauto. }
  pose proof (throughIssues_type sc (collectBoxes sc) i) as H4.
  pose proof (bleedIssues_type sc (collectBoxes sc) i) as H5.
  destruct (issueType i); split; intros H; auto;
    repeat match goal with
           | H : _ \/ _ |- _ => destruct H as [H | H]
           end; auto;
    try (apply H1 in H; discriminate);
    try (apply H2 in H; discriminate);
    try (apply H3 in H; discriminate);
    try (apply H4 in H; discriminate);
    try (apply H5 in H; discriminate).
Qed.

Lemma NodeType_eqb_eq s t : NodeType_eqb s t = true <-> s = t.
Proof. destruct s, t; simpl; split; intros H; congruence. Qed.

Lemma NodeType_eqb_neq s t : NodeType_eqb s t = false <-> s <> t.
Proof. destruct s, t; simpl; split; intros H; congruence. Qed.

(** ** Children of the page and of a section *)

Lemma combine_seq_In {A} (l : list A) : forall k a (n : A),
  In (a, n) (combine (seq k (List.length l)) l) <->
  (k <= a)%nat /\ nth_error l (a - k) = Some n.
Proof.
  induction l as [| m l IH]; intros k a n; simpl.
  - split; [contradiction |]. intros [_ H]. now destruct (a - k)%nat.
  - rewrite IH. split.
    + intros [E | [Hk H]].
      * injection E as <- <-. split; [lia |]. now rewrite Nat.sub_diag.
      * split; [lia |]. replace (a - k)%nat with (S (a - S k)) by lia.
        exact H.
    + intros [Hk H]. destruct (Nat.eq_dec a k) as [-> | Hne].
      * left. rewrite Nat.sub_diag in H. simpl in H. congruence.
      * right. split; [lia |].
        replace (a - k)%nat with (S (a - S k)) in H by lia. exact H.
Qed.

Lemma indexed_In sc a n : In (a, n) (indexed sc) <-> node sc a = Some n.
Proof.
  unfold indexed, node. rewrite combine_seq_In, Nat.sub_0_r.
  split; [tauto | split; [lia | assumption]].
Qed.

Lemma parent_eqb_eq p q : parent_eqb p q = true <-> p = q.
Proof.
  destruct p as [a |], q as [b |]; simpl; split; intros H;
    try congruence.
  - apply Nat.eqb_eq in H. congruence.
  - injection H as ->. apply Nat.eqb_refl.
Qed.

Lemma children_In sc p a n :
  In (a, n) (children sc p) <-> node sc a = Some n /\ parent n = p.
Proof.
  unfold children. rewrite filter_In, indexed_In. simpl.
  now rewrite parent_eqb_eq.
Qed.

Lemma node_In sc a n : node sc a = Some n -> In n sc.
Proof. apply nth_error_In. Qed.

Lemma children_nodes_In sc p n :
  In n (map snd (children sc p)) <-> In n sc /\ parent n = p.
Proof.
  rewrite in_map_iff. split.
  - intros ([a m] & E & H). simpl in E. subst m.
    apply children_In in H as [H1 H2]. split; [| exact H2].
    eapply node_In; eauto.
  - intros [H1 H2]. apply In_nth_error in H1 as [a H1].
    exists (a, n). split; [reflexivity |]. now apply children_In.
Qed.

Lemma collectBoxes_In sc bx :
  In bx (collectBoxes sc) <->
  exists nd, In nd sc /\ parent nd = None /\ type nd <> CONNECTOR
             /\ bx = Box.mk (id nd) (name nd) (x nd) (y nd) (width nd)
                       (height nd) (type nd).
Proof.
  unfold collectBoxes. rewrite in_flat_map. split.
  - intros (nd & Hnd & H). apply children_nodes_In in Hnd as [H1 H2].
    unfold boxOf in H.
    destruct (NodeType_eqb (type nd) CONNECTOR) eqn:E; [contradiction |].
    apply NodeType_eqb_neq in E. destruct H as [<- | []].
    now exists nd.
  - intros (nd & H1 & H2 & H3 & ->). exists nd.
    split; [now apply children_nodes_In |].
    unfold boxOf. apply NodeType_eqb_neq in H3. rewrite H3. now left.
Qed.

Lemma collectBoxes_NoDup sc :
  NoDup (map id sc) -> NoDup (map Box.id (collectBoxes sc)).
Proof.
  unfold collectBoxes, children, indexed. generalize 0%nat.
  induction sc as [| n sc IH]; intros k Hnd; simpl; [constructor |].
  inversion Hnd as [| ? ? Hnotin Hnd']; subst.
  assert (Hsub : forall i,
            In i (map Box.id
                    (flat_map boxOf
                       (map snd
                          (filter (fun an => parent_eqb (parent (snd an)) None)
                             (combine (seq (S k) (List.length sc)) sc)))))
            -> In i (map id sc)).
  { intros i Hi. apply in_map_iff in Hi as (bx & <- & Hbx).
    apply in_flat_map in Hbx as (m & Hm & Hbx).
    apply in_map_iff in Hm as ([a m'] & E & Hm). simpl in E. subst m'.
    apply filter_In in Hm as [Hm _]. apply in_combine_r in Hm.
    unfold boxOf in Hbx. destruct (NodeType_eqb _ _); [contradiction |].
    destruct Hbx as [<- | []]. simpl. now apply in_map. }
  destruct (parent_eqb (parent n) None); simpl; [| now apply IH].
  unfold boxOf at 1. destruct (NodeType_eqb (type n) CONNECTOR); simpl;
    [now apply IH |].
  constructor; [| now apply IH]. intros Hin. apply Hnotin. now apply Hsub.
Qed.

(** ** Overlap detector *)

Lemma overlapPair_In a b i :
  In i (overlapPair a b) <->
  overlapCond a b /\
  i = mkIssue overlap (Box.id a) (Box.name a ++ arrow ++ Box.name b)
        (OverlapsBy (Box.name a) (Box.name b)
           (Math_round
              ((Math_min (Box.x a + Box.w a) (Box.x b + Box.w b)
                - Math_max (Box.x a) (Box.x b))
               * (Math_min (Box.y a + Box.h a) (Box.y b + Box.h b)
                  - Math_max (Box.y a) (Box.y b)))))
        (MoveToAvoidOverlap (Box.id b)).
Proof.
  unfold overlapPair, overlapCond, smallerArea.
  destruct (NodeType_eqb (Box.nodeType a) SECTION) eqn:Ea;
    [apply NodeType_eqb_eq in Ea | apply NodeType_eqb_neq in Ea];
  (destruct (NodeType_eqb (Box.nodeType b) SECTION) eqn:Eb;
    [apply NodeType_eqb_eq in Eb | apply NodeType_eqb_neq in Eb]);
  simpl orb; cbv iota.
  1-3: split; [contradiction | intros [H _]; tauto].
  repeat match goal with
         | |- context [if ?c then _ else _] =>
             lazymatch c with
             | Qlt_le_dec _ _ => destruct c
             end
         end; simpl.
  all: split;
    [ intros H; try contradiction; destruct H as [<- | []]; tauto
    | intros [(_ & _ & H1 & H2 & H3 & H4 & H5) H];
      try (left; now symmetry); exfalso; lra ].
Qed.

Lemma Math_max_cases a b :
  (a < b /\ Math_max a b = b) \/ (b <= a /\ Math_max a b = a).
Proof. unfold Math_max. destruct (Qlt_le_dec a b); auto. Qed.

Lemma Math_min_cases a b :
  (b < a /\ Math_min a b = b) \/ (a <= b /\ Math_min a b = a).
Proof. unfold Math_min. destruct (Qlt_le_dec b a); auto. Qed.

Lemma smallerArea_nonneg a b :
  0 <= Box.w a -> 0 <= Box.h a -> 0 <= Box.w b -> 0 <= Box.h b ->
  0 <= smallerArea a b.
Proof.
  intros. unfold smallerArea.
  destruct (Math_min_cases (Box.w a * Box.h a) (Box.w b * Box.h b))
    as [[_ ->] | [_ ->]]; now apply Qmult_le_0_compat.
Qed.

(** For boxes of non-negative size the loop body reports a pair exactly
    when the area of the intersection exceeds a tenth of the smaller
    area. *)
Lemma overlapCond_area a b :
  Box.nodeType a <> SECTION -> Box.nodeType b <> SECTION ->
  0 <= Box.w a -> 0 <= Box.h a -> 0 <= Box.w b -> 0 <= Box.h b ->
  (overlapCond a b <-> smallerArea a b * (1#10) < intersectionArea a b).
Proof.
  intros Ha Hb Hwa Hha Hwb Hhb.
  pose proof (smallerArea_nonneg a b Hwa Hha Hwb Hhb) as Hs.
  unfold overlapCond, intersectionArea.
  set (dx := Math_min (Box.x a + Box.w a) (Box.x b + Box.w b)
             - Math_max (Box.x a) (Box.x b)).
  set (dy := Math_min (Box.y a + Box.h a) (Box.y b + Box.h b)
             - Math_max (Box.y a) (Box.y b)).
  assert (Hdx : (Box.x a < Box.x b + Box.w b /\ Box.x b < Box.x a + Box.w a
                 -> 0 <= dx) /\
                (0 < dx ->
                 Box.x a < Box.x b + Box.w b /\ Box.x b < Box.x a + Box.w a)).
  { subst dx.
    destruct (Math_min_cases (Box.x a + Box.w a) (Box.x b + Box.w b))
      as [[? ->] | [? ->]];
    destruct (Math_max_cases (Box.x a) (Box.x b)) as [[? ->] | [? ->]];
    split; intros; try split; lra. }
  assert (Hdy : (Box.y a < Box.y b + Box.h b /\ Box.y b < Box.y a + Box.h a
                 -> 0 <= dy) /\
                (0 < dy ->
                 Box.y a < Box.y b + Box.h b /\ Box.y b < Box.y a + Box.h a)).
  { subst dy.
    destruct (Math_min_cases (Box.y a + Box.h a) (Box.y b + Box.h b))
      as [[? ->] | [? ->]];
    destruct (Math_max_cases (Box.y a) (Box.y b)) as [[? ->] | [? ->]];
    split; intros; try split; lra. }
  clearbody dx dy. destruct Hdx as [Hx1 Hx2], Hdy as [Hy1 Hy2].
  destruct (Math_max_cases 0 dx) as [[Px ->] | [Px ->]];
    destruct (Math_max_cases 0 dy) as [[Py ->] | [Py ->]].
  - specialize (Hx2 Px). specialize (Hy2 Py). tauto.
  - split.
    + intros (_ & _ & H1 & H2 & H3 & H4 & H5).
      assert (dy == 0) as E by (specialize (Hy1 (conj H3 H4)); lra).
      rewrite E in H5. lra.
    + intros H. exfalso. lra.
  - split.
    + intros (_ & _ & H1 & H2 & H3 & H4 & H5).
      assert (dx == 0) as E by (specialize (Hx1 (conj H1 H2)); lra).
      rewrite E in H5. lra.
    + intros H. exfalso. lra.
  - split.
    + intros (_ & _ & H1 & H2 & H3 & H4 & H5).
      assert (dx == 0) as E by (specialize (Hx1 (conj H1 H2)); lra).
      rewrite E in H5. lra.
    + intros H. exfalso. lra.
Qed.

Lemma intersectionArea_sym a b : intersectionArea a b == intersectionArea b a.
Proof.
  unfold intersectionArea.
  assert (Hmax : forall u v, Math_max u v == Math_max v u).
  { intros u v. destruct (Math_max_cases u v) as [[? ->] | [? ->]];
      destruct (Math_max_cases v u) as [[? ->] | [? ->]]; lra. }
  assert (Hmin : forall u v, Math_min u v == Math_min v u).
  { intros u v. destruct (Math_min_cases u v) as [[? ->] | [? ->]];
      destruct (Math_min_cases v u) as [[? ->] | [? ->]]; lra. }
  assert (Hcongr : forall u u' v v', u == u' -> v == v' ->
                     Math_max 0 (u - v) == Math_max 0 (u' - v')).
  { intros u u' v v' Hu Hv.
    destruct (Math_max_cases 0 (u - v)) as [[? ->] | [? ->]];
      destruct (Math_max_cases 0 (u' - v')) as [[? ->] | [? ->]]; lra. }
  rewrite (Hcongr _ _ _ _ (Hmin (Box.x a + Box.w a) (Box.x b + Box.w b))
             (Hmax (Box.x a) (Box.x b))).
  rewrite (Hcongr _ _ _ _ (Hmin (Box.y a + Box.h a) (Box.y b + Box.h b))
             (Hmax (Box.y a) (Box.y b))).
  reflexivity.
Qed.

Lemma smallerArea_sym a b : smallerArea a b == smallerArea b a.
Proof.
  unfold smallerArea.
  destruct (Math_min_cases (Box.w a * Box.h a) (Box.w b * Box.h b))
    as [[? ->] | [? ->]];
    destruct (Math_min_cases (Box.w b * Box.h b) (Box.w a * Box.h a))
      as [[? ->] | [? ->]]; lra.
Qed.

Lemma overlapReported_iff boxes a b :
  NoDup (map Box.id boxes) -> In a boxes -> In b boxes ->
  Box.id a <> Box.id b ->
  Box.nodeType a <> SECTION -> Box.nodeType b <> SECTION ->
  0 <= Box.w a -> 0 <= Box.h a -> 0 <= Box.w b -> 0 <= Box.h b ->
  (overlapReported (overlapIssues boxes) a b <->
   smallerArea a b * (1#10) < intersectionArea a b).
Proof.
  intros Hnd Ha Hb Hne Hta Htb Hwa Hha Hwb Hhb.
  assert (Hab : a <> b) by congruence.
  split.
  - intros (i & Hi & _ & Hids).
    apply overlapIssues_In in Hi as (a' & b' & Hbef & Hi).
    apply before_In in Hbef as [Ha' Hb'].
    apply overlapPair_In in Hi as [Hc ->]. simpl in Hids.
    destruct Hids as [[Ea Eb] | [Ea Eb]]; injection Eb as Eb.
    + apply (NoDup_map_inj _ _ _ _ Hnd Ha' Ha) in Ea.
      apply (NoDup_map_inj _ _ _ _ Hnd Hb' Hb) in Eb. subst.
      now apply overlapCond_area.
    + apply (NoDup_map_inj _ _ _ _ Hnd Ha' Hb) in Ea.
      apply (NoDup_map_inj _ _ _ _ Hnd Hb' Ha) in Eb. subst.
      rewrite smallerArea_sym, intersectionArea_sym.
      now apply overlapCond_area.
  - intros H.
    destruct (before_total a b boxes Ha Hb Hab) as [Hbef | Hbef].
    + eexists. split; [| split].
      * apply overlapIssues_In. exists a, b. split; [exact Hbef |].
        apply overlapPair_In. split; [| reflexivity].
        now apply overlapCond_area.
      * reflexivity.
      * left. split; reflexivity.
    + eexists. split; [| split].
      * apply overlapIssues_In. exists b, a. split; [exact Hbef |].
        apply overlapPair_In. split; [| reflexivity].
        apply overlapCond_area; auto.
        now rewrite smallerArea_sym, intersectionArea_sym.
      * reflexivity.
      * right. split; reflexivity.
Qed.

Lemma overlapReported_validate sc a b :
  overlapReported (handleValidateLayout sc) a b <->
  overlapReported (overlapIssues (collectBoxes sc)) a b.
Proof.
  unfold overlapReported. split; intros (i & Hi & Ht & H); exists i;
    (split; [| split]); auto.
  - apply validate_In in Hi. now rewrite Ht in Hi.
  - apply validate_In. now rewrite Ht.
Qed.



(** ** Connector gap analyzer *)

Lemma tightConnector_In sc cn s e i :
  endpoints sc cn = Some (s, e) ->
  (In i (tightConnector sc cn) <->
   0 <= effectiveGap (gapH s e) (gapV s e)
   /\ effectiveGap (gapH s e) (gapV s e) < MIN_CONNECTOR_GAP
   /\ i = mkIssue tight_connector (id cn) ("Connector: " ++ connLabel cn)
            (OnlyGap (Math_round (effectiveGap (gapH s e) (gapV s e)))
               (moveDir (gapH s e) (gapV s e)) (name s) (name e))
            (MoveAtLeast (id e)
               (Math_round
                  (MIN_CONNECTOR_GAP - effectiveGap (gapH s e) (gapV s e)))
               (moveDir (gapH s e) (gapV s e)) MIN_CONNECTOR_GAP)).
Proof.
  intros E. unfold tightConnector. rewrite E.
  destruct (Qle_lt_dec 0 _) as [H0 | H0];
    [destruct (Qlt_le_dec _ MIN_CONNECTOR_GAP) as [H1 | H1] |]; simpl.
  - split; [intros [<- | []]; auto | intros (_ & _ & ->); auto].
  - split; [contradiction | intros (_ & H & _); lra].
  - split; [contradiction | intros (H & _); lra].
Qed.






Lemma tightIssues_In sc i :
  In i (tightIssues sc) <-> exists cn, In cn sc /\ In i (tightConnector sc cn).
Proof. unfold tightIssues, findAll. apply in_flat_map. Qed.

Lemma tightConnector_id sc cn i :
  In i (tightConnector sc cn) -> elementId i = id cn.
Proof.
  unfold tightConnector. destruct (endpoints sc cn) as [[s e] |];
    [| contradiction].
  repeat match goal with
         | |- context [if ?c then _ else _] => destruct c
         end; simpl; intros H; try contradiction.
  destruct H as [<- | []]; reflexivity.
Qed.




(** ** Connector path intersector *)





Lemma throughBox_In cn s e bx i :
  In i (throughBox cn s e bx) <->
  Box.nodeType bx <> SECTION /\ Box.nodeType bx <> TEXT
  /\ Box.id bx <> id s /\ Box.id bx <> id e
  /\ segmentHitsBox (centerX s) (centerY s) (centerX e) (centerY e) bx = true
  /\ i = mkIssue connector_through_shape (id cn)
           ("Connector: " ++ connLabel cn)
           (PassesThrough (name s) (name e) (Box.name bx))
           (MoveOutOfPath (Box.name bx) (Box.id bx) (name s) (name e)).
Proof.
  unfold throughBox. fold (centerX s) (centerY s) (centerX e) (centerY e).
  destruct (NodeType_eqb (Box.nodeType bx) SECTION) eqn:E1;
    [apply NodeType_eqb_eq in E1 | apply NodeType_eqb_neq in E1];
    simpl orb; cbv iota; [split; [contradiction | tauto] |].
  destruct (NodeType_eqb (Box.nodeType bx) TEXT) eqn:E2;
    [apply NodeType_eqb_eq in E2 | apply NodeType_eqb_neq in E2];
    cbv iota; [split; [contradiction | tauto] |].
  destruct (String.eqb_spec (Box.id bx) (id s)) as [E3 | E3];
    simpl orb; cbv iota; [split; [contradiction | tauto] |].
  destruct (String.eqb_spec (Box.id bx) (id e)) as [E4 | E4];
    cbv iota; [split; [contradiction | tauto] |].
  destruct (segmentHitsBox _ _ _ _ bx); simpl.
  - split; [intros [<- | []]; tauto | intros (_ & _ & _ & _ & _ & ->); auto].
  - split; [contradiction | intros (_ & _ & _ & _ & H & _); discriminate].
Qed.

Lemma throughIssues_In sc boxes i :
  In i (throughIssues sc boxes) <->
  exists cn s e bx, In cn sc /\ endpoints sc cn = Some (s, e)
                    /\ In bx boxes /\ In i (throughBox cn s e bx).
Proof.
  unfold throughIssues, findAll, throughShape. rewrite in_flat_map. split.
  - intros (cn & Hcn & H). destruct (endpoints sc cn) as [[s e] |] eqn:E;
      [| contradiction].
    apply in_flat_map in H as (bx & Hbx & H). now exists cn, s, e, bx.
  - intros (cn & s & e & bx & Hcn & E & Hbx & H). exists cn.
    split; [exact Hcn |]. rewrite E. apply in_flat_map. now exists bx.
Qed.



(** ** Text truncation estimator *)

Lemma Qdiv_le_pos a b c : 0 < c -> a <= b -> a / c <= b / c.
Proof.
  intros Hc Hab. unfold Qdiv. apply Qmult_le_compat_r; [exact Hab |].
  apply Qinv_le_0_compat. lra.
Qed.

Lemma Qinv_neg c : c < 0 -> / c < 0.
Proof.
  intros Hc. assert (E : c * / c == 1) by (apply Qmult_inv_r; lra).
  destruct (Qlt_le_dec (/ c) 0); [assumption | nra].
Qed.

Lemma Qdiv_le_neg a b c : c < 0 -> a <= b -> b / c <= a / c.
Proof.
  intros Hc Hab. pose proof (Qinv_neg c Hc). unfold Qdiv. nra.
Qed.

Lemma Qdiv_le_denominator l c c' :
  0 <= l -> 0 < c -> c <= c' -> l / c' <= l / c.
Proof.
  intros Hl Hc Hcc'.
  assert (E : c * (l / c) == l) by (apply Qmult_div_r; lra).
  assert (H0 : 0 <= l / c).
  { unfold Qdiv. apply Qmult_le_0_compat; [exact Hl |].
    apply Qinv_le_0_compat. lra. }
  apply Qle_shift_div_r; [lra |].
  set (t := l / c) in *. clearbody t. nra.
Qed.

Lemma Math_floor_le a b : a <= b -> Math_floor a <= Math_floor b.
Proof.
  intros H. unfold Math_floor. rewrite <- Zle_Qle. now apply Qfloor_resp_le.
Qed.

Lemma Math_ceil_le a b : a <= b -> Math_ceil a <= Math_ceil b.
Proof.
  intros H. unfold Math_ceil. rewrite <- Zle_Qle. now apply Qceiling_resp_le.
Qed.

Lemma Math_ceil_ge a : a <= Math_ceil a.
Proof. apply Qle_ceiling. Qed.

Lemma Math_max_le a b a' b' :
  a <= a' -> b <= b' -> Math_max a b <= Math_max a' b'.
Proof.
  intros. destruct (Math_max_cases a b) as [[? ->] | [? ->]];
    destruct (Math_max_cases a' b') as [[? ->] | [? ->]]; lra.
Qed.

Lemma Math_max_ge_l a b : a <= Math_max a b.
Proof. destruct (Math_max_cases a b) as [[? ->] | [? ->]]; lra. Qed.

Lemma Math_max_ge_r a b : b <= Math_max a b.
Proof. destruct (Math_max_cases a b) as [[? ->] | [? ->]]; lra. Qed.

Lemma len_nonneg s : 0 <= len s.
Proof.
  unfold len. change 0 with (inject_Z 0). rewrite <- Zle_Qle. lia.
Qed.

Lemma fontSizeOf_nonzero nd : ~ fontSizeOf nd == 0.
Proof.
  unfold fontSizeOf. destruct (Qeq_dec (fontSize nd) 0); [| assumption].
  intros H. discriminate.
Qed.

Lemma charsPerLine_pos nd : 1 <= charsPerLine nd.
Proof. apply Math_max_ge_l. Qed.

(** Widening a shape never increases the estimated text height. *)
Lemma textHeight_widen nd w h :
  width nd <= w -> textHeight (resize w h nd) <= textHeight nd.
Proof.
  intros Hw. unfold textHeight, linesNeeded, lineHeight.
  pose proof (charsPerLine_pos nd) as Hc.
  pose proof (charsPerLine_pos (resize w h nd)) as Hc'.
  pose proof (len_nonneg (characters nd)) as Hl.
  pose proof (fontSizeOf_nonzero nd) as Hf.
  change (characters (resize w h nd)) with (characters nd).
  change (fontSizeOf (resize w h nd)) with (fontSizeOf nd).
  unfold charsPerLine, availableWidth, charWidth in *.
  change (fontSizeOf (resize w h nd)) with (fontSizeOf nd) in *.
  change (width (resize w h nd)) with w in *.
  set (f := fontSizeOf nd) in *. clearbody f.
  set (L := len (characters nd)) in *. clearbody L.
  set (c := Math_max 1 (Math_floor ((width nd - padding) / (f * (55#100)))))
    in *.
  set (c' := Math_max 1 (Math_floor ((w - padding) / (f * (55#100))))) in *.
  destruct (Qlt_le_dec 0 f) as [Hpos | Hneg].
  - assert (Hcc : c <= c').
    { apply Math_max_le; [lra |]. apply Math_floor_le.
      apply Qdiv_le_pos; lra. }
    assert (Hlines : Math_ceil (L / c') <= Math_ceil (L / c)).
    { apply Math_ceil_le. apply Qdiv_le_denominator; lra. }
    clearbody c c'. nra.
  - assert (Hcc : c' <= c).
    { apply Math_max_le; [lra |]. apply Math_floor_le.
      apply Qdiv_le_neg; lra. }
    assert (Hlines : Math_ceil (L / c) <= Math_ceil (L / c')).
    { apply Math_ceil_le. apply Qdiv_le_denominator; lra. }
    clearbody c c'. nra.
Qed.

Lemma textTruncation_In nd i :
  In i (textTruncation nd) <->
  type nd = SHAPE_WITH_TEXT /\ (0 < String.length (characters nd))%nat
  /\ availableHeight nd < textHeight nd
  /\ i = mkIssue text_truncated (id nd) (name nd)
           (TruncatedIn (substring 0 40 (characters nd))
              (40 <? String.length (characters nd))%nat
              (Math_round (width nd)) (Math_round (height nd)))
           (ResizeToAtLeast (suggestedWidth nd) (suggestedHeight nd)).
Proof.
  unfold textTruncation.
  destruct (NodeType_eqb (type nd) SHAPE_WITH_TEXT) eqn:Et;
    [apply NodeType_eqb_eq in Et | apply NodeType_eqb_neq in Et];
    [| split; [contradiction | tauto]].
  destruct (Nat.ltb_spec 0 (String.length (characters nd)));
    [| split; [contradiction | intros (_ & H' & _); lia]].
  destruct (Qlt_le_dec (availableHeight nd) (textHeight nd)); simpl.
  - split; [intros [<- | []]; auto | intros (_ & _ & _ & ->); auto].
  - split; [contradiction | intros (_ & _ & H' & _); lra].
Qed.

Lemma suggestedWidth_ge nd : width nd <= suggestedWidth nd.
Proof.
  unfold suggestedWidth. destruct (Qlt_le_dec _ _); [| lra].
  apply Math_max_ge_l.
Qed.

(** C8. Every text_truncated issue of the validator comes from a shape that
    is a child of the page; its suggested width is at least the width of
    the shape, its suggested height is strictly greater than the height, and
    the check on the same shape resized to the suggested size reports
    nothing. *)
Theorem truncation_suggestion_stable (sc : Scene) (i : Issue) :
  In i (handleValidateLayout sc) -> issueType i = text_truncated ->
  exists nd sw sh,
    In nd (map snd (children sc None)) /\ type nd = SHAPE_WITH_TEXT
    /\ elementId i = id nd
    /\ suggestion i = ResizeToAtLeast sw sh
    /\ width nd <= sw /\ height nd < sh
    /\ textTruncation (resize sw sh nd) = [].
Proof.
  intros Hi Ht. apply validate_In in Hi. rewrite Ht in Hi.
  unfold truncationIssues in Hi. apply in_flat_map in Hi as (nd & Hnd & Hi).
  apply textTruncation_In in Hi as (Hty & Hlen & Htr & ->).
  exists nd, (suggestedWidth nd), (suggestedHeight nd).
  pose proof (suggestedWidth_ge nd) as Hw.
  assert (Hh : textHeight nd + 60 <= suggestedHeight nd).
  { unfold suggestedHeight, padding.
    eapply Qle_trans; [| apply Math_ceil_ge]. lra. }
  unfold availableHeight, padding in Htr.
  repeat split; auto; [lra |].
  destruct (textTruncation _) as [| j l] eqn:E; [reflexivity |].
  exfalso.
  assert (Hj : In j (textTruncation
                       (resize (suggestedWidth nd) (suggestedHeight nd) nd)))
    by (rewrite E; now left).
  apply textTruncation_In in Hj as (_ & _ & Hj & _).
  pose proof (textHeight_widen nd _ (suggestedHeight nd) Hw) as Hmono.
  unfold availableHeight, padding in Hj. simpl height in Hj. lra.
Qed.

Lemma truncation_suggestion_stable_witness :
  exists nd sw sh,
    In nd (map snd (children [crowdedShape] None))
    /\ type nd = SHAPE_WITH_TEXT
    /\ elementId
         (mkIssue text_truncated "S" "S"
            (TruncatedIn "The quick brown fox jumps over the lazy " true
               100 50)
            (ResizeToAtLeast 210 198)) = id nd
    /\ ResizeToAtLeast 210 198 = ResizeToAtLeast sw sh
    /\ width nd <= sw /\ height nd < sh
    /\ textTruncation (resize sw sh nd) = [].
Proof.
  apply (truncation_suggestion_stable [crowdedShape]
           (mkIssue text_truncated "S" "S"
              (TruncatedIn "The quick brown fox jumps over the lazy " true
                 100 50)
              (ResizeToAtLeast 210 198))).
  - vm_compute. left. reflexivity.
  - reflexivity.
Defined.

(** ** Scope of the examined elements *)

(** C5 (amended). The boxes examined by the overlap test and offered as
    obstacles to the path check are exactly the non-Connector children of
    the page, with their own bounds; every overlap issue names two of them,
    every pair of them that is not excluded as a Section is tested, and
    every obstacle is one of them.  Connectors are taken from all nodes of
    the page, whatever their parent. *)
Theorem examined_boxes_are_page_children (sc : Scene) :
  (forall bx, In bx (collectBoxes sc) <->
     exists nd, In nd sc /\ parent nd = None /\ type nd <> CONNECTOR
                /\ bx = Box.mk (id nd) (name nd) (x nd) (y nd) (width nd)
                          (height nd) (type nd))
  /\ (forall i, In i (handleValidateLayout sc) -> issueType i = overlap ->
        exists a b, before a b (collectBoxes sc)
                    /\ elementId i = Box.id a
                    /\ suggestion i = MoveToAvoidOverlap (Box.id b))
  /\ (forall a b, before a b (collectBoxes sc) -> overlapCond a b ->
        overlapReported (handleValidateLayout sc) a b)
  /\ (forall i, In i (handleValidateLayout sc) ->
        issueType i = connector_through_shape ->
        exists bx, In bx (collectBoxes sc)
                   /\ obstacleId i = Some (Box.id bx))
  /\ (forall cn i, In cn sc -> In i (tightConnector sc cn) ->
        In i (handleValidateLayout sc))
  /\ (forall cn i, In cn sc -> In i (throughShape sc (collectBoxes sc) cn) ->
        In i (handleValidateLayout sc)).
Proof.
  split; [intros bx; apply collectBoxes_In |].
  split; [| split; [| split; [| split]]].
  - intros i Hi Ht. apply validate_In in Hi. rewrite Ht in Hi.
    apply overlapIssues_In in Hi as (a & b & Hab & Hi).
    apply overlapPair_In in Hi as [_ ->]. now exists a, b.
  - intros a b Hab Hc.
    pose proof (proj2 (overlapPair_In a b _) (conj Hc eq_refl)) as Hin.
    match type of Hin with In ?i _ => exists i end.
    split; [| split; [reflexivity | left; split; reflexivity]].
    apply validate_In. simpl. apply overlapIssues_In. now exists a, b.
  - intros i Hi Ht. apply validate_In in Hi. rewrite Ht in Hi.
    apply throughIssues_In in Hi as (cn & s & e & bx & _ & _ & Hbx & Hi).
    apply throughBox_In in Hi as (_ & _ & _ & _ & _ & ->). now exists bx.
  - intros cn i Hcn Hi. apply validate_In.
    rewrite (tightConnector_type _ _ _ Hi). apply tightIssues_In.
    now exists cn.
  - intros cn i Hcn Hi. apply validate_In.
    assert (Ht : issueType i = connector_through_shape).
    { apply (throughIssues_type sc (collectBoxes sc)).
      unfold throughIssues, findAll. apply in_flat_map. now exists cn. }
    rewrite Ht. unfold throughIssues, findAll. apply in_flat_map.
    now exists cn.
Qed.

(** C5, counterexample: two shapes inside a section coincide, and a shape
    inside another section lies across the path of a connector, yet the
    validator reports nothing. *)
Lemma section_children_not_examined :
  handleValidateLayout nestedScene = []
  /\ overlapCond
       (absoluteBox (sectionAt "S" 0 0 600 400 None)
          (shapeAt "P" 100 100 100 100 (Some 0%nat)))
       (absoluteBox (sectionAt "S" 0 0 600 400 None)
          (shapeAt "Q" 100 100 100 100 (Some 0%nat)))
  /\ segmentHitsBox
       (centerX (shapeAt "A" 20 500 100 100 None))
       (centerY (shapeAt "A" 20 500 100 100 None))
       (centerX (shapeAt "B" 300 500 100 100 None))
       (centerY (shapeAt "B" 300 500 100 100 None))
       (absoluteBox (sectionAt "T" 0 400 600 400 None)
          (shapeAt "O" 150 100 100 100 (Some 5%nat))) = true.
Proof.
  split; [vm_compute; reflexivity |]. split; [| vm_compute; reflexivity].
  unfold overlapCond. simpl. repeat split; try discriminate.
Qed.

(** ** Section bleed detector, structural pass *)



Lemma bleedChild_In sec c i :
  In i (bleedChild sec c) <->
  type c <> CONNECTOR /\ bleedsOf sec c <> []
  /\ i = mkIssue section_bleed (id c) (name c)
           (BleedsOutside (name c) (name sec) (bleedsOf sec c))
           (ResizeSectionToAtLeast (id sec)
              (Math_ceil (Math_max (x c + width c + 30) (width sec)))
              (Math_ceil (Math_max (y c + height c + 30) (height sec)))
              (id c)).
Proof.
  unfold bleedChild.
  destruct (NodeType_eqb (type c) CONNECTOR) eqn:E;
    [apply NodeType_eqb_eq in E | apply NodeType_eqb_neq in E];
    [split; [contradiction | tauto] |].
  destruct (bleedsOf sec c) as [| b l].
  - split; [contradiction | intros (_ & H & _); congruence].
  - split; [intros [<- | []]; repeat split; auto; discriminate
           | intros (_ & _ & ->); now left].
Qed.


Lemma bleedIssues_In sc boxes i :
  In i (bleedIssues sc boxes) <->
  exists s sec, node sc s = Some sec /\ parent sec = None
                /\ type sec = SECTION
                /\ ((exists c, In c sc /\ parent c = Some s
                               /\ In i (bleedChild sec c))
                    \/ (exists bx, In bx boxes /\ In i (bleedVisual sec bx))).
Proof.
  unfold bleedIssues. rewrite in_flat_map. split.
  - intros ([s sec] & Hs & H). apply children_In in Hs as [Hs Hp].
    unfold bleedSection in H.
    destruct (NodeType_eqb (type sec) SECTION) eqn:E; [| contradiction].
    apply NodeType_eqb_eq in E. exists s, sec. repeat split; auto.
    apply in_app_iff in H as [H | H]; apply in_flat_map in H as (c & Hc & H).
    + left. apply children_nodes_In in Hc as [Hc1 Hc2]. now exists c.
    + right. now exists c.
  - intros (s & sec & Hs & Hp & Ht & H). exists (s, sec).
    split; [now apply children_In |].
    unfold bleedSection. apply NodeType_eqb_eq in Ht. rewrite Ht.
    apply in_app_iff.
    destruct H as [(c & Hc & Hpc & H) | (bx & Hbx & H)]; [left | right];
      apply in_flat_map.
    + exists c. split; [now apply children_nodes_In | exact H].
    + now exists bx.
Qed.




(** ** Writes through references *)

Lemma node_update f a sc b :
  node (update f a sc) b
  = if Nat.eqb a b then option_map f (node sc b) else node sc b.
Proof.
  unfold node. revert a b.
  induction sc as [| n sc IH]; intros a b; simpl.
  - destruct a, b; simpl; try reflexivity. now destruct (Nat.eqb a b).
  - destruct a as [| a], b as [| b]; simpl; try reflexivity. apply IH.
Qed.

Lemma node_update_same f a sc :
  node (update f a sc) a = option_map f (node sc a).
Proof. now rewrite node_update, Nat.eqb_refl. Qed.

Lemma node_update_other f a sc b :
  a <> b -> node (update f a sc) b = node sc b.
Proof.
  intros H. rewrite node_update. apply Nat.eqb_neq in H. now rewrite H.
Qed.

Lemma node_writeAll f l : forall sc b,
  node (writeAll f l sc) b
  = option_map (Nat.iter (count_occ Nat.eq_dec l b) f) (node sc b).
Proof.
  unfold writeAll.
  induction l as [| a l IH]; intros sc b; simpl.
  - now destruct (node sc b).
  - rewrite IH, node_update. destruct (Nat.eq_dec a b) as [-> | Hne].
    + rewrite Nat.eqb_refl. destruct (node sc b); simpl; [| reflexivity].
      f_equal. clear. induction (count_occ Nat.eq_dec l b); simpl; congruence.
    + apply Nat.eqb_neq in Hne. now rewrite Hne.
Qed.

Lemma node_writeAll_notin f l sc b :
  ~ In b l -> node (writeAll f l sc) b = node sc b.
Proof.
  intros H. rewrite node_writeAll.
  apply (count_occ_not_In Nat.eq_dec) in H. rewrite H.
  now destruct (node sc b).
Qed.

Lemma node_writeAll_once f l sc b :
  NoDup l -> In b l -> node (writeAll f l sc) b = option_map f (node sc b).
Proof.
  intros Hnd Hin. rewrite node_writeAll.
  assert (E : count_occ Nat.eq_dec l b = 1%nat).
  { pose proof (proj1 (NoDup_count_occ Nat.eq_dec l) Hnd b) as H1.
    pose proof (proj1 (count_occ_In Nat.eq_dec l b) Hin) as H2. lia. }
  now rewrite E.
Qed.

Lemma node_writeAll_idem f l sc b :
  (forall n, f (f n) = f n) -> In b l ->
  node (writeAll f l sc) b = option_map f (node sc b).
Proof.
  intros Hf Hin. rewrite node_writeAll.
  pose proof (proj1 (count_occ_In Nat.eq_dec l b) Hin) as H.
  destruct (count_occ Nat.eq_dec l b) as [| k]; [lia |].
  destruct (node sc b); simpl; [| reflexivity]. f_equal.
  clear H. induction k; simpl; [reflexivity |]. simpl in IHk.
  now rewrite IHk, Hf.
Qed.

Lemma findFrom_Some sc i : forall k a,
  findFrom k sc i = Some a ->
  (k <= a)%nat /\ exists n, nth_error sc (a - k) = Some n /\ id n = i.
Proof.
  induction sc as [| m sc IH]; intros k a; simpl; [discriminate |].
  destruct (String.eqb_spec (id m) i) as [E | E].
  - intros H. injection H as <-. split; [lia |].
    rewrite Nat.sub_diag. now exists m.
  - intros H. apply IH in H as [Hk (n & Hn & Hid)]. split; [lia |].
    exists n. split; [| exact Hid].
    replace (a - k)%nat with (S (a - S k)) by lia. exact Hn.
Qed.

Lemma findNodeById_Some sc i a :
  findNodeById sc i = Some a -> exists n, node sc a = Some n /\ id n = i.
Proof.
  intros H. apply findFrom_Some in H as [_ (n & Hn & Hid)].
  rewrite Nat.sub_0_r in Hn. now exists n.
Qed.

Lemma resolveNodes_valid sc ids a :
  In a (resolveNodes sc ids) -> exists n, node sc a = Some n.
Proof.
  unfold resolveNodes. rewrite in_flat_map. intros (i & _ & H).
  destruct (findNodeById sc i) as [b |] eqn:E; [| contradiction].
  destruct H as [<- | []]. apply findNodeById_Some in E as (n & Hn & _).
  now exists n.
Qed.

(** ** Minimum, maximum of a property over references *)

Lemma minOf_spec f sc nodes :
  nodes <> [] ->
  (forall a, In a nodes -> minOf f sc nodes <= get f sc a)
  /\ (exists a, In a nodes /\ minOf f sc nodes = get f sc a).
Proof.
  destruct nodes as [| a0 rest]; [congruence |]. intros _. unfold minOf.
  assert (H : forall l m,
             let r := fold_left
                        (fun m a => if Qlt_le_dec (get f sc a) m
                                    then get f sc a else m) l m in
             r <= m /\ (forall a, In a l -> r <= get f sc a)
             /\ (r = m \/ exists a, In a l /\ r = get f sc a)).
  { induction l as [| a l IH]; intros m; simpl.
    - split; [lra |]. split; [contradiction | now left].
    - destruct (Qlt_le_dec (get f sc a) m) as [Hlt | Hge].
      + destruct (IH (get f sc a)) as (H1 & H2 & H3).
        split; [lra |]. split.
        * intros b [<- | Hb]; [exact H1 | now apply H2].
        * right. destruct H3 as [H3 | (b & Hb & H3)]; eauto.
      + destruct (IH m) as (H1 & H2 & H3).
        split; [exact H1 |]. split.
        * intros b [<- | Hb]; [lra | now apply H2].
        * destruct H3 as [H3 | (b & Hb & H3)]; [now left | right; eauto]. }
  destruct (H rest (get f sc a0)) as (H1 & H2 & H3). split.
  - intros a [<- | Ha]; [exact H1 | now apply H2].
  - destruct H3 as [H3 | (b & Hb & H3)]; [exists a0 | exists b]; simpl; auto.
Qed.

Lemma maxOf_spec f sc nodes :
  nodes <> [] ->
  (forall a, In a nodes -> get f sc a <= maxOf f sc nodes)
  /\ (exists a, In a nodes /\ maxOf f sc nodes = get f sc a).
Proof.
  destruct nodes as [| a0 rest]; [congruence |]. intros _. unfold maxOf.
  assert (H : forall l m,
             let r := fold_left
                        (fun m a => if Qlt_le_dec m (get f sc a)
                                    then get f sc a else m) l m in
             m <= r /\ (forall a, In a l -> get f sc a <= r)
             /\ (r = m \/ exists a, In a l /\ r = get f sc a)).
  { induction l as [| a l IH]; intros m; simpl.
    - split; [lra |]. split; [contradiction | now left].
    - destruct (Qlt_le_dec m (get f sc a)) as [Hlt | Hge].
      + destruct (IH (get f sc a)) as (H1 & H2 & H3).
        split; [lra |]. split.
        * intros b [<- | Hb]; [exact H1 | now apply H2].
        * right. destruct H3 as [H3 | (b & Hb & H3)]; eauto.
      + destruct (IH m) as (H1 & H2 & H3).
        split; [exact H1 |]. split.
        * intros b [<- | Hb]; [lra | now apply H2].
        * destruct H3 as [H3 | (b & Hb & H3)]; [now left | right; eauto]. }
  destruct (H rest (get f sc a0)) as (H1 & H2 & H3). split.
  - intros a [<- | Ha]; [exact H1 | now apply H2].
  - destruct H3 as [H3 | (b & Hb & H3)]; [exists a0 | exists b]; simpl; auto.
Qed.

(** ** Section auto-fit *)

Lemma frame_refl n : frame n n.
Proof. unfold frame. now destruct n. Qed.

Lemma frame_trans n1 n2 n3 : frame n1 n2 -> frame n2 n3 -> frame n1 n3.
Proof.
  unfold frame. intros H12 H23. rewrite H23.
  rewrite H12 at 1 2 3 4 5 6 7 8. reflexivity.
Qed.

Lemma frame_fields n n' :
  frame n n' ->
  id n' = id n /\ name n' = name n /\ type n' = type n
  /\ parent n' = parent n /\ characters n' = characters n.
Proof. unfold frame. intros ->. simpl. auto. Qed.

Lemma frame_shiftBy d n : frame n (shiftBy d n).
Proof. reflexivity. Qed.

Lemma frame_resize w h n : frame n (resizeWithoutConstraints w h n).
Proof. reflexivity. Qed.

Lemma frame_setX v n : frame n (setX v n).
Proof. reflexivity. Qed.

Lemma frame_setY v n : frame n (setY v n).
Proof. reflexivity. Qed.

Lemma children_NoDup sc p : NoDup (map fst (children sc p)).
Proof.
  unfold children, indexed.
  generalize 0%nat. induction sc as [| n sc IH]; intros k; simpl.
  - constructor.
  - destruct (parent_eqb (parent n) p); simpl; [| apply IH].
    constructor; [| apply IH].
    rewrite in_map_iff. intros ([a m] & E & H). simpl in E. subst a.
    apply filter_In in H as [H _]. apply combine_seq_In in H as [H _]. lia.
Qed.

Lemma kids_In sc p c :
  In c (map fst (children sc p)) <->
  exists n, node sc c = Some n /\ parent n = p.
Proof.
  rewrite in_map_iff. split.
  - intros ([a n] & E & H). simpl in E. subst a.
    apply children_In in H. now exists n.
  - intros (n & H). exists (c, n). split; [reflexivity |].
    now apply children_In.
Qed.

Lemma shiftOf_nonneg sc kids d :
  shiftOf sc kids = Some d -> 0 <= fst d /\ 0 <= snd d.
Proof.
  unfold shiftOf.
  destruct (Qlt_le_dec (minOf x sc kids) SECTION_PADDING);
    destruct (Qlt_le_dec (minOf y sc kids) SECTION_PADDING);
    repeat match goal with
           | |- context [if ?c then _ else _] => destruct c
           end; intros E; inversion E; subst; simpl; split; lra.
Qed.

(** Effect of one auto-fit on each node of the scene. *)
Lemma fitSection_spec sc p kids :
  NoDup kids ->
  exists d, (0 <= fst d /\ 0 <= snd d) /\
    forall a,
      match node sc a, node (fst (fitSection sc p kids)) a with
      | Some n, Some n' =>
          frame n n'
          /\ x n' == x n + (if in_dec Nat.eq_dec a kids then fst d else 0)
          /\ y n' == y n + (if in_dec Nat.eq_dec a kids then snd d else 0)
          /\ ((width n' = width n /\ height n' = height n)
              \/ (a = p /\ width n <= width n' /\ height n <= height n'))
      | None, None => True
      | _, _ => False
      end.
Proof.
  intros Hnd.
  assert (Hshift : exists d, (0 <= fst d /\ 0 <= snd d) /\
            forall a,
              match node sc a, node (shiftChildren sc kids) a with
              | Some n, Some n' =>
                  frame n n'
                  /\ x n' == x n
                       + (if in_dec Nat.eq_dec a kids then fst d else 0)
                  /\ y n' == y n
                       + (if in_dec Nat.eq_dec a kids then snd d else 0)
                  /\ width n' = width n /\ height n' = height n
              | None, None => True
              | _, _ => False
              end).
  { unfold shiftChildren. destruct (shiftOf sc kids) as [d |] eqn:E.
    - exists d. split; [eapply shiftOf_nonneg; eauto |]. intros a.
      destruct (in_dec Nat.eq_dec a kids) as [Hin | Hin].
      + rewrite node_writeAll_once by assumption.
        destruct (node sc a) as [n |]; simpl; [| exact I].
        repeat split; reflexivity.
      + rewrite node_writeAll_notin by assumption.
        destruct (node sc a) as [n |]; [| exact I].
        repeat split; try reflexivity; try lra. apply frame_refl.
    - exists (0, 0). split; [simpl; lra |]. intros a.
      destruct (node sc a) as [n |]; [| exact I].
      split; [apply frame_refl |].
      destruct (in_dec Nat.eq_dec a kids); simpl; repeat split; lra. }
  destruct Hshift as (d & Hd & Hs). exists d. split; [exact Hd |].
  intros a. specialize (Hs a). unfold fitSection.
  set (sc1 := shiftChildren sc kids) in *.
  set (newW := _ + SECTION_PADDING).
  set (newH := _ + SECTION_PADDING).
  destruct (_ || _); simpl fst; [| destruct (node sc a), (node sc1 a); tauto].
  rewrite node_update. destruct (Nat.eqb_spec p a) as [<- | Hne];
    [| destruct (node sc a), (node sc1 a); tauto].
  unfold get. destruct (node sc p) as [n |], (node sc1 p) as [n1 |];
    simpl; try tauto.
  destruct Hs as (Hf & Hx & Hy & Hw & Hh).
  split; [| split; [exact Hx | split; [exact Hy |]]].
  - eapply frame_trans; [exact Hf | apply frame_resize].
  - right. split; [reflexivity |]. rewrite <- Hw, <- Hh.
    split; apply Math_max_ge_r.
Qed.

Lemma existsb_eqb_false i l :
  existsb (String.eqb i) l = false -> ~ In i l.
Proof.
  intros H Hin.
  assert (existsb (String.eqb i) l = true).
  { apply existsb_exists. exists i. split; [exact Hin |].
    apply String.eqb_refl. }
  congruence.
Qed.

Lemma fitParent_invariant sc nodes st a :
  In a nodes -> fitInvariant sc nodes st ->
  fitInvariant sc nodes (fitParent st a).
Proof.
  intros Ha Hinv. pose proof Hinv as (D & (Hnn & Htouch & Hnodes) & Hvis).
  unfold fitParent.
  destruct (node (scene st) a) as [n1 |] eqn:En1; [| exact Hinv].
  destruct (parent n1) as [p |] eqn:Ep; [| exact Hinv].
  destruct (node (scene st) p) as [sec1 |] eqn:Es; [| exact Hinv].
  destruct (NodeType_eqb (type sec1) SECTION) eqn:Et; simpl negb; cbv iota;
    [| exact Hinv].
  apply NodeType_eqb_eq in Et.
  destruct (existsb (String.eqb (id sec1)) (visited st)) eqn:Ev;
    [exact Hinv |].
  apply existsb_eqb_false in Ev.
  pose proof (Hnodes a) as Ha0. rewrite En1 in Ha0.
  destruct (node sc a) as [n0 |] eqn:En0; [| contradiction].
  destruct Ha0 as (Fa & _).
  apply frame_fields in Fa as (_ & _ & _ & Fa & _).
  pose proof (Hnodes p) as Hp0. rewrite Es in Hp0.
  destruct (node sc p) as [sec0 |] eqn:Es0; [| contradiction].
  destruct Hp0 as (Fp & _).
  apply frame_fields in Fp as (Fid & _ & Fty & _).
  assert (Htp : touched sc nodes p).
  { exists a, n0, sec0. repeat split; auto; congruence. }
  assert (HDp : D p = (0, 0)).
  { apply (Hvis p sec0 Es0). now rewrite <- Fid. }
  destruct (map fst (children (scene st) (Some p))) as [| k ks] eqn:Ek.
  - exists D. split; [exact (conj Hnn (conj Htouch Hnodes)) |]. simpl.
    intros q secq Hq Hnin. apply (Hvis q secq Hq). tauto.
  - rewrite <- Ek.
    pose proof (fitSection_spec (scene st) p _
                  (children_NoDup (scene st) (Some p)))
      as (d & Hd & Hspec).
    destruct (fitSection (scene st) p (map fst (children (scene st) (Some p))))
      as [sc' r] eqn:Ef.
    simpl fst in Hspec.
    exists (fun q => if Nat.eqb q p then d else D q).
    split; [split; [| split] |]; simpl.
    + intros q. destruct (Nat.eqb q p); auto.
    + intros q. destruct (Nat.eqb_spec q p) as [-> | Hne]; auto.
    + intros a'. specialize (Hnodes a'). specialize (Hspec a').
      destruct (node sc a') as [m0 |]; destruct (node (scene st) a')
        as [m1 |] eqn:Em1; try tauto;
        destruct (node sc' a') as [m2 |]; try tauto.
      destruct Hnodes as (F01 & X01 & Y01 & S01).
      destruct Hspec as (F12 & X12 & Y12 & S12).
      pose proof (frame_fields _ _ F01) as (_ & _ & _ & P01 & _).
      split; [eapply frame_trans; eauto |].
      assert (Hkid : In a' (map fst (children (scene st) (Some p)))
                     <-> parent m0 = Some p).
      { rewrite kids_In, Em1, <- P01. split.
        - intros (m & E & H). congruence.
        - intros H. now exists m1. }
      unfold shiftOfParent in *.
      destruct (in_dec Nat.eq_dec a' _) as [Hin | Hin].
      * apply Hkid in Hin. rewrite Hin in *. rewrite Nat.eqb_refl.
        rewrite HDp in X01, Y01. simpl in X01, Y01.
        split; [lra |]. split; [lra |].
        destruct S12 as [[W H] | (-> & W & H)].
        -- rewrite W, H. exact S01.
        -- right. split; [exact Htp |].
           destruct S01 as [[W' H'] | (_ & W' & H')];
             [rewrite <- W', <- H'; auto | split; lra].
      * assert (Hq : match parent m0 with
                     | Some q => if Nat.eqb q p then d else D q
                     | None => (0, 0)
                     end
                     = match parent m0 with
                       | Some q => D q
                       | None => (0, 0)
                       end).
        { destruct (parent m0) as [q |]; [| reflexivity].
          destruct (Nat.eqb_spec q p) as [-> | Hne]; [| reflexivity].
          exfalso. apply Hin, Hkid. reflexivity. }
        rewrite Hq. split; [lra |]. split; [lra |].
        destruct S12 as [[W H] | (-> & W & H)].
        -- rewrite W, H. exact S01.
        -- right. split; [exact Htp |].
           destruct S01 as [[W' H'] | (_ & W' & H')];
             [rewrite <- W', <- H'; auto | split; lra].
    + intros q secq Hq Hnin.
      destruct (Nat.eqb_spec q p) as [-> | Hne].
      * exfalso. apply Hnin. left. congruence.
      * apply (Hvis q secq Hq). tauto.
Qed.

(** Effect of [resizeParentSections]: a uniform shift of the children of
    each touched section, and growth of touched sections. *)
Lemma resizeParentSections_spec sc nodes :
  exists D, autoFitted D nodes sc (fst (resizeParentSections sc nodes)).
Proof.
  unfold resizeParentSections. simpl fst.
  assert (H : forall l st, (forall a, In a l -> In a nodes) ->
            fitInvariant sc nodes st ->
            fitInvariant sc nodes (fold_left fitParent l st)).
  { induction l as [| a l IH]; intros st Hl Hinv; simpl; [exact Hinv |].
    apply IH; [intros b Hb; apply Hl; now right |].
    apply fitParent_invariant; [apply Hl; now left | exact Hinv]. }
  destruct (H nodes (mkFit sc [] []) (fun a Ha => Ha)) as (D & HD & _);
    [| now exists D].
  exists (fun _ => (0, 0)). split; [| intros; reflexivity].
  split; [simpl; intros _; lra |]. split; [now right |].
  intros a. simpl. destruct (node sc a) as [n |]; [| exact I].
  split; [apply frame_refl |]. unfold shiftOfParent.
  destruct (parent n); simpl; (split; [lra |]); (split; [lra |]);
    now left.
Qed.

(** ** Alignment engine *)

Lemma get_writeAll_idem g f l sc a :
  (forall n, f (f n) = f n) -> In a l ->
  (exists n, node sc a = Some n) ->
  exists n, node sc a = Some n /\ get g (writeAll f l sc) a = g (f n).
Proof.
  intros Hf Hin (n & Hn). exists n. split; [exact Hn |].
  unfold get. now rewrite (node_writeAll_idem f l sc a Hf Hin), Hn.
Qed.

Lemma alignNodes_aligned sc nodes alignment :
  (forall a, In a nodes -> exists n, node sc a = Some n) ->
  aligned alignment sc nodes (alignNodes sc nodes alignment).
Proof.
  intros Hvalid a Ha. specialize (Hvalid a Ha).
  unfold alignNodes, meanOf.
  destruct alignment;
    match goal with
    | |- context [writeAll ?f nodes sc] =>
        assert (Hf : forall n, f (f n) = f n) by reflexivity;
        destruct (get_writeAll_idem width f nodes sc a Hf Ha Hvalid)
          as (n & Hn & ->);
        destruct (get_writeAll_idem height f nodes sc a Hf Ha Hvalid)
          as (? & Hn1 & ->);
        destruct (get_writeAll_idem x f nodes sc a Hf Ha Hvalid)
          as (? & Hn2 & ->);
        destruct (get_writeAll_idem y f nodes sc a Hf Ha Hvalid)
          as (? & Hn3 & ->)
    end;
    rewrite Hn in Hn1, Hn2, Hn3;
    injection Hn1 as <-; injection Hn2 as <-; injection Hn3 as <-;
    unfold get; rewrite Hn; simpl;
    (split; [reflexivity |]); (split; [reflexivity |]);
    (split; [| reflexivity]); try reflexivity.
  - unfold Qdiv. ring.
  - ring.
  - unfold Qdiv. ring.
  - ring.
Qed.

Lemma run_reposition sc c :
  run sc c = fst (resizeParentSections (reposition sc c) (moved sc c)).
Proof.
  destruct c as [ids al | ids dir sp]; unfold run, reposition, moved.
  - unfold handleAlignElements.
    destruct (List.length (resolveNodes sc ids) <? 2)%nat; [reflexivity |].
    now destruct (resizeParentSections _ _).
  - unfold handleDistributeElements.
    destruct (List.length (resolveNodes sc ids) <? 3)%nat; [reflexivity |].
    destruct (distributeNodes _ _ _ _) as [sc1 gap]. cbn [fst].
    now destruct (resizeParentSections _ _).
Qed.

Lemma autoFitted_page D nodes sc sc' a n :
  autoFitted D nodes sc sc' -> node sc a = Some n -> parent n = None ->
  exists n', node sc' a = Some n' /\ x n' == x n /\ y n' == y n.
Proof.
  intros (_ & _ & H) Hn Hp. specialize (H a). rewrite Hn in H.
  destruct (node sc' a) as [n' |]; [| contradiction].
  destruct H as (_ & Hx & Hy & _). unfold shiftOfParent in *.
  rewrite Hp in *. simpl in *. exists n'. repeat split; lra.
Qed.

(** C7 (amended). With fewer than 2 resolved elements the call changes
    nothing.  Otherwise the repositioning sets every element's x to the
    minimum x of the set (left), every right edge to the maximum right edge
    with widths unchanged (right), every horizontal centre to the mean of
    the centres (center), and likewise on y for top, bottom and middle;
    Section auto-fit then shifts the children of each touched section
    uniformly, so that elements of the page keep the aligned coordinate
    and elements inside a section keep it up to the shift of their
    section.  On the page, {x:0,w:50}, {x:30,w:20}, {x:10,w:40} get x = 0
    on left and right edge 50 on right. *)
Theorem align_elements_semantics
    (sc : Scene) (elementIds : list string) (alignment : Alignment.t) :
  let nodes := resolveNodes sc elementIds in
  let mid := alignNodes sc nodes alignment in
  let final := fst (handleAlignElements sc elementIds alignment) in
  ((List.length nodes < 2)%nat ->
   handleAlignElements sc elementIds alignment
   = (sc, mkAligned (List.length nodes) None))
  /\ ((2 <= List.length nodes)%nat ->
      aligned alignment sc nodes mid
      /\ isMinOf x sc nodes (minOf x sc nodes)
      /\ isMaxOf rightEdge sc nodes (maxOf rightEdge sc nodes)
      /\ isMinOf y sc nodes (minOf y sc nodes)
      /\ isMaxOf bottomEdge sc nodes (maxOf bottomEdge sc nodes)
      /\ (exists D, autoFitted D nodes mid final)
      /\ (forall a n, node mid a = Some n -> parent n = None ->
            exists n', node final a = Some n' /\ x n' == x n /\ y n' == y n))
  /\ xs (fst (handleAlignElements threeOnPage ["a"; "b"; "c"]%string
                Alignment.left)) = [0; 0; 0]
  /\ rightEdges (fst (handleAlignElements threeOnPage ["a"; "b"; "c"]%string
                        Alignment.right)) = [50; 50; 50].
Proof.
  intros nodes mid final.
  assert (Hrun : final
                 = fst (resizeParentSections
                          (reposition sc (AlignElements elementIds alignment))
                          (moved sc (AlignElements elementIds alignment))))
    by apply (run_reposition sc (AlignElements elementIds alignment)).
  unfold reposition, moved in Hrun. fold nodes in Hrun.
  split; [| split; [| split]].
  - intros Hlt. apply Nat.ltb_lt in Hlt. unfold handleAlignElements.
    fold nodes. now rewrite Hlt.
  - intros Hge.
    assert (Hlt : (List.length nodes <? 2)%nat = false)
      by (apply Nat.ltb_ge; lia).
    rewrite Hlt in Hrun. fold mid in Hrun.
    assert (Hne : nodes <> [])
      by (destruct nodes; simpl in Hge; [lia | congruence]).
    split; [apply alignNodes_aligned; intros a Ha;
            eapply resolveNodes_valid; eauto |].
    split; [apply minOf_spec; assumption |].
    split; [apply maxOf_spec; assumption |].
    split; [apply minOf_spec; assumption |].
    split; [apply maxOf_spec; assumption |].
    destruct (resizeParentSections_spec mid nodes) as (D & HD).
    rewrite <- Hrun in HD.
    split; [now exists D |].
    intros a n Hn Hp. eapply autoFitted_page; eauto.
  - vm_compute. reflexivity.
  - vm_compute. reflexivity.
Qed.

(** C7, counterexample: inside a section whose children sit closer than 40
    to its origin, aligning on left leaves the elements at x = 40 although
    the minimum x of the set is 0, and aligning on right leaves the right
    edges at 90 although the maximum right edge is 50. *)
Lemma align_inside_section_shifted :
  xs (fst (handleAlignElements threeInSection ["a"; "b"; "c"]%string
             Alignment.left)) = [0; 40; 40; 40]
  /\ minOf x threeInSection
       (resolveNodes threeInSection ["a"; "b"; "c"]%string) == 0
  /\ rightEdges (fst (handleAlignElements threeInSection
                        ["a"; "b"; "c"]%string Alignment.right))
     = [600; 90; 90; 90]
  /\ maxOf rightEdge threeInSection
       (resolveNodes threeInSection ["a"; "b"; "c"]%string) == 50.
Proof. repeat split; vm_compute; reflexivity. Qed.

(** ** Frame of the repositioning *)

Lemma sameButX_refl n : sameButX n n.
Proof. unfold sameButX. now destruct n. Qed.

Lemma sameButX_trans n1 n2 n3 :
  sameButX n1 n2 -> sameButX n2 n3 -> sameButX n1 n3.
Proof. unfold sameButX. intros H12 H23. rewrite H23, H12. reflexivity. Qed.

Lemma sameButY_refl n : sameButY n n.
Proof. unfold sameButY. now destruct n. Qed.

Lemma sameButY_trans n1 n2 n3 :
  sameButY n1 n2 -> sameButY n2 n3 -> sameButY n1 n3.
Proof. unfold sameButY. intros H12 H23. rewrite H23, H12. reflexivity. Qed.

Section Writes.
Variable R : SceneNode -> SceneNode -> Prop.
Hypothesis R_refl : forall n, R n n.
Hypothesis R_trans : forall n1 n2 n3, R n1 n2 -> R n2 n3 -> R n1 n3.

Lemma writeAll_rel f l sc a :
  (forall n, R n (f n)) ->
  match node sc a, node (writeAll f l sc) a with
  | Some n, Some n' => R n n' /\ (~ In a l -> n' = n)
  | None, None => True
  | _, _ => False
  end.
Proof.
  intros Hf. rewrite node_writeAll.
  destruct (node sc a) as [n |]; simpl; [| exact I]. split.
  - induction (count_occ Nat.eq_dec l a) as [| k IH]; simpl; eauto.
  - intros Hin. apply (count_occ_not_In Nat.eq_dec) in Hin.
    now rewrite Hin.
Qed.

Lemma placeAll_rel set size gap l :
  (forall v n, R n (set v n)) ->
  forall first sc a,
    match node sc a, node (fst (placeAll set size gap l first sc)) a with
    | Some n, Some n' => R n n' /\ (~ In a l -> n' = n)
    | None, None => True
    | _, _ => False
    end.
Proof.
  intros Hset. unfold placeAll.
  induction l as [| b l IH]; intros first sc a; simpl.
  - destruct (node sc a); auto.
  - specialize (IH (first + (get size (update (set first) b sc) b + gap))
                  (update (set first) b sc) a).
    rewrite node_update in IH.
    destruct (Nat.eqb_spec b a) as [-> | Hne].
    + destruct (node sc a) as [n |]; simpl in IH; [| exact IH].
      destruct (node _ a) as [n' |]; [| exact IH].
      destruct IH as [IH _]. split; [eauto | tauto].
    + destruct (node sc a) as [n |]; [| exact IH].
      destruct (node _ a) as [n' |]; [| exact IH].
      destruct IH as [IH1 IH2]. split; [exact IH1 | tauto].
Qed.
End Writes.

Lemma sortBy_In key l a : In a (sortBy key l) <-> In a l.
Proof.
  unfold sortBy.
  assert (Hins : forall b acc, In a (insertBy key b acc) <-> a = b \/ In a acc).
  { intros b acc. induction acc as [| c acc IH]; simpl.
    - intuition.
    - destruct (Qlt_le_dec (key b) (key c)); simpl; [intuition |].
      rewrite IH. intuition. }
  assert (H : forall l acc,
            In a (fold_left (fun acc b => insertBy key b acc) l acc)
            <-> In a l \/ In a acc).
  { clear l. induction l as [| b l IH]; intros acc; simpl; [tauto |].
    rewrite IH, Hins. intuition. }
  rewrite H. simpl. tauto.
Qed.

(** The repositioning of a call writes only the coordinate of its axis,
    and only on the moved nodes. *)
Lemma reposition_frame sc c a :
  match node sc a, node (reposition sc c) a with
  | Some n, Some n' =>
      (if horizontalCall c then sameButX n n' else sameButY n n')
      /\ (~ In a (moved sc c) -> n' = n)
  | None, None => True
  | _, _ => False
  end.
Proof.
  assert (Hid : match node sc a, node sc a with
                | Some n, Some n' =>
                    (if horizontalCall c then sameButX n n'
                     else sameButY n n') /\ (~ In a [] -> n' = n)
                | None, None => True
                | _, _ => False
                end).
  { destruct (node sc a); [| exact I]. split; [| reflexivity].
    destruct (horizontalCall c);
      [apply sameButX_refl | apply sameButY_refl]. }
  destruct c as [ids al | ids dir sp]; unfold reposition, moved.
  - destruct (List.length (resolveNodes sc ids) <? 2)%nat; [exact Hid |].
    destruct al; unfold alignNodes, horizontalCall.
    1-3: apply (writeAll_rel sameButX sameButX_refl sameButX_trans);
      intros n; reflexivity.
    1-3: apply (writeAll_rel sameButY sameButY_refl sameButY_trans);
      intros n; reflexivity.
  - destruct (List.length (resolveNodes sc ids) <? 3)%nat; [exact Hid |].
    destruct dir; unfold distributeNodes, horizontalCall; cbn [fst].
    + apply (placeAll_rel sameButX sameButX_refl sameButX_trans).
      intros v n. reflexivity.
    + apply (placeAll_rel sameButY sameButY_refl sameButY_trans).
      intros v n. reflexivity.
Qed.

Lemma reposition_fields sc c a :
  match node sc a, node (reposition sc c) a with
  | Some n, Some n' =>
      frame n n' /\ width n' = width n /\ height n' = height n
  | None, None => True
  | _, _ => False
  end.
Proof.
  pose proof (reposition_frame sc c a) as H.
  destruct (node sc a) as [n |], (node (reposition sc c) a) as [n' |];
    try tauto.
  destruct H as [H _].
  destruct (horizontalCall c); unfold sameButX, sameButY in H;
    rewrite H; repeat split.
Qed.

Lemma touched_reposition sc c nodes p :
  touched (reposition sc c) nodes p -> touched sc nodes p.
Proof.
  intros (b & nb & sec & Hb & Hnb & Hp & Hsec & Hty).
  pose proof (reposition_fields sc c b) as Fb. rewrite Hnb in Fb.
  pose proof (reposition_fields sc c p) as Fp. rewrite Hsec in Fp.
  destruct (node sc b) as [nb0 |] eqn:Eb; [| contradiction].
  destruct (node sc p) as [sec0 |] eqn:Ep; [| contradiction].
  destruct Fb as (Fb & _), Fp as (Fp & _).
  apply frame_fields in Fb as (_ & _ & _ & Fb & _).
  apply frame_fields in Fp as (_ & _ & Fp & _).
  exists b, nb0, sec0. repeat split; auto; congruence.
Qed.

Lemma run_effect sc c :
  exists D, autoFitted D (moved sc c) (reposition sc c) (run sc c).
Proof.
  rewrite run_reposition. apply resizeParentSections_spec.
Qed.

(** Sizes over a whole call: unchanged, or grown for a touched section. *)
Lemma run_sizes sc c a :
  match node sc a, node (run sc c) a with
  | Some n, Some n' =>
      frame n n'
      /\ ((width n' = width n /\ height n' = height n)
          \/ (touched sc (moved sc c) a
              /\ width n <= width n' /\ height n <= height n'))
  | None, None => True
  | _, _ => False
  end.
Proof.
  destruct (run_effect sc c) as (D & _ & _ & H). specialize (H a).
  pose proof (reposition_fields sc c a) as F.
  destruct (node sc a) as [n |], (node (reposition sc c) a) as [n1 |];
    try tauto; destruct (node (run sc c) a) as [n2 |]; try tauto.
  destruct F as (F01 & W01 & H01), H as (F12 & _ & _ & S).
  split; [eapply frame_trans; eauto |].
  rewrite W01, H01 in S. destruct S as [S | (T & S)]; [now left |].
  right. split; [| exact S]. eapply touched_reposition; eauto.
Qed.

(** C10. For every align or distribute call: the repositioning writes only
    the coordinate of the chosen axis, and only on the resolved elements;
    width and height of a node change only for a Section that is the parent
    of one of these elements, and then only grow; a node outside the
    resolved set is moved only as a child of such a Section, by the shift
    that auto-fit applies to every child of that Section. *)
Theorem frame_of_align_and_distribute (sc : Scene) (c : Call) :
  let nodes := moved sc c in
  let mid := reposition sc c in
  let final := run sc c in
  (forall a,
     match node sc a, node mid a with
     | Some n, Some n' =>
         (if horizontalCall c then n' = setX (x n') n
          else n' = setY (y n') n)
         /\ (~ In a nodes -> n' = n)
     | None, None => True
     | _, _ => False
     end)
  /\ (forall a,
        match node sc a, node final a with
        | Some n, Some n' =>
            frame n n'
            /\ ((width n' = width n /\ height n' = height n)
                \/ (type n = SECTION
                    /\ (exists b nb, In b nodes /\ node sc b = Some nb
                                     /\ parent nb = Some a)
                    /\ width n <= width n' /\ height n <= height n'))
        | None, None => True
        | _, _ => False
        end)
  /\ (forall a n n', ~ In a nodes ->
        node sc a = Some n -> node final a = Some n' ->
        (x n' == x n /\ y n' == y n)
        \/ exists p dx dy,
             parent n = Some p /\ touched sc nodes p
             /\ forall k nk nk', node mid k = Some nk ->
                  parent nk = Some p -> node final k = Some nk' ->
                  x nk' == x nk + dx /\ y nk' == y nk + dy).
Proof.
  intros nodes mid final. split; [| split].
  - intros a. apply (reposition_frame sc c a).
  - intros a. pose proof (run_sizes sc c a) as H.
    fold final nodes in H.
    destruct (node sc a) as [n |] eqn:En, (node final a) as [n' |];
      try tauto.
    destruct H as (F & S). split; [exact F |].
    destruct S as [S | ((b & nb & sec & Hb & Hnb & Hp & Hsec & Hty) & S)];
      [now left | right].
    rewrite En in Hsec. injection Hsec as <-.
    split; [exact Hty |]. split; [| exact S]. now exists b, nb.
  - intros a n n' Hnin Hn Hn'.
    destruct (run_effect sc c) as (D & Hnn & Htouch & Hnodes).
    fold nodes mid final in Htouch, Hnodes.
    pose proof (reposition_frame sc c a) as Hmid.
    fold mid nodes in Hmid. rewrite Hn in Hmid.
    destruct (node mid a) as [n1 |] eqn:En1; [| contradiction].
    destruct Hmid as [_ Hmid]. specialize (Hmid Hnin). subst n1.
    pose proof (Hnodes a) as Ha. rewrite En1, Hn' in Ha.
    destruct Ha as (_ & Hx & Hy & _). unfold shiftOfParent in Hx, Hy.
    destruct (parent n) as [p |] eqn:Ep;
      [| left; simpl in Hx, Hy; split; lra].
    destruct (Htouch p) as [Ht | Hz].
    + right. exists p, (fst (D p)), (snd (D p)).
      split; [reflexivity |].
      split; [eapply touched_reposition; exact Ht |].
      intros k nk nk' Hk Hpk Hk'. specialize (Hnodes k).
      rewrite Hk, Hk' in Hnodes. destruct Hnodes as (_ & Hxk & Hyk & _).
      unfold shiftOfParent in Hxk, Hyk. rewrite Hpk in Hxk, Hyk. auto.
    + left. rewrite Hz in Hx, Hy. simpl in Hx, Hy. split; lra.
Qed.

(** ** Auto-fit of one section *)

Lemma shiftOf_cases sc kids :
  0 <= shiftX sc kids /\ 0 <= shiftY sc kids
  /\ (shiftOf sc kids = Some (shiftX sc kids, shiftY sc kids)
      \/ (shiftOf sc kids = None
          /\ shiftX sc kids == 0 /\ shiftY sc kids == 0)).
Proof.
  unfold shiftOf. fold (shiftX sc kids) (shiftY sc kids).
  assert (Hx : 0 <= shiftX sc kids).
  { unfold shiftX. destruct (Qlt_le_dec _ _); lra. }
  assert (Hy : 0 <= shiftY sc kids).
  { unfold shiftY. destruct (Qlt_le_dec _ _); lra. }
  split; [exact Hx |]. split; [exact Hy |].
  destruct (Qlt_le_dec 0 (shiftX sc kids)); [now left |].
  destruct (Qlt_le_dec 0 (shiftY sc kids)); [now left |].
  right. repeat split; lra.
Qed.

Lemma shiftChildren_node sc kids a :
  NoDup kids ->
  match node sc a, node (shiftChildren sc kids) a with
  | Some n, Some n' =>
      frame n n' /\ width n' = width n /\ height n' = height n
      /\ x n' == x n + (if in_dec Nat.eq_dec a kids then shiftX sc kids
                        else 0)
      /\ y n' == y n + (if in_dec Nat.eq_dec a kids then shiftY sc kids
                        else 0)
  | None, None => True
  | _, _ => False
  end.
Proof.
  intros Hnd. unfold shiftChildren.
  destruct (shiftOf_cases sc kids) as (_ & _ & [E | (E & Hx & Hy)]);
    rewrite E.
  - destruct (in_dec Nat.eq_dec a kids) as [Hin | Hin].
    + rewrite node_writeAll_once by assumption.
      destruct (node sc a) as [n |]; simpl; [| exact I].
      repeat split; reflexivity.
    + rewrite node_writeAll_notin by assumption.
      destruct (node sc a) as [n |]; [| exact I].
      repeat split; try reflexivity; try lra. apply frame_refl.
  - destruct (node sc a) as [n |]; [| exact I].
    split; [apply frame_refl |].
    destruct (in_dec Nat.eq_dec a kids); repeat split; lra.
Qed.








(** ** Distribution engine *)

Lemma placeAll_cons set size gap a l first sc :
  placeAll set size gap (a :: l) first sc
  = placeAll set size gap l
      (first + (get size (update (set first) a sc) a + gap))
      (update (set first) a sc).
Proof. reflexivity. Qed.

Lemma placeAll_untouched set size gap l first sc a :
  ~ In a l ->
  node (fst (placeAll set size gap l first sc)) a = node sc a.
Proof.
  intros Hin.
  revert first sc. induction l as [| b l IH]; intros first sc;
    [reflexivity |].
  rewrite placeAll_cons, IH by (simpl in Hin; tauto).
  apply node_update_other. intros ->. apply Hin. now left.
Qed.

(** After the placement loop, the first node sits at the start coordinate
    and each next node follows the previous one at its width plus the
    gap. *)
Lemma placeAll_setX_positions gap l : forall first sc,
  NoDup l -> (forall a, In a l -> exists n, node sc a = Some n) ->
  let sc' := fst (placeAll setX width gap l first sc) in
  (forall a0 l', l = a0 :: l' -> get x sc' a0 = first)
  /\ (forall l1 a b l2, l = (l1 ++ a :: b :: l2)%list ->
        get x sc' b == get x sc' a + get width sc a + gap).
Proof.
  induction l as [| a0 l IH]; intros first sc Hnd Hvalid sc'.
  - split; [discriminate |]. intros l1 a b l2 E. now destruct l1.
  - inversion Hnd as [| ? ? Hnotin Hnd']; subst.
    destruct (Hvalid a0 (or_introl eq_refl)) as (n0 & Hn0).
    assert (Hvalid' : forall a, In a l ->
              exists n, node (update (setX first) a0 sc) a = Some n).
    { intros a Ha. destruct (Hvalid a (or_intror Ha)) as (n & Hn).
      rewrite node_update. destruct (Nat.eqb a0 a); rewrite Hn; simpl; eauto. }
    assert (Hw : forall a, get width (update (setX first) a0 sc) a
                           = get width sc a).
    { intros a. unfold get. rewrite node_update.
      destruct (Nat.eqb a0 a); destruct (node sc a); reflexivity. }
    specialize (IH (first + (get width (update (setX first) a0 sc) a0 + gap))
                  (update (setX first) a0 sc) Hnd' Hvalid').
    subst sc'. rewrite placeAll_cons.
    set (scF := fst (placeAll setX width gap l _ _)) in *.
    destruct IH as [IH1 IH2].
    assert (Hfirst : get x scF a0 = first).
    { unfold get, scF. rewrite placeAll_untouched by assumption.
      now rewrite node_update_same, Hn0. }
    split.
    + intros a1 l' E. injection E as <- <-. exact Hfirst.
    + intros l1 a b l2 E. destruct l1 as [| c l1]; simpl in E.
      * injection E as <- ->. rewrite (IH1 b l2 eq_refl), Hfirst, Hw.
        ring.
      * injection E as <- ->. rewrite (IH2 l1 a b l2 eq_refl), Hw.
        reflexivity.
Qed.

(** C6 (amended). Three elements of width 50 at x = 0, 60, 500 distributed
    horizontally with spacing 60 end at x = 0, 250, 500: the gap applied is
    max(naturalGap, spacing), here the natural gap (550 - 150) / 2 = 200.
    The floor is what applies to elements at x = 0, 60, 120 (natural gap
    10), which end at x = 0, 110, 220.  The gap used is never below the
    requested spacing, and after the placement each element follows the
    previous one at exactly the previous width plus that gap. *)
Theorem distribute_gap_is_max_of_natural_and_floor :
  xs (fst (handleDistributeElements (threeAt 0 60 500)
             ["a"; "b"; "c"]%string horizontal (Some 60))) = [0; 250; 500]
  /\ gapUsed (snd (handleDistributeElements (threeAt 0 60 500)
                     ["a"; "b"; "c"]%string horizontal (Some 60)))
     = Some 200
  /\ xs (fst (handleDistributeElements (threeAt 0 60 120)
                ["a"; "b"; "c"]%string horizontal (Some 60)))
     = [0; 110; 220]
  /\ gapUsed (snd (handleDistributeElements (threeAt 0 60 120)
                     ["a"; "b"; "c"]%string horizontal (Some 60)))
     = Some 60
  /\ (forall sc nodes minSpacing,
        snd (distributeNodes sc nodes horizontal minSpacing)
        = Math_max ((get rightEdge sc (last nodes 0%nat)
                     - get x sc (hd 0%nat nodes) - sumOf width sc nodes)
                    / (count nodes - 1)) minSpacing
        /\ minSpacing <= snd (distributeNodes sc nodes horizontal minSpacing))
  /\ (forall sc nodes minSpacing l1 a b l2,
        NoDup nodes -> (forall k, In k nodes -> exists n, node sc k = Some n) ->
        nodes = (l1 ++ a :: b :: l2)%list ->
        get x (fst (distributeNodes sc nodes horizontal minSpacing)) b
        == get x (fst (distributeNodes sc nodes horizontal minSpacing)) a
           + get width sc a
           + snd (distributeNodes sc nodes horizontal minSpacing))
  /\ (forall sc nodes minSpacing,
        snd (distributeNodes sc nodes vertical minSpacing)
        = Math_max ((get bottomEdge sc (last nodes 0%nat)
                     - get y sc (hd 0%nat nodes) - sumOf height sc nodes)
                    / (count nodes - 1)) minSpacing
        /\ minSpacing <= snd (distributeNodes sc nodes vertical minSpacing)).
Proof.
  split; [vm_compute; reflexivity |]. split; [vm_compute; reflexivity |].
  split; [vm_compute; reflexivity |]. split; [vm_compute; reflexivity |].
  split; [intros; split; [reflexivity | apply Math_max_ge_r] |].
  split; [| intros; split; [reflexivity | apply Math_max_ge_r]].
  intros sc nodes minSpacing l1 a b l2 Hnd Hvalid E.
  unfold distributeNodes. cbn [fst snd].
  destruct (placeAll_setX_positions
              (Math_max ((get rightEdge sc (last nodes 0%nat)
                          - get x sc (hd 0%nat nodes) - sumOf width sc nodes)
                         / (count nodes - 1)) minSpacing)
              nodes (get x sc (hd 0%nat nodes)) sc Hnd Hvalid) as [_ H].
  exact (H l1 a b l2 E).
Qed.

(** C6, counterexample: the elements do not end at x = 0, 110, 220. *)
Lemma distribute_example_not_floor_spaced :
  xs (fst (handleDistributeElements (threeAt 0 60 500)
             ["a"; "b"; "c"]%string horizontal (Some 60)))
  <> [0; 110; 220].
Proof. vm_compute. discriminate. Qed.

(** * Further properties of the validator *)

(** ** Section bleed detector, visual pass *)


Lemma bleedVisual_In sec bx i :
  In i (bleedVisual sec bx) <->
  Box.nodeType bx <> SECTION /\ Box.id bx <> id sec
  /\ centreInside sec bx /\ vBleedsOf sec bx <> []
  /\ i = mkIssue section_bleed (Box.id bx) (Box.name bx)
           (BleedsOutside (Box.name bx) (name sec) (vBleedsOf sec bx))
           (ResizeSectionLarger (id sec) (Box.id bx)).
Proof.
  unfold bleedVisual, centreInside.
  destruct (NodeType_eqb (Box.nodeType bx) SECTION) eqn:E1;
    [apply NodeType_eqb_eq in E1 | apply NodeType_eqb_neq in E1];
    [split; [contradiction | tauto] |].
  destruct (String.eqb_spec (Box.id bx) (id sec)) as [E2 | E2];
    [split; [contradiction | tauto] |].
  destruct (Qlt_le_dec (x sec) (Box.x bx + Box.w bx / 2));
    [| split; [contradiction | intros (_ & _ & (H & _) & _); lra]].
  destruct (Qlt_le_dec (Box.x bx + Box.w bx / 2) (x sec + width sec));
    [| split; [contradiction | intros (_ & _ & (_ & H & _) & _); lra]].
  destruct (Qlt_le_dec (y sec) (Box.y bx + Box.h bx / 2));
    [| split; [contradiction | intros (_ & _ & (_ & _ & H & _) & _); lra]].
  destruct (Qlt_le_dec (Box.y bx + Box.h bx / 2) (y sec + height sec));
    [| split; [contradiction | intros (_ & _ & (_ & _ & _ & H) & _); lra]].
  simpl. destruct (vBleedsOf sec bx) as [| b l].
  - split; [contradiction | intros (_ & _ & _ & H & _); congruence].
  - split; [intros [<- | []]; repeat split; auto; discriminate
           | intros (_ & _ & _ & _ & ->); now left].
Qed.




(** ** Overlap detector: boxes apart, boxes contained *)

Lemma intersectionArea_apart a b :
  apart a b -> intersectionArea a b == 0.
Proof.
  unfold apart, intersectionArea. intros H.
  set (dx := Math_min (Box.x a + Box.w a) (Box.x b + Box.w b)
             - Math_max (Box.x a) (Box.x b)).
  set (dy := Math_min (Box.y a + Box.h a) (Box.y b + Box.h b)
             - Math_max (Box.y a) (Box.y b)).
  assert (Hd : dx <= 0 \/ dy <= 0).
  { subst dx dy.
    destruct (Math_min_cases (Box.x a + Box.w a) (Box.x b + Box.w b))
      as [[? ->] | [? ->]];
    destruct (Math_max_cases (Box.x a) (Box.x b)) as [[? ->] | [? ->]];
    destruct (Math_min_cases (Box.y a + Box.h a) (Box.y b + Box.h b))
      as [[? ->] | [? ->]];
    destruct (Math_max_cases (Box.y a) (Box.y b)) as [[? ->] | [? ->]];
    destruct H as [H | [H | [H | H]]]; (left; lra) || (right; lra). }
  clearbody dx dy.
  destruct (Math_max_cases 0 dx) as [[? ->] | [? ->]];
    destruct (Math_max_cases 0 dy) as [[? ->] | [? ->]];
    destruct Hd; try lra; ring.
Qed.

Lemma intersectionArea_within a b :
  within a b -> 0 <= Box.w b -> 0 <= Box.h b ->
  intersectionArea a b == Box.w b * Box.h b.
Proof.
  unfold within, intersectionArea. intros (H1 & H2 & H3 & H4) Hw Hh.
  assert (Ex : Math_max 0 (Math_min (Box.x a + Box.w a) (Box.x b + Box.w b)
                           - Math_max (Box.x a) (Box.x b)) == Box.w b).
  { destruct (Math_min_cases (Box.x a + Box.w a) (Box.x b + Box.w b))
      as [[? ->] | [? ->]];
    destruct (Math_max_cases (Box.x a) (Box.x b)) as [[? ->] | [? ->]];
    match goal with
    | |- Math_max 0 ?d == _ =>
        destruct (Math_max_cases 0 d) as [[? ->] | [? ->]]; lra
    end. }
  assert (Ey : Math_max 0 (Math_min (Box.y a + Box.h a) (Box.y b + Box.h b)
                           - Math_max (Box.y a) (Box.y b)) == Box.h b).
  { destruct (Math_min_cases (Box.y a + Box.h a) (Box.y b + Box.h b))
      as [[? ->] | [? ->]];
    destruct (Math_max_cases (Box.y a) (Box.y b)) as [[? ->] | [? ->]];
    match goal with
    | |- Math_max 0 ?d == _ =>
        destruct (Math_max_cases 0 d) as [[? ->] | [? ->]]; lra
    end. }
  rewrite Ex, Ey. reflexivity.
Qed.

(** X2. Two examined boxes that merely touch or lie apart are never
    reported as overlapping, and a box of positive area that lies within
    another examined box is always reported. *)
Theorem overlap_apart_and_within (sc : Scene) (a b : Box.t) :
  NoDup (map Box.id (collectBoxes sc)) ->
  In a (collectBoxes sc) -> In b (collectBoxes sc) ->
  Box.id a <> Box.id b ->
  Box.nodeType a <> SECTION -> Box.nodeType b <> SECTION ->
  0 <= Box.w a -> 0 <= Box.h a -> 0 <= Box.w b -> 0 <= Box.h b ->
  (apart a b -> ~ overlapReported (handleValidateLayout sc) a b)
  /\ (within a b -> 0 < Box.w b -> 0 < Box.h b ->
      overlapReported (handleValidateLayout sc) a b).
Proof.
  intros Hnd Ha Hb Hne Hta Htb Hwa Hha Hwb Hhb.
  pose proof (overlapReported_iff (collectBoxes sc) a b Hnd Ha Hb Hne Hta
                Htb Hwa Hha Hwb Hhb) as Hiff.
  pose proof (smallerArea_nonneg a b Hwa Hha Hwb Hhb) as Hs.
  split.
  - intros Hap Hrep. apply overlapReported_validate, Hiff in Hrep.
    rewrite (intersectionArea_apart a b Hap) in Hrep. lra.
  - intros Hin Hw Hh. apply overlapReported_validate, Hiff.
    rewrite (intersectionArea_within a b Hin Hwb Hhb).
    assert (Hle : smallerArea a b <= Box.w b * Box.h b).
    { unfold smallerArea.
      destruct (Math_min_cases (Box.w a * Box.h a) (Box.w b * Box.h b))
        as [[? ->] | [? ->]]; lra. }
    assert (0 < Box.w b * Box.h b) by nra. lra.
Qed.

Lemma overlap_apart_and_within_witness :
  overlapReported
    (handleValidateLayout
       [ shapeAt "A" 0 0 100 100 None; shapeAt "B" 10 10 20 20 None ])
    (Box.mk "A" "A" 0 0 100 100 SHAPE_WITH_TEXT)
    (Box.mk "B" "B" 10 10 20 20 SHAPE_WITH_TEXT).
Proof.
  apply (overlap_apart_and_within
           [ shapeAt "A" 0 0 100 100 None; shapeAt "B" 10 10 20 20 None ]
           (Box.mk "A" "A" 0 0 100 100 SHAPE_WITH_TEXT)
           (Box.mk "B" "B" 10 10 20 20 SHAPE_WITH_TEXT));
    try discriminate; try reflexivity.
  - repeat constructor; simpl; intuition discriminate.
  - left. reflexivity.
  - right. left. reflexivity.
  - unfold within. simpl. repeat split; discriminate.
Defined.

(** ** Connectors: direction and dangling endpoints *)










Lemma dangling_endpoints sc cn : dangling sc cn -> endpoints sc cn = None.
Proof.
  unfold dangling, endpoints. intros H.
  destruct (NodeType_eqb (type cn) CONNECTOR); [| reflexivity].
  destruct H as [H | [H | [(i & H1 & H2) | (i & H1 & H2)]]].
  - now rewrite H.
  - rewrite H. now destruct (connectorStart cn).
  - rewrite H1, H2. now destruct (connectorEnd cn).
  - rewrite H1, H2. destruct (connectorStart cn) as [j |]; [| reflexivity].
    now destruct (resolve sc j).
Qed.

Lemma throughShape_id sc boxes cn i :
  In i (throughShape sc boxes cn) -> elementId i = id cn.
Proof.
  unfold throughShape. destruct (endpoints sc cn) as [[s e] |];
    [| contradiction].
  rewrite in_flat_map. intros (bx & _ & H).
  now apply throughBox_In in H as (_ & _ & _ & _ & _ & ->).
Qed.

(** X4. A connector with a dangling endpoint (no endpoint node id, or an
    id that does not resolve) is skipped: the validator emits neither a
    tight_connector nor a connector_through_shape issue for it. *)
Theorem dangling_connector_skipped (sc : Scene) (cn : SceneNode) :
  NoDup (map id sc) -> In cn sc -> dangling sc cn ->
  ~ connectorReported (handleValidateLayout sc) cn.
Proof.
  intros Hnd Hcn Hd (i & Hi & Hty & Hid).
  apply dangling_endpoints in Hd. apply validate_In in Hi.
  destruct Hty as [Hty | Hty]; rewrite Hty in Hi.
  - apply tightIssues_In in Hi as (cn' & Hcn' & Hi).
    pose proof (tightConnector_id _ _ _ Hi) as Hid'. rewrite Hid in Hid'.
    rewrite <- (NoDup_map_inj id sc cn cn' Hnd Hcn Hcn' Hid') in Hi.
    unfold tightConnector in Hi. now rewrite Hd in Hi.
  - unfold throughIssues, findAll in Hi.
    apply in_flat_map in Hi as (cn' & Hcn' & Hi).
    pose proof (throughShape_id _ _ _ _ Hi) as Hid'. rewrite Hid in Hid'.
    rewrite <- (NoDup_map_inj id sc cn cn' Hnd Hcn Hcn' Hid') in Hi.
    unfold throughShape in Hi. now rewrite Hd in Hi.
Qed.

Lemma dangling_connector_skipped_witness :
  ~ connectorReported
      (handleValidateLayout
         [ shapeAt "A" 0 0 100 100 None; connectorAt "K" "A" "Z" None ])
      (connectorAt "K" "A" "Z" None).
Proof.
  apply (dangling_connector_skipped
           [ shapeAt "A" 0 0 100 100 None; connectorAt "K" "A" "Z" None ]
           (connectorAt "K" "A" "Z" None)).
  - repeat constructor; simpl; intuition discriminate.
  - right. left. reflexivity.
  - right. right. right. exists "Z"%string. split; reflexivity.
Defined.

(** ** Text truncation estimator: one line *)






(** * Further properties of auto-fit *)

Lemma fitSection_other sc p kids a :
  a <> p ->
  node (fst (fitSection sc p kids)) a = node (shiftChildren sc kids) a.
Proof.
  intros Hne. unfold fitSection.
  destruct (_ || _); cbn [fst]; [| reflexivity].
  apply node_update_other. congruence.
Qed.







Lemma reposition_children sc c a n p :
  node (reposition sc c) a = Some n -> parent n = Some p ->
  exists n0, node sc a = Some n0 /\ parent n0 = Some p.
Proof.
  intros Hn Hp. pose proof (reposition_fields sc c a) as F.
  rewrite Hn in F. destruct (node sc a) as [n0 |]; [| contradiction].
  destruct F as (F & _). apply frame_fields in F as (_ & _ & _ & F & _).
  exists n0. split; [reflexivity | congruence].
Qed.



Lemma fitParent_no_section st a :
  (forall n p sec, node (scene st) a = Some n -> parent n = Some p ->
     node (scene st) p = Some sec -> type sec <> SECTION) ->
  fitParent st a = st.
Proof.
  intros H. unfold fitParent.
  destruct (node (scene st) a) as [n |] eqn:En; [| reflexivity].
  destruct (parent n) as [p |] eqn:Ep; [| reflexivity].
  destruct (node (scene st) p) as [sec |] eqn:Es; [| reflexivity].
  specialize (H n p sec eq_refl Ep Es).
  apply NodeType_eqb_neq in H. now rewrite H.
Qed.

Lemma resizeParentSections_none sc nodes :
  noSectionParent sc nodes -> resizeParentSections sc nodes = (sc, []).
Proof.
  intros H. unfold resizeParentSections.
  assert (E : fold_left fitParent nodes (mkFit sc [] []) = mkFit sc [] []).
  { induction nodes as [| a l IH]; [reflexivity |]. cbn [fold_left].
    rewrite fitParent_no_section.
    - apply IH. intros b n p sec Hb. apply H. now right.
    - intros n p sec Hn Hp Hs. apply (H a n p sec); auto. now left. }
  now rewrite E.
Qed.

Lemma noSectionParent_reposition sc c nodes :
  noSectionParent sc nodes -> noSectionParent (reposition sc c) nodes.
Proof.
  intros H a n p sec Ha Hn Hp Hs.
  pose proof (reposition_fields sc c a) as Fa. rewrite Hn in Fa.
  pose proof (reposition_fields sc c p) as Fp. rewrite Hs in Fp.
  destruct (node sc a) as [n0 |] eqn:En0; [| contradiction].
  destruct (node sc p) as [sec0 |] eqn:Es0; [| contradiction].
  destruct Fa as (Fa & _), Fp as (Fp & _).
  apply frame_fields in Fa as (_ & _ & _ & Fa & _).
  apply frame_fields in Fp as (_ & _ & Fp & _).
  rewrite Fp. apply (H a n0 p sec0); auto. congruence.
Qed.

(** X7. When no resolved element has a Section as its parent (elements of
    the page), auto-fit changes nothing: an align call returns exactly the
    repositioned scene and a distribute call exactly the distributed one,
    both with an empty list of resized sections. *)
Theorem page_level_calls_skip_autofit
    (sc : Scene) (elementIds : list string) :
  noSectionParent sc (resolveNodes sc elementIds) ->
  (forall alignment,
     (2 <= List.length (resolveNodes sc elementIds))%nat ->
     handleAlignElements sc elementIds alignment
     = (alignNodes sc (resolveNodes sc elementIds) alignment,
        mkAligned (List.length (resolveNodes sc elementIds)) (Some [])))
  /\ (forall direction spacing,
        (3 <= List.length (resolveNodes sc elementIds))%nat ->
        let nodes := sortNodes sc (resolveNodes sc elementIds) direction in
        let minSpacing := match spacing with Some s => s | None => 60 end in
        handleDistributeElements sc elementIds direction spacing
        = (fst (distributeNodes sc nodes direction minSpacing),
           mkDistributed (List.length nodes)
             (Some (snd (distributeNodes sc nodes direction minSpacing)))
             (Some []))).
Proof.
  intros Hno. split.
  - intros al Hge. unfold handleAlignElements.
    assert (Hlt : (List.length (resolveNodes sc elementIds) <? 2)%nat = false)
      by (apply Nat.ltb_ge; lia).
    rewrite Hlt.
    pose proof (noSectionParent_reposition sc
                  (AlignElements elementIds al) _ Hno) as H.
    unfold reposition in H. rewrite Hlt in H.
    now rewrite (resizeParentSections_none _ _ H).
  - intros dir sp Hge nodes minSpacing. unfold handleDistributeElements.
    assert (Hlt : (List.length (resolveNodes sc elementIds) <? 3)%nat = false)
      by (apply Nat.ltb_ge; lia).
    rewrite Hlt. fold nodes minSpacing.
    assert (Hsorted : noSectionParent sc nodes).
    { intros a n p sec Ha. apply Hno. subst nodes.
      destruct dir; unfold sortNodes in Ha; now apply sortBy_In in Ha. }
    pose proof (noSectionParent_reposition sc
                  (DistributeElements elementIds dir sp) _ Hsorted) as H.
    unfold reposition in H. rewrite Hlt in H. fold nodes minSpacing in H.
    destruct (distributeNodes sc nodes dir minSpacing) as [sc1 gap].
    cbn [fst snd] in *.
    now rewrite (resizeParentSections_none _ _ H).
Qed.

Lemma page_level_calls_skip_autofit_witness :
  handleAlignElements threeOnPage ["a"; "b"; "c"]%string Alignment.left
  = (alignNodes threeOnPage (resolveNodes threeOnPage ["a"; "b"; "c"]%string)
       Alignment.left,
     mkAligned
       (List.length (resolveNodes threeOnPage ["a"; "b"; "c"]%string))
       (Some [])).
Proof.
  apply (page_level_calls_skip_autofit threeOnPage ["a"; "b"; "c"]%string).
  - intros a n p sec Ha Hn Hp. vm_compute in Ha.
    destruct Ha as [<- | [<- | [<- | []]]]; vm_compute in Hn;
      injection Hn as <-; discriminate.
  - vm_compute. lia.
Defined.

Lemma fitSection_flag sc p kids sec :
  NoDup kids -> node sc p = Some sec ->
  (exists sec',
     node (fst (fitSection sc p kids)) p = Some sec'
     /\ width sec <= width sec' /\ height sec <= height sec'
     /\ (snd (fitSection sc p kids) = true <->
         width sec < width sec' \/ height sec < height sec'))
  /\ (forall a n n', a <> p -> node sc a = Some n ->
        node (fst (fitSection sc p kids)) a = Some n' ->
        width n' = width n /\ height n' = height n).
Proof.
  intros Hnd Hp. split.
  - pose proof (shiftChildren_node sc kids p Hnd) as Hs. rewrite Hp in Hs.
    destruct (node (shiftChildren sc kids) p) as [sec1 |] eqn:Es1;
      [| contradiction].
    destruct Hs as (_ & Hw & Hh & _).
    unfold fitSection.
    set (newW := _ + SECTION_PADDING). set (newH := _ + SECTION_PADDING).
    clearbody newW newH.
    assert (Gw : get width (shiftChildren sc kids) p = width sec)
      by (unfold get; now rewrite Es1).
    assert (Gh : get height (shiftChildren sc kids) p = height sec)
      by (unfold get; now rewrite Es1).
    rewrite Gw, Gh.
    destruct (Qlt_le_dec (width sec) newW) as [Hlt | Hge]; simpl orb.
    + cbn [fst snd]. rewrite node_update_same, Es1. simpl.
      eexists. split; [reflexivity |]. simpl.
      destruct (Math_max_cases newW (width sec)) as [[? ->] | [? ->]];
        destruct (Math_max_cases newH (height sec)) as [[? ->] | [? ->]];
        repeat split; try lra; auto; left; lra.
    + destruct (Qlt_le_dec (height sec) newH) as [Hlt' | Hge']; cbn [fst snd].
      * rewrite node_update_same, Es1. simpl.
        eexists. split; [reflexivity |]. simpl.
        destruct (Math_max_cases newW (width sec)) as [[? ->] | [? ->]];
          destruct (Math_max_cases newH (height sec)) as [[? ->] | [? ->]];
          repeat split; try lra; auto; right; lra.
      * exists sec1. split; [exact Es1 |]. rewrite Hw, Hh.
        repeat split; try lra; try discriminate.
  - intros a n n' Hne Hn Hn'. rewrite fitSection_other in Hn' by assumption.
    pose proof (shiftChildren_node sc kids a Hnd) as Hs.
    rewrite Hn, Hn' in Hs. tauto.
Qed.

Lemma hasGrown_mono sc sc1 sc2 p :
  (forall a, match node sc1 a, node sc2 a with
             | Some n, Some n' => width n <= width n' /\ height n <= height n'
             | None, None => True
             | _, _ => False
             end) ->
  hasGrown sc sc1 p -> hasGrown sc sc2 p.
Proof.
  intros H (sec & sec1 & Hs & Hs1 & Hg). specialize (H p).
  rewrite Hs1 in H. destruct (node sc2 p) as [sec2 |] eqn:E;
    [| contradiction].
  exists sec, sec2. repeat split; auto. destruct Hg; [left | right]; lra.
Qed.

Lemma fitParent_resized sc st a :
  resizedInvariant sc st -> resizedInvariant sc (fitParent st a).
Proof.
  intros Hinv. pose proof Hinv as (Hnd & Hsub & Hin & Hall & Hmono).
  unfold fitParent.
  destruct (node (scene st) a) as [n1 |] eqn:En1; [| exact Hinv].
  destruct (parent n1) as [p |] eqn:Ep; [| exact Hinv].
  destruct (node (scene st) p) as [sec1 |] eqn:Es; [| exact Hinv].
  destruct (NodeType_eqb (type sec1) SECTION) eqn:Et; simpl negb; cbv iota;
    [| exact Hinv].
  apply NodeType_eqb_eq in Et.
  destruct (existsb (String.eqb (id sec1)) (visited st)) eqn:Ev;
    [exact Hinv |].
  apply existsb_eqb_false in Ev.
  pose proof (Hmono p) as Hp0. rewrite Es in Hp0.
  destruct (node sc p) as [sec0 |] eqn:Es0; [| contradiction].
  destruct Hp0 as (Fp & Wp & Hp).
  pose proof (frame_fields _ _ Fp) as (Fid & _ & Fty & _).
  destruct (map fst (children (scene st) (Some p))) as [| k ks] eqn:Ek.
  - repeat split; cbn [scene visited resized]; auto.
    intros i Hi. right. now apply Hsub.
  - rewrite <- Ek.
    pose proof (children_NoDup (scene st) (Some p)) as Hkn.
    pose proof (fitSection_spec (scene st) p _ Hkn) as (d & _ & Hspec).
    pose proof (fitSection_flag (scene st) p _ sec1 Hkn Es)
      as ((sec' & Es' & Ws & Hs & Hflag) & Hother).
    destruct (fitSection (scene st) p (map fst (children (scene st) (Some p))))
      as [sc' r] eqn:Ef.
    cbn [fst snd] in *.
    assert (Hstep : forall b,
              match node (scene st) b, node sc' b with
              | Some n, Some n' =>
                  width n <= width n' /\ height n <= height n'
              | None, None => True
              | _, _ => False
              end).
    { intros b. specialize (Hspec b).
      destruct (node (scene st) b), (node sc' b); try tauto.
      destruct Hspec as (_ & _ & _ & [[W H] | (_ & W & H)]);
        [rewrite W, H; split; lra | tauto]. }
    assert (Hmono' : forall b,
              match node sc b, node sc' b with
              | Some n, Some n' =>
                  frame n n' /\ width n <= width n' /\ height n <= height n'
              | None, None => True
              | _, _ => False
              end).
    { intros b. specialize (Hmono b). specialize (Hspec b).
      specialize (Hstep b).
      destruct (node sc b), (node (scene st) b); try tauto;
        destruct (node sc' b); try tauto.
      destruct Hmono as (F1 & W1 & H1), Hspec as (F2 & _), Hstep as (W2 & H2).
      split; [eapply frame_trans; eauto | split; lra]. }
    assert (Hold : forall q, hasGrown sc sc' q ->
              (q = p /\ r = true) \/ hasGrown sc (scene st) q).
    { intros q (s0 & s2 & Hq0 & Hq2 & Hg).
      destruct (Nat.eq_dec q p) as [-> | Hne].
      - destruct r.
        + now left.
        + right. rewrite Es0 in Hq0. injection Hq0 as <-.
          rewrite Es' in Hq2. injection Hq2 as <-.
          assert (Hnot : ~ (width sec1 < width sec'
                            \/ height sec1 < height sec')).
          { intros Hc. apply Hflag in Hc. discriminate. }
          exists sec0, sec1. repeat split; auto.
          destruct Hg; [left | right];
            (destruct (Qlt_le_dec (width sec1) (width sec'));
             [exfalso; tauto |]);
            (destruct (Qlt_le_dec (height sec1) (height sec'));
             [exfalso; tauto |]); lra.
      - right. pose proof (Hmono q) as Hq. rewrite Hq0 in Hq.
        destruct (node (scene st) q) as [s1 |] eqn:Eq1; [| contradiction].
        destruct (Hother q s1 s2 Hne Eq1 Hq2) as [W H].
        exists s0, s1. repeat split; auto. now rewrite <- W, <- H. }
    destruct r; cbn [scene visited resized].
    + split; [| split; [| split; [| split]]].
      * apply NoDup_app; [exact Hnd | repeat constructor; auto |].
        intros i Hi [<- | []]. apply Ev. now apply Hsub.
      * intros i Hi. apply in_app_iff in Hi as [Hi | [<- | []]];
          [right; now apply Hsub | now left].
      * intros i Hi. apply in_app_iff in Hi as [Hi | [<- | []]].
        -- destruct (Hin i Hi) as (q & sq & Hq & Hid & Hty & Hg).
           exists q, sq. repeat split; auto.
           eapply hasGrown_mono; [exact Hstep | exact Hg].
        -- exists p, sec0. repeat split; auto; try congruence.
           exists sec0, sec'. repeat split; auto.
           destruct (proj1 Hflag eq_refl); [left | right]; lra.
      * intros q Hq. destruct (Hold q Hq) as [[-> _] | Hg].
        -- exists sec0. split; [exact Es0 |]. apply in_app_iff. right.
           left. congruence.
        -- destruct (Hall q Hg) as (sq & Hsq & Hi). exists sq.
           split; [exact Hsq |]. apply in_app_iff. now left.
      * exact Hmono'.
    + split; [exact Hnd |]. split; [| split; [| split]].
      * intros i Hi. right. now apply Hsub.
      * intros i Hi. destruct (Hin i Hi) as (q & sq & Hq & Hid & Hty & Hg).
        exists q, sq. repeat split; auto.
        eapply hasGrown_mono; [exact Hstep | exact Hg].
      * intros q Hq. destruct (Hold q Hq) as [[_ Hr] | Hg];
          [discriminate | now apply Hall].
      * exact Hmono'.
Qed.

(** X8. The list of resized sections returned by auto-fit holds each id at
    most once, and a node's id is in it exactly when the node has grown in
    width or height; every listed id is the id of a Section. *)
Theorem resized_sections_are_those_grown
    (sc : Scene) (nodes : list nat) :
  NoDup (snd (resizeParentSections sc nodes))
  /\ (forall p sec, node sc p = Some sec ->
        hasGrown sc (fst (resizeParentSections sc nodes)) p ->
        In (id sec) (snd (resizeParentSections sc nodes)))
  /\ (forall i, In i (snd (resizeParentSections sc nodes)) ->
        exists p sec,
          node sc p = Some sec /\ id sec = i /\ type sec = SECTION
          /\ hasGrown sc (fst (resizeParentSections sc nodes)) p).
Proof.
  unfold resizeParentSections. cbn [fst snd].
  assert (H : forall l st, resizedInvariant sc st ->
            resizedInvariant sc (fold_left fitParent l st)).
  { induction l as [| a l IH]; intros st Hinv; [exact Hinv |].
    cbn [fold_left]. apply IH. now apply fitParent_resized. }
  assert (H0 : resizedInvariant sc (mkFit sc [] [])).
  { split; [constructor |]. split; [intros i [] |].
    split; [intros i [] |]. split.
    - intros p (s0 & s1 & E0 & E1 & Hg). cbn [scene] in E1.
      rewrite E0 in E1. injection E1 as <-. destruct Hg; lra.
    - intros a. cbn [scene]. destruct (node sc a); [| exact I].
      split; [apply frame_refl | split; lra]. }
  destruct (H nodes _ H0) as (Hnd & _ & Hin & Hall & _).
  split; [exact Hnd |]. split; [| exact Hin].
  intros p sec Hp Hg. destruct (Hall p Hg) as (sec0 & Hs0 & Hi).
  congruence.
Qed.

(** * Further properties of distribution *)

Lemma insertBy_perm key a l : Permutation (insertBy key a l) (a :: l).
Proof.
  induction l as [| b l IH]; simpl; [reflexivity |].
  destruct (Qlt_le_dec (key a) (key b)); [reflexivity |].
  rewrite IH. apply perm_swap.
Qed.

Lemma sortBy_perm key l : Permutation (sortBy key l) l.
Proof.
  unfold sortBy.
  assert (H : forall l acc,
            Permutation (fold_left (fun acc a => insertBy key a acc) l acc)
              (acc ++ l)%list).
  { clear l. induction l as [| a l IH]; intros acc; simpl.
    - now rewrite app_nil_r.
    - rewrite IH, insertBy_perm. apply Permutation_middle. }
  apply (H l []).
Qed.



Lemma fold_plus_shift (g : nat -> number) l : forall s,
  fold_left (fun s a => s + g a) l s
  == s + fold_left (fun s a => s + g a) l 0.
Proof.
  induction l as [| a l IH]; intros s; simpl; [ring |].
  rewrite (IH (s + g a)), (IH (0 + g a)). ring.
Qed.

Lemma sumOf_cons f sc a l :
  sumOf f sc (a :: l) == get f sc a + sumOf f sc l.
Proof.
  unfold sumOf. simpl. rewrite fold_plus_shift. ring.
Qed.

Lemma sumOf_app f sc l1 l2 :
  sumOf f sc (l1 ++ l2) == sumOf f sc l1 + sumOf f sc l2.
Proof.
  induction l1 as [| a l1 IH]; simpl.
  - unfold sumOf at 2. simpl. ring.
  - rewrite !sumOf_cons, IH. ring.
Qed.

Lemma count_cons a l : count (a :: l) == 1 + count l.
Proof.
  unfold count. cbn [List.length]. rewrite Nat2Z.inj_succ.
  unfold Z.succ. rewrite inject_Z_plus. change (inject_Z 1) with 1. ring.
Qed.

Lemma count_app l1 l2 : count (l1 ++ l2) == count l1 + count l2.
Proof.
  unfold count. rewrite length_app, Nat2Z.inj_add, inject_Z_plus.
  reflexivity.
Qed.

Lemma advance_cons size gap sc a l :
  advance size gap sc (a :: l)
  == get size sc a + gap + advance size gap sc l.
Proof. unfold advance. rewrite sumOf_cons, count_cons. ring. Qed.

Section Placement.
Variable set : number -> SceneNode -> SceneNode.
Variable size coord : SceneNode -> number.
Hypothesis coord_set : forall v n, coord (set v n) = v.
Hypothesis size_set : forall v n, size (set v n) = size n.

Lemma get_size_update v a sc b :
  get size (update (set v) a sc) b = get size sc b.
Proof.
  unfold get. rewrite node_update.
  destruct (Nat.eqb a b); destruct (node sc b); simpl;
    now rewrite ?size_set.
Qed.

Lemma sumOf_size_update v a sc l :
  sumOf size (update (set v) a sc) l = sumOf size sc l.
Proof.
  unfold sumOf. generalize 0.
  induction l as [| b l IH]; intros s; simpl; [reflexivity |].
  now rewrite get_size_update, IH.
Qed.

(** Closed form of the placement loop: each node sits at the start
    coordinate advanced over the nodes before it. *)
Lemma placeAll_position gap l : forall first sc l1 b l2,
  NoDup l -> (forall a, In a l -> exists n, node sc a = Some n) ->
  l = (l1 ++ b :: l2)%list ->
  get coord (fst (placeAll set size gap l first sc)) b
  == first + advance size gap sc l1.
Proof.
  induction l as [| a0 l IH]; intros first sc l1 b l2 Hnd Hvalid E.
  - now destruct l1.
  - inversion Hnd as [| ? ? Hnotin Hnd']; subst.
    destruct (Hvalid a0 (or_introl eq_refl)) as (n0 & Hn0).
    rewrite placeAll_cons.
    destruct l1 as [| c l1]; simpl in E; injection E as <- ->.
    + unfold get. rewrite placeAll_untouched by assumption.
      rewrite node_update_same, Hn0. simpl. rewrite coord_set.
      unfold advance, sumOf, count. simpl. ring.
    + assert (Hvalid' : forall a, In a (l1 ++ b :: l2) ->
                exists n, node (update (set first) a0 sc) a = Some n).
      { intros a Ha. destruct (Hvalid a (or_intror Ha)) as (n & Hn).
        rewrite node_update. destruct (Nat.eqb a0 a); rewrite Hn; simpl;
          eauto. }
      rewrite (IH _ _ l1 b l2 Hnd' Hvalid' eq_refl).
      rewrite advance_cons. unfold advance.
      rewrite sumOf_size_update, get_size_update. ring.
Qed.
End Placement.


Lemma sumOf_nonneg f sc l :
  (forall a, In a l -> 0 <= get f sc a) -> 0 <= sumOf f sc l.
Proof.
  induction l as [| a l IH]; intros H.
  - unfold sumOf. simpl. lra.
  - rewrite sumOf_cons.
    assert (0 <= get f sc a) by (apply H; now left).
    assert (0 <= sumOf f sc l) by (apply IH; intros; apply H; now right).
    lra.
Qed.

Lemma count_nonneg l : 0 <= count l.
Proof.
  unfold count. change 0 with (inject_Z 0). rewrite <- Zle_Qle. lia.
Qed.

Lemma advance_nonneg size gap sc l :
  (forall a, In a l -> 0 <= get size sc a) -> 0 <= gap ->
  0 <= advance size gap sc l.
Proof.
  intros Hs Hg. unfold advance.
  pose proof (sumOf_nonneg size sc l Hs). pose proof (count_nonneg l).
  nra.
Qed.

Lemma advance_app size gap sc l1 l2 :
  advance size gap sc (l1 ++ l2)
  == advance size gap sc l1 + advance size gap sc l2.
Proof. unfold advance. rewrite sumOf_app, count_app. ring. Qed.





Section Separation.
Variable set : number -> SceneNode -> SceneNode.
Variable size coord : SceneNode -> number.
Hypothesis coord_set : forall v n, coord (set v n) = v.
Hypothesis size_set : forall v n, size (set v n) = size n.

(** An element placed later starts no earlier than the end of an earlier
    one plus the gap. *)
Lemma placeAll_separated gap l first sc l1 a l2 b l3 :
  NoDup l -> (forall k, In k l -> exists n, node sc k = Some n) ->
  l = (l1 ++ a :: l2 ++ b :: l3)%list ->
  (forall k, In k l -> 0 <= get size sc k) -> 0 <= gap ->
  get coord (fst (placeAll set size gap l first sc)) a + get size sc a + gap
  <= get coord (fst (placeAll set size gap l first sc)) b.
Proof.
  intros Hnd Hvalid E Hsize Hgap.
  pose proof (placeAll_position set size coord coord_set size_set gap l first
                sc l1 a (l2 ++ b :: l3) Hnd Hvalid E) as Ha.
  assert (E' : l = ((l1 ++ a :: l2) ++ b :: l3)%list)
    by (rewrite E, <- app_assoc; reflexivity).
  pose proof (placeAll_position set size coord coord_set size_set gap l first
                sc (l1 ++ a :: l2) b l3 Hnd Hvalid E') as Hb.
  rewrite Ha, Hb, advance_app, advance_cons.
  assert (0 <= advance size gap sc l2).
  { apply advance_nonneg; [| exact Hgap]. intros k Hk. apply Hsize.
    rewrite E. apply in_or_app. right. right. apply in_or_app. now left. }
  lra.
Qed.
End Separation.

Lemma in_split_two {A} (l : list A) a b :
  In a l -> In b l -> a <> b ->
  (exists l1 l2 l3, l = (l1 ++ a :: l2 ++ b :: l3)%list)
  \/ (exists l1 l2 l3, l = (l1 ++ b :: l2 ++ a :: l3)%list).
Proof.
  intros Ha Hb Hne. apply in_split in Ha as (l1 & l2 & ->).
  apply in_app_or in Hb as [Hb | [Hb | Hb]]; [| congruence |].
  - right. apply in_split in Hb as (m1 & m2 & ->).
    exists m1, m2, l2. now rewrite <- app_assoc.
  - left. apply in_split in Hb as (m1 & m2 & ->). now exists l1, m1, m2.
Qed.

Lemma node_id_inj sc a b n m :
  NoDup (map id sc) -> node sc a = Some n -> node sc b = Some m ->
  id n = id m -> a = b.
Proof.
  intros Hnd Ha Hb E. unfold node in *.
  apply (proj1 (NoDup_nth_error (map id sc)) Hnd).
  - rewrite length_map. apply nth_error_Some. congruence.
  - rewrite !nth_error_map, Ha, Hb. simpl. now rewrite E.
Qed.

Lemma findFrom_None sc i : forall k,
  findFrom k sc i = None -> forall n, In n sc -> id n <> i.
Proof.
  induction sc as [| m sc IH]; intros k H n Hn; [contradiction |].
  simpl in H. destruct (String.eqb_spec (id m) i) as [E | E];
    [discriminate |].
  destruct Hn as [<- | Hn]; [exact E | now apply (IH (S k))].
Qed.

Lemma findNodeById_complete sc a n :
  NoDup (map id sc) -> node sc a = Some n ->
  findNodeById sc (id n) = Some a.
Proof.
  intros Hnd Hn.
  destruct (findNodeById sc (id n)) as [b |] eqn:E.
  - apply findNodeById_Some in E as (m & Hm & Hid).
    f_equal. apply (node_id_inj sc b a m n Hnd Hm Hn Hid).
  - exfalso. apply (findFrom_None sc (id n) 0%nat E n); [| reflexivity].
    now apply node_In in Hn.
Qed.

Lemma resolveNodes_In sc ids a :
  In a (resolveNodes sc ids) <->
  exists i, In i ids /\ findNodeById sc i = Some a.
Proof.
  unfold resolveNodes. rewrite in_flat_map. split; intros (i & Hi & H);
    exists i; (split; [exact Hi |]).
  - destruct (findNodeById sc i) as [b |]; [| contradiction].
    destruct H as [<- | []]. reflexivity.
  - rewrite H. now left.
Qed.

Lemma resolveNodes_NoDup sc ids : NoDup ids -> NoDup (resolveNodes sc ids).
Proof.
  induction ids as [| i ids IH]; intros Hnd; [constructor |].
  inversion Hnd as [| ? ? Hnotin Hnd']; subst.
  change (resolveNodes sc (i :: ids))
    with ((match findNodeById sc i with Some a => [a] | None => [] end)
          ++ resolveNodes sc ids)%list.
  destruct (findNodeById sc i) as [a |] eqn:E; [| now apply IH].
  simpl. constructor; [| now apply IH].
  intros Hin. apply resolveNodes_In in Hin as (j & Hj & Ej).
  apply findNodeById_Some in E as (n & Hn & Hid).
  apply findNodeById_Some in Ej as (m & Hm & Hjd).
  rewrite Hn in Hm. injection Hm as <-. congruence.
Qed.

Lemma run_page sc c :
  noSectionParent sc (moved sc c) -> run sc c = reposition sc c.
Proof.
  intros H. rewrite run_reposition.
  now rewrite (resizeParentSections_none _ _
                 (noSectionParent_reposition sc c _ H)).
Qed.

Lemma reposition_ids sc c : map id (reposition sc c) = map id sc.
Proof.
  apply nth_error_ext. intros k. rewrite !nth_error_map.
  pose proof (reposition_fields sc c k) as H. unfold node in H.
  destruct (nth_error sc k) as [n |],
    (nth_error (reposition sc c) k) as [n' |]; try tauto.
  destruct H as [H _]. apply frame_fields in H as [H _]. simpl.
  now rewrite H.
Qed.

Lemma apart_not_reported boxes a b :
  NoDup (map Box.id boxes) -> In a boxes -> In b boxes -> apart a b ->
  ~ overlapReported (overlapIssues boxes) a b.
Proof.
  intros Hnd Ha Hb Hap (i & Hi & _ & Hids).
  apply overlapIssues_In in Hi as (a' & b' & Hbef & Hi).
  apply before_In in Hbef as [Ha' Hb'].
  apply overlapPair_In in Hi as [Hc ->]. simpl in Hids.
  destruct Hc as (_ & _ & H1 & H2 & H3 & H4 & _).
  unfold apart in Hap.
  destruct Hids as [[Ea Eb] | [Ea Eb]]; injection Eb as Eb.
  - apply (NoDup_map_inj _ _ _ _ Hnd Ha' Ha) in Ea.
    apply (NoDup_map_inj _ _ _ _ Hnd Hb' Hb) in Eb. subst. lra.
  - apply (NoDup_map_inj _ _ _ _ Hnd Ha' Hb) in Ea.
    apply (NoDup_map_inj _ _ _ _ Hnd Hb' Ha) in Eb. subst. lra.
Qed.

(** X10. Distribution followed by validation: after distributing elements
    of the page (distinct ids, non-negative sizes) with a non-negative
    spacing, any two of the distributed elements lie apart on the axis of
    the distribution, so the validator reports no overlap between them. *)
Theorem distribute_removes_overlap
    (sc : Scene) (elementIds : list string) (direction : Direction)
    (spacing : option number) (a b : Box.t) :
  NoDup (map id sc) -> NoDup elementIds ->
  (forall k n, In k (resolveNodes sc elementIds) -> node sc k = Some n ->
     parent n = None /\ 0 <= width n /\ 0 <= height n) ->
  (3 <= List.length (resolveNodes sc elementIds))%nat ->
  0 <= match spacing with Some s => s | None => 60 end ->
  In a (collectBoxes
          (fst (handleDistributeElements sc elementIds direction spacing))) ->
  In b (collectBoxes
          (fst (handleDistributeElements sc elementIds direction spacing))) ->
  In (Box.id a) elementIds -> In (Box.id b) elementIds ->
  Box.id a <> Box.id b ->
  apart a b
  /\ ~ overlapReported
         (handleValidateLayout
            (fst (handleDistributeElements sc elementIds direction spacing)))
         a b.
Proof.
  intros Hids Hnd Hpage Hlen Hsp Ha Hb Hia Hib Hne.
  set (c := DistributeElements elementIds direction spacing).
  change (fst (handleDistributeElements sc elementIds direction spacing))
    with (run sc c) in *.
  assert (Hlt : (List.length (resolveNodes sc elementIds) <? 3)%nat = false)
    by (apply Nat.ltb_ge; lia).
  assert (Hmoved : moved sc c
                   = sortNodes sc (resolveNodes sc elementIds) direction).
  { unfold c, moved. now rewrite Hlt. }
  assert (Hin : forall k, In k (moved sc c)
                          <-> In k (resolveNodes sc elementIds)).
  { intros k. rewrite Hmoved. destruct direction; apply sortBy_In. }
  assert (Hno : noSectionParent sc (moved sc c)).
  { intros k n p sec Hk Hn Hp. apply Hin in Hk.
    destruct (Hpage k n Hk Hn) as [Hp' _]. congruence. }
  rewrite (run_page sc c Hno) in *.
  assert (Hids' : NoDup (map id (reposition sc c)))
    by (now rewrite reposition_ids).
  assert (Hap : apart a b).
  { assert (Haddr : forall bx,
              In bx (collectBoxes (reposition sc c)) ->
              In (Box.id bx) elementIds ->
              exists k n n', In k (moved sc c) /\ node sc k = Some n
                /\ node (reposition sc c) k = Some n'
                /\ Box.id bx = id n /\ Box.x bx = x n' /\ Box.y bx = y n'
                /\ Box.w bx = width n /\ Box.h bx = height n).
    { intros bx Hbx Hi.
      apply collectBoxes_In in Hbx as (n' & Hn' & _ & _ & ->).
      apply In_nth_error in Hn' as (k & Hk). fold (node (reposition sc c) k) in Hk.
      pose proof (reposition_fields sc c k) as F. rewrite Hk in F.
      destruct (node sc k) as [n |] eqn:En; [| contradiction].
      destruct F as (F & Fw & Fh). apply frame_fields in F as (Fid & _).
      simpl in Hi. rewrite Fid in Hi.
      exists k, n, n'. simpl. repeat split; auto.
      apply Hin, resolveNodes_In. exists (id n). split; [exact Hi |].
      now apply findNodeById_complete. }
    destruct (Haddr a Ha Hia)
      as (ka & na & na' & Hka & Ena & Ena' & Ia & Xa & Ya & Wa & Ha').
    destruct (Haddr b Hb Hib)
      as (kb & nb & nb' & Hkb & Enb & Enb' & Ib & Xb & Yb & Wb & Hb').
    assert (Hk : ka <> kb) by (intros ->; congruence).
    set (minSpacing := match spacing with Some s => s | None => 60 end) in *.
    assert (Hrep : reposition sc c
                   = fst (distributeNodes sc (moved sc c) direction
                            minSpacing)).
    { unfold c at 1, reposition. rewrite Hlt, Hmoved. reflexivity. }
    assert (Hnd' : NoDup (moved sc c)).
    { rewrite Hmoved.
      apply (Permutation_NoDup
               (l := resolveNodes sc elementIds)).
      - symmetry. destruct direction; apply sortBy_perm.
      - now apply resolveNodes_NoDup. }
    assert (Hvalid : forall k, In k (moved sc c) ->
                       exists n, node sc k = Some n).
    { intros k Hk'. apply Hin in Hk'. eapply resolveNodes_valid; eauto. }
    assert (Hsize : forall k, In k (moved sc c) ->
                      0 <= get width sc k /\ 0 <= get height sc k).
    { intros k Hk'. destruct (Hvalid k Hk') as (n & Hn). unfold get.
      rewrite Hn. apply Hin in Hk'.
      destruct (Hpage k n Hk' Hn) as (_ & ? & ?). now split. }
    assert (Gx : forall k n', node (reposition sc c) k = Some n' ->
                   get x (reposition sc c) k = x n'
                   /\ get y (reposition sc c) k = y n')
      by (intros k n' Hn'; unfold get; now rewrite Hn').
    assert (Gw : forall k n, node sc k = Some n ->
                   get width sc k = width n /\ get height sc k = height n)
      by (intros k n Hn; unfold get; now rewrite Hn).
    destruct (Gx ka na' Ena') as [Gxa Gya], (Gx kb nb' Enb') as [Gxb Gyb].
    destruct (Gw ka na Ena) as [Gwa Gha], (Gw kb nb Enb) as [Gwb Ghb].
    unfold apart. rewrite Xa, Xb, Ya, Yb, Wa, Wb, Ha', Hb'.
    rewrite <- Gxa, <- Gxb, <- Gya, <- Gyb, <- Gwa, <- Gwb, <- Gha, <- Ghb.
    rewrite Hrep. clear Gxa Gxb Gya Gyb Gwa Gwb Gha Ghb.
    destruct direction; unfold distributeNodes; cbn [fst].
    - set (gap := Math_max _ minSpacing).
      assert (Hgap : 0 <= gap)
        by (pose proof (Math_max_ge_r
                          (((get rightEdge sc (last (moved sc c) 0%nat)
                             - get x sc (hd 0%nat (moved sc c)))
                            - sumOf width sc (moved sc c))
                           / (count (moved sc c) - 1)) minSpacing);
            subst gap; lra).
      destruct (in_split_two (moved sc c) ka kb Hka Hkb Hk)
        as [(l1 & l2 & l3 & E) | (l1 & l2 & l3 & E)].
      + pose proof (placeAll_separated setX width x (fun _ _ => eq_refl)
                      (fun _ _ => eq_refl) gap (moved sc c)
                      (get x sc (hd 0%nat (moved sc c))) sc l1 ka l2 kb l3
                      Hnd' Hvalid E (fun k Hk' => proj1 (Hsize k Hk')) Hgap).
        right. left. lra.
      + pose proof (placeAll_separated setX width x (fun _ _ => eq_refl)
                      (fun _ _ => eq_refl) gap (moved sc c)
                      (get x sc (hd 0%nat (moved sc c))) sc l1 kb l2 ka l3
                      Hnd' Hvalid E (fun k Hk' => proj1 (Hsize k Hk')) Hgap).
        left. lra.
    - set (gap := Math_max _ minSpacing).
      assert (Hgap : 0 <= gap)
        by (pose proof (Math_max_ge_r
                          (((get bottomEdge sc (last (moved sc c) 0%nat)
                             - get y sc (hd 0%nat (moved sc c)))
                            - sumOf height sc (moved sc c))
                           / (count (moved sc c) - 1)) minSpacing);
            subst gap; lra).
      destruct (in_split_two (moved sc c) ka kb Hka Hkb Hk)
        as [(l1 & l2 & l3 & E) | (l1 & l2 & l3 & E)].
      + pose proof (placeAll_separated setY height y (fun _ _ => eq_refl)
                      (fun _ _ => eq_refl) gap (moved sc c)
                      (get y sc (hd 0%nat (moved sc c))) sc l1 ka l2 kb l3
                      Hnd' Hvalid E (fun k Hk' => proj2 (Hsize k Hk')) Hgap).
        right. right. right. lra.
      + pose proof (placeAll_separated setY height y (fun _ _ => eq_refl)
                      (fun _ _ => eq_refl) gap (moved sc c)
                      (get y sc (hd 0%nat (moved sc c))) sc l1 kb l2 ka l3
                      Hnd' Hvalid E (fun k Hk' => proj2 (Hsize k Hk')) Hgap).
        right. right. left. lra. }
  split; [exact Hap |].
  intros Hrep. apply overlapReported_validate in Hrep.
  revert Hrep. apply apart_not_reported; auto.
  now apply collectBoxes_NoDup.
Qed.

Lemma distribute_removes_overlap_witness :
  apart (Box.mk "a" "a" 0 0 50 50 SHAPE_WITH_TEXT)
        (Box.mk "b" "b" 110 0 50 50 SHAPE_WITH_TEXT)
  /\ ~ overlapReported
         (handleValidateLayout
            (fst (handleDistributeElements (threeAt 0 20 40)
                    ["a"; "b"; "c"]%string horizontal (Some 60))))
         (Box.mk "a" "a" 0 0 50 50 SHAPE_WITH_TEXT)
         (Box.mk "b" "b" 110 0 50 50 SHAPE_WITH_TEXT).
Proof.
  apply (distribute_removes_overlap (threeAt 0 20 40)
           ["a"; "b"; "c"]%string horizontal (Some 60)).
  - repeat constructor; simpl; intuition discriminate.
  - repeat constructor; simpl; intuition discriminate.
  - intros k n Hk Hn. vm_compute in Hk.
    destruct Hk as [<- | [<- | [<- | []]]]; vm_compute in Hn;
      injection Hn as <-; simpl; repeat split; discriminate.
  - vm_compute. lia.
  - discriminate.
  - vm_compute. left. reflexivity.
  - vm_compute. right. left. reflexivity.
  - simpl. tauto.
  - simpl. tauto.
  - discriminate.
Defined.




(** * Colours *)

Lemma hexDigit_facts c d :
  hexDigit c = Some d ->
  isWhiteSpace c = false /\ Ascii.eqb c "-" = false
  /\ Ascii.eqb c "+" = false /\ Ascii.eqb c "x" = false
  /\ Ascii.eqb c "X" = false /\ Ascii.eqb c "#" = false
  /\ (0 <= d <= 15)%Z.
Proof.
  destruct c as [[] [] [] [] [] [] [] []]; vm_compute; intros H;
    try discriminate; injection H as <-; repeat split; discriminate.
Qed.

Lemma parseInt16_two c1 c2 d1 d2 :
  hexDigit c1 = Some d1 -> hexDigit c2 = Some d2 ->
  parseInt16 (String c1 (String c2 EmptyString)) = Some (16 * d1 + d2)%Z.
Proof.
  intros H1 H2.
  destruct (hexDigit_facts c1 d1 H1) as (W1 & M1 & P1 & _).
  destruct (hexDigit_facts c2 d2 H2) as (_ & _ & _ & x2 & X2 & _).
  unfold parseInt16. cbn [trimStart]. rewrite W1. cbn [fst snd].
  rewrite M1, P1. cbn [fst snd]. rewrite x2, X2.
  rewrite andb_false_r. cbn [digits16]. rewrite H1, H2. cbn [option_map].
  f_equal. lia.
Qed.

Lemma byteOf_range d1 d2 :
  (0 <= d1 <= 15)%Z -> (0 <= d2 <= 15)%Z -> 0 <= byteOf d1 d2 <= 1.
Proof.
  intros H1 H2. unfold byteOf.
  assert (0 <= inject_Z (16 * d1 + d2)).
  { change 0 with (inject_Z 0). rewrite <- Zle_Qle. lia. }
  assert (inject_Z (16 * d1 + d2) <= 255).
  { change 255 with (inject_Z 255). rewrite <- Zle_Qle. lia. }
  split.
  - apply Qle_shift_div_l; lra.
  - apply Qle_shift_div_r; lra.
Qed.

Lemma substring_short n m s :
  (String.length s <= n)%nat -> substring n m s = EmptyString.
Proof.
  revert s. induction n as [| n IH]; intros s H.
  - destruct s; simpl in H; [| lia]. now destruct m.
  - destruct s as [| c s]; [reflexivity |]. simpl in *. apply IH. lia.
Qed.

Lemma channels_of_prefix c1 c2 c3 c4 c5 c6 d1 d2 d3 d4 d5 d6 rest :
  hexDigit c1 = Some d1 -> hexDigit c2 = Some d2 ->
  hexDigit c3 = Some d3 -> hexDigit c4 = Some d4 ->
  hexDigit c5 = Some d5 -> hexDigit c6 = Some d6 ->
  let h := String c1 (String c2 (String c3 (String c4 (String c5
             (String c6 rest))))) in
  RGB.mk (channel (substring 0 2 h)) (channel (substring 2 2 h))
    (channel (substring 4 2 h))
  = RGB.mk (Some (byteOf d1 d2)) (Some (byteOf d3 d4)) (Some (byteOf d5 d6)).
Proof.
  intros H1 H2 H3 H4 H5 H6 h. unfold h. cbn [substring]. unfold channel.
  assert (Hsub : forall t, substring 0 0 t = EmptyString)
    by (now destruct t).
  rewrite ?Hsub.
  rewrite (parseInt16_two _ _ _ _ H1 H2), (parseInt16_two _ _ _ _ H3 H4),
    (parseInt16_two _ _ _ _ H5 H6).
  reflexivity.
Qed.

Lemma removeHash_six c1 c2 c3 c4 c5 c6 d1 d2 d3 d4 d5 d6 rest :
  hexDigit c1 = Some d1 -> hexDigit c2 = Some d2 ->
  hexDigit c3 = Some d3 -> hexDigit c4 = Some d4 ->
  hexDigit c5 = Some d5 -> hexDigit c6 = Some d6 ->
  removeHash (String c1 (String c2 (String c3 (String c4 (String c5
                (String c6 rest))))))
  = String c1 (String c2 (String c3 (String c4 (String c5
      (String c6 (removeHash rest)))))).
Proof.
  intros H1 H2 H3 H4 H5 H6.
  destruct (hexDigit_facts _ _ H1) as (_ & _ & _ & _ & _ & N1 & _).
  destruct (hexDigit_facts _ _ H2) as (_ & _ & _ & _ & _ & N2 & _).
  destruct (hexDigit_facts _ _ H3) as (_ & _ & _ & _ & _ & N3 & _).
  destruct (hexDigit_facts _ _ H4) as (_ & _ & _ & _ & _ & N4 & _).
  destruct (hexDigit_facts _ _ H5) as (_ & _ & _ & _ & _ & N5 & _).
  destruct (hexDigit_facts _ _ H6) as (_ & _ & _ & _ & _ & N6 & _).
  cbn [removeHash]. now rewrite N1, N2, N3, N4, N5, N6.
Qed.

(** X12. A string of six hexadecimal digits, with or without a leading
    [#] and whatever follows the sixth digit, is converted to the three
    channels (16 * d1 + d2) / 255 of its digit pairs, each within [0, 1].
    A string with fewer than five characters after the [#] is not
    expanded: its blue channel is NaN, so a colour with three defined
    channels has at least five characters. *)
Theorem hexToRgb_six_digits
    (c1 c2 c3 c4 c5 c6 : ascii) (d1 d2 d3 d4 d5 d6 : Z) (rest : string) :
  hexDigit c1 = Some d1 -> hexDigit c2 = Some d2 ->
  hexDigit c3 = Some d3 -> hexDigit c4 = Some d4 ->
  hexDigit c5 = Some d5 -> hexDigit c6 = Some d6 ->
  let s := String c1 (String c2 (String c3 (String c4 (String c5
             (String c6 rest))))) in
  hexToRgb s
  = RGB.mk (Some (byteOf d1 d2)) (Some (byteOf d3 d4)) (Some (byteOf d5 d6))
  /\ hexToRgb (String "#" s) = hexToRgb s
  /\ validRGB (hexToRgb s)
  /\ (forall hex, (String.length (removeHash hex) < 5)%nat ->
        RGB.b (hexToRgb hex) = None /\ ~ validRGB (hexToRgb hex)).
Proof.
  intros H1 H2 H3 H4 H5 H6 s.
  assert (E : hexToRgb s
              = RGB.mk (Some (byteOf d1 d2)) (Some (byteOf d3 d4))
                  (Some (byteOf d5 d6))).
  { unfold hexToRgb, s.
    rewrite (removeHash_six _ _ _ _ _ _ _ _ _ _ _ _ rest H1 H2 H3 H4 H5 H6).
    now apply channels_of_prefix. }
  assert (E' : hexToRgb (String "#" s) = hexToRgb s).
  { rewrite E. unfold hexToRgb, s. cbn [removeHash Ascii.eqb].
    now apply channels_of_prefix. }
  split; [exact E |]. split; [exact E' |]. split.
  - rewrite E.
    destruct (hexDigit_facts _ _ H1) as (_ & _ & _ & _ & _ & _ & R1).
    destruct (hexDigit_facts _ _ H2) as (_ & _ & _ & _ & _ & _ & R2).
    destruct (hexDigit_facts _ _ H3) as (_ & _ & _ & _ & _ & _ & R3).
    destruct (hexDigit_facts _ _ H4) as (_ & _ & _ & _ & _ & _ & R4).
    destruct (hexDigit_facts _ _ H5) as (_ & _ & _ & _ & _ & _ & R5).
    destruct (hexDigit_facts _ _ H6) as (_ & _ & _ & _ & _ & _ & R6).
    repeat split; eexists; (split; [reflexivity |]);
      now apply byteOf_range.
  - intros hex Hlen.
    assert (Eb : RGB.b (hexToRgb hex) = None).
    { unfold hexToRgb. cbn [RGB.b].
      rewrite substring_short by lia. reflexivity. }
    split; [exact Eb |]. intros (_ & _ & v & Hv & _). congruence.
Qed.

Lemma hexToRgb_six_digits_witness :
  hexToRgb "C2E5FF"
  = RGB.mk (Some (byteOf 12 2)) (Some (byteOf 14 5)) (Some (byteOf 15 15)).
Proof.
  apply (hexToRgb_six_digits "C" "2" "E" "5" "F" "F" 12 2 14 5 15 15
           EmptyString); reflexivity.
Defined.

(** X13. Every preset of the colour table resolves to the conversion of
    its own hexadecimal string, which has three defined channels within
    [0, 1]; the preset names are pairwise distinct, and a name that is
    neither a preset nor an inherited property name is converted as a
    hexadecimal string itself. *)
Theorem presets_resolve_to_valid_colours :
  (forall name hex, In (name, hex) FIGJAM_COLORS ->
     resolveColor name = inr (hexToRgb hex) /\ validRGB (hexToRgb hex))
  /\ NoDup (map fst FIGJAM_COLORS)
  /\ (forall c1 c2 c3 c4 c5 c6 d1 d2 d3 d4 d5 d6,
        hexDigit c1 = Some d1 -> hexDigit c2 = Some d2 ->
        hexDigit c3 = Some d3 -> hexDigit c4 = Some d4 ->
        hexDigit c5 = Some d5 -> hexDigit c6 = Some d6 ->
        resolveColor
          (String "#" (String c1 (String c2 (String c3 (String c4
             (String c5 (String c6 EmptyString)))))))
        = inr (RGB.mk (Some (byteOf d1 d2)) (Some (byteOf d3 d4))
                 (Some (byteOf d5 d6)))).
Proof.
  split; [| split].
  - intros name hex H.
    assert (Hall : Forall (fun p => resolveColor (fst p)
                                    = inr (hexToRgb (snd p))
                                    /\ validRGB (hexToRgb (snd p)))
                     FIGJAM_COLORS).
    { unfold FIGJAM_COLORS.
      repeat (constructor;
              [split; [vm_compute; reflexivity
                      | repeat split; eexists;
                        (split; [vm_compute; reflexivity
                                | split; vm_compute; discriminate])] |]).
      constructor. }
    rewrite Forall_forall in Hall. exact (Hall (name, hex) H).
  - unfold FIGJAM_COLORS. simpl.
    repeat (constructor; [simpl; intuition discriminate |]). constructor.
  - intros c1 c2 c3 c4 c5 c6 d1 d2 d3 d4 d5 d6 H1 H2 H3 H4 H5 H6.
    set (s := String c1 (String c2 (String c3 (String c4 (String c5
                (String c6 EmptyString)))))).
    assert (E : resolveColor (String "#" s) = inr (hexToRgb (String "#" s))).
    { unfold resolveColor.
      assert (L : lookup (String "#" s) FIGJAM_COLORS = None).
      { unfold FIGJAM_COLORS. cbn [lookup].
        repeat match goal with
               | |- context [String.eqb ?k (String "#" s)] =>
                   change (String.eqb k (String "#" s)) with false
               end.
        reflexivity. }
      rewrite L.
      assert (K : existsb (String.eqb (String "#" s)) inheritedKeys = false)
        by reflexivity.
      now rewrite K. }
    rewrite E. f_equal. unfold hexToRgb, s. cbn [removeHash Ascii.eqb].
    now apply channels_of_prefix.
Qed.

(** * Queries *)

Lemma typeName_inj s t : typeName s = typeName t -> s = t.
Proof. destruct s, t; simpl; intros H; try reflexivity; discriminate. Qed.

Lemma typeName_eqb s t :
  String.eqb (typeName s) (typeName t) = NodeType_eqb s t.
Proof. destruct s, t; reflexivity. Qed.

Lemma countOf_bump t u m :
  countOf t (bump u m)
  = (countOf t m + if NodeType_eqb u t then 1 else 0)%nat.
Proof.
  induction m as [| [t' k] m IH]; simpl.
  - destruct (NodeType_eqb u t); reflexivity.
  - destruct (NodeType_eqb t' u) eqn:E1; simpl.
    + apply NodeType_eqb_eq in E1. subst t'.
      destruct (NodeType_eqb u t); lia.
    + destruct (NodeType_eqb t' t) eqn:E2; [| exact IH].
      apply NodeType_eqb_eq in E2. subst t'.
      destruct (NodeType_eqb u t) eqn:E3; [| lia].
      apply NodeType_eqb_eq in E3. subst u. destruct t; discriminate.
Qed.

Lemma countOf_fold t l : forall m,
  countOf t (fold_left (fun m child => bump (type child) m) l m)
  = (countOf t m
     + List.length (filter (fun n => NodeType_eqb (type n) t) l))%nat.
Proof.
  induction l as [| n l IH]; intros m; simpl; [lia |].
  rewrite IH, countOf_bump. destruct (NodeType_eqb (type n) t); simpl; lia.
Qed.

Lemma bump_keys u m :
  NoDup (map fst m) -> Forall (fun p => (1 <= snd p)%nat) m ->
  NoDup (map fst (bump u m)) /\ Forall (fun p => (1 <= snd p)%nat) (bump u m)
  /\ (forall t, In t (map fst (bump u m)) <-> t = u \/ In t (map fst m)).
Proof.
  induction m as [| [t' k] m IH]; simpl; intros Hnd Hall.
  - repeat split; try (repeat constructor; simpl; auto; lia);
      simpl; intuition.
  - inversion Hnd as [| ? ? Hnotin Hnd']; subst.
    inversion Hall as [| ? ? Hk Hall']; subst. simpl in Hk.
    destruct (NodeType_eqb t' u) eqn:E; simpl.
    + apply NodeType_eqb_eq in E. subst t'.
      repeat split; try (constructor; auto; simpl; lia); intuition.
    + destruct (IH Hnd' Hall') as (I1 & I2 & I3).
      assert (Hne : t' <> u).
      { intros ->. destruct u; discriminate. }
      repeat split.
      * constructor; [| exact I1]. rewrite I3. intuition.
      * constructor; auto.
      * rewrite I3. intuition.
      * rewrite I3. intuition.
Qed.

Lemma fold_bump_keys l : forall m,
  NoDup (map fst m) -> Forall (fun p => (1 <= snd p)%nat) m ->
  NoDup (map fst (fold_left (fun m child => bump (type child) m) l m))
  /\ Forall (fun p => (1 <= snd p)%nat)
       (fold_left (fun m (child : SceneNode) => bump (type child) m) l m).
Proof.
  induction l as [| n l IH]; intros m Hnd Hall; simpl; [now split |].
  destruct (bump_keys (type n) m Hnd Hall) as (H1 & H2 & _).
  now apply IH.
Qed.

Lemma sum_counts m :
  NoDup (map fst m) ->
  fold_right (fun p s => (snd p + s)%nat) 0%nat m
  = (countOf STICKY m + countOf SHAPE_WITH_TEXT m + countOf TEXT m
     + countOf CONNECTOR m + countOf SECTION m)%nat.
Proof.
  induction m as [| [t k] m IH]; intros Hnd; [reflexivity |].
  inversion Hnd as [| ? ? Hnotin Hnd']; subst. simpl in Hnotin.
  cbn [fold_right snd]. rewrite (IH Hnd').
  assert (Hz : countOf t m = 0%nat).
  { clear -Hnotin. induction m as [| [t' k'] m IH]; [reflexivity |].
    simpl in *. destruct (NodeType_eqb t' t) eqn:E.
    - apply NodeType_eqb_eq in E. tauto.
    - apply IH. tauto. }
  destruct t; simpl; rewrite Hz; lia.
Qed.

Lemma filter_types_length (l : list SceneNode) :
  List.length l
  = (List.length (filter (fun n => NodeType_eqb (type n) STICKY) l)
     + List.length (filter (fun n => NodeType_eqb (type n) SHAPE_WITH_TEXT) l)
     + List.length (filter (fun n => NodeType_eqb (type n) TEXT) l)
     + List.length (filter (fun n => NodeType_eqb (type n) CONNECTOR) l)
     + List.length (filter (fun n => NodeType_eqb (type n) SECTION) l))%nat.
Proof.
  induction l as [| n l IH]; [reflexivity |].
  simpl. destruct (type n); simpl; lia.
Qed.

(** X14. The counts of [query_elements] and of [get_board_info] agree:
    the query for a type returns as many elements as [typeCounts] holds
    for it (0 for a missing key), the unfiltered queries return every
    child of the page, whose number is [elementCount] and the sum of all
    type counts; a type appears in [typeCounts] at most once and only
    with a positive count; [count] is always the number of elements
    returned, and a filter that names no node type returns nothing. *)
Theorem query_counts_agree_with_board_info
    (h : Host) (page : string) (sc : Scene) :
  let info := handleGetBoardInfo page sc in
  (forall t, snd (handleQueryElements h sc (Some (typeName t)))
             = countOf t (typeCounts info))
  /\ snd (handleQueryElements h sc None) = elementCount info
  /\ snd (handleQueryElements h sc (Some "ALL"%string)) = elementCount info
  /\ snd (handleQueryElements h sc (Some ""%string)) = elementCount info
  /\ elementCount info
     = fold_right (fun p s => (snd p + s)%nat) 0%nat (typeCounts info)
  /\ NoDup (map fst (typeCounts info))
  /\ Forall (fun p => (1 <= snd p)%nat) (typeCounts info)
  /\ (forall ty, List.length (fst (handleQueryElements h sc ty))
                 = snd (handleQueryElements h sc ty))
  /\ (forall s, s <> ""%string -> s <> "ALL"%string ->
        (forall t, typeName t <> s) ->
        handleQueryElements h sc (Some s) = ([], 0%nat)).
Proof.
  intros info. unfold info, handleGetBoardInfo. cbn [typeCounts elementCount].
  set (kids := map snd (children sc None)).
  destruct (fold_bump_keys kids [] (NoDup_nil _) (Forall_nil _))
    as [Hnd Hpos].
  split; [| split; [| split; [| split; [| split; [| split; [| split; [| split]]]]]]];
    try reflexivity; auto.
  - intros t. unfold handleQueryElements. fold kids. cbn [snd].
    assert (E : negb (String.eqb (typeName t) "")
                && negb (String.eqb (typeName t) "ALL") = true)
      by (destruct t; reflexivity).
    rewrite E, countOf_fold. simpl.
    f_equal. apply filter_ext. intros n. apply typeName_eqb.
  - rewrite (sum_counts _ Hnd), !countOf_fold. simpl.
    apply filter_types_length.
  - intros ty. unfold handleQueryElements. cbn [fst snd].
    now rewrite length_map.
  - intros s Hs1 Hs2 Hs. unfold handleQueryElements. fold kids.
    apply String.eqb_neq in Hs1, Hs2. rewrite Hs1, Hs2. cbn [negb andb].
    assert (E : filter (fun n => String.eqb (typeName (type n)) s) kids = []).
    { clear -Hs. induction kids as [| n l IH]; [reflexivity |]. simpl.
      destruct (String.eqb_spec (typeName (type n)) s) as [E | E];
        [now apply Hs in E | exact IH]. }
    now rewrite E.
Qed.

(** * update_element *)

Lemma findNodeById_None sc i :
  findNodeById sc i = None <-> forall n, In n sc -> id n <> i.
Proof.
  split.
  - apply findFrom_None.
  - intros H. destruct (findNodeById sc i) as [a |] eqn:E; [| reflexivity].
    apply findNodeById_Some in E as (n & Hn & Hid).
    apply node_In in Hn. now apply H in Hn.
Qed.

Lemma handleUpdateElement_scene h sc p a n0 :
  findNodeById sc (uId p) = Some a -> node sc a = Some n0 ->
  fst (handleUpdateElement h sc p)
  = update (fun _ => updatedNode h p n0) a sc.
Proof.
  intros Ef En. unfold handleUpdateElement, updatedNode. rewrite Ef, En.
  cbv zeta. destruct (updateSize h p (updatePosition p n0)) as [e | n3];
    [reflexivity |].
  destruct (updateText h p n3) as [e | n4]; [reflexivity |].
  destruct (updateColor h p n4); reflexivity.
Qed.

Lemma sameIdentity_refl n : sameIdentity n n.
Proof. now repeat split. Qed.

Lemma sameIdentity_trans n1 n2 n3 :
  sameIdentity n1 n2 -> sameIdentity n2 n3 -> sameIdentity n1 n3.
Proof. unfold sameIdentity. intuition congruence. Qed.

Lemma updatePosition_fields p n :
  sameIdentity n (updatePosition p n)
  /\ x (updatePosition p n) = requested (uX p) (x n)
  /\ y (updatePosition p n) = requested (uY p) (y n)
  /\ width (updatePosition p n) = width n
  /\ height (updatePosition p n) = height n
  /\ characters (updatePosition p n) = characters n
  /\ fontSize (updatePosition p n) = fontSize n.
Proof.
  unfold updatePosition, requested, sameIdentity.
  destruct (uX p), (uY p); simpl; repeat split.
Qed.

Lemma updateSize_fields h p n n3 :
  updateSize h p n = inr n3 ->
  sameIdentity n n3 /\ x n3 = x n /\ y n3 = y n
  /\ characters n3 = characters n /\ fontSize n3 = fontSize n
  /\ (if sizeGiven p && resizable h (type n)
      then width n3 = requested (uWidth p) (width n)
           /\ height n3 = requested (uHeight p) (height n)
           /\ resizeOk h n (requested (uWidth p) (width n))
                (requested (uHeight p) (height n)) = true
      else n3 = n).
Proof.
  unfold updateSize, sizeGiven, resizable, requested, sameIdentity.
  destruct (uWidth p) as [w |], (uHeight p) as [v |]; cbn [andb];
    try (intros H; injection H as <-; repeat split; reflexivity);
    destruct (NodeType_eqb (type n) SECTION); cbn [orb];
    try destruct (hasResize h (type n));
    try (intros H; injection H as <-; repeat split; reflexivity);
    match goal with
    | |- context [resizeOk h n ?a ?b] =>
        destruct (resizeOk h n a b) eqn:Eok; [| discriminate]
    end;
    intros H; injection H as <-; repeat split; auto.
Qed.

Lemma updateText_identity h p n n4 :
  textKeepsIdentity h -> updateText h p n = inr n4 -> sameIdentity n n4.
Proof.
  intros Hh. unfold updateText, loadFontAndSet.
  destruct (uText p) as [t |];
    [| intros H; injection H as <-; apply sameIdentity_refl].
  destruct (hasCharacters h (type n));
    [| destruct (NodeType_eqb (type n) SHAPE_WITH_TEXT);
       [| destruct (NodeType_eqb (type n) STICKY) ] ];
    try (destruct (fontOk h n); [| discriminate]);
    intros H; injection H as <-; auto using sameIdentity_refl.
Qed.

Lemma updatedNode_identity h p n :
  textKeepsIdentity h -> sameIdentity n (updatedNode h p n).
Proof.
  intros Hh. unfold updatedNode. cbv zeta.
  destruct (updatePosition_fields p n) as (I1 & _).
  destruct (updateSize h p (updatePosition p n)) as [e | n3] eqn:E3;
    [exact I1 |].
  apply updateSize_fields in E3 as (I3 & _).
  destruct (updateText h p n3) as [e | n4] eqn:E4.
  - eapply sameIdentity_trans; eauto.
  - apply (updateText_identity h p n3 n4 Hh) in E4.
    eauto using sameIdentity_trans.
Qed.

(** X15. [update_element] touches one node only.  The call fails with
    "Element not found" and leaves the page as it is exactly when no node
    of the page has the id; otherwise every node but the first one with
    that id is left as it is, and that node keeps its id, type and parent
    whatever the outcome (on hosts that keep them when a text is set). *)
Theorem update_element_frame (h : Host) (sc : Scene) (p : UpdateParams) :
  textKeepsIdentity h ->
  ((forall n, In n sc -> id n <> uId p) <->
   snd (handleUpdateElement h sc p) = inl (ElementNotFound (uId p)))
  /\ ((forall n, In n sc -> id n <> uId p) ->
      fst (handleUpdateElement h sc p) = sc)
  /\ (forall a,
        match node sc a, node (fst (handleUpdateElement h sc p)) a with
        | Some n, Some n' =>
            sameIdentity n n'
            /\ (findNodeById sc (uId p) <> Some a -> n' = n)
        | None, None => True
        | _, _ => False
        end).
Proof.
  intros Hh.
  destruct (findNodeById sc (uId p)) as [a |] eqn:Ef.
  - destruct (findNodeById_Some sc (uId p) a Ef) as (n0 & En & Hid).
    pose proof (handleUpdateElement_scene h sc p a n0 Ef En) as Esc.
    split; [| split].
    + split.
      * intros H. exfalso. apply node_In in En. now apply (H n0).
      * intros H. exfalso. revert H. unfold handleUpdateElement.
        rewrite Ef, En. cbv zeta.
        destruct (updateSize h p (updatePosition p n0)) as [e | n3] eqn:E3.
        { cbn [snd]. unfold updateSize in E3.
          destruct (uWidth p), (uHeight p); try discriminate;
            destruct (NodeType_eqb _ SECTION);
            try destruct (hasResize h _);
            try destruct (resizeOk h _ _ _); try discriminate;
            injection E3 as <-; discriminate. }
        destruct (updateText h p n3) as [e | n4] eqn:E4.
        { cbn [snd]. unfold updateText, loadFontAndSet in E4.
          destruct (uText p); try discriminate.
          destruct (hasCharacters h _);
            [| destruct (NodeType_eqb _ SHAPE_WITH_TEXT);
               [| destruct (NodeType_eqb _ STICKY) ] ];
            try destruct (fontOk h n3); try discriminate;
            injection E4 as <-; discriminate. }
        destruct (updateColor h p n4) as [e | u] eqn:E5;
          [| discriminate].
        cbn [snd]. unfold updateColor in E5.
        destruct (uColor p) as [c |]; try discriminate.
        destruct (hasFills h _); try discriminate.
        unfold resolveColor in E5.
        destruct (lookup c FIGJAM_COLORS).
        { destruct (paintOk h n4 _); try discriminate.
          injection E5 as <-. discriminate. }
        destruct (existsb _ inheritedKeys).
        { injection E5 as <-. discriminate. }
        destruct (paintOk h n4 _); try discriminate.
        injection E5 as <-. discriminate.
    + intros H. exfalso. apply node_In in En. now apply (H n0).
    + intros b. rewrite Esc, node_update.
      destruct (Nat.eqb_spec a b) as [<- | Hne].
      * rewrite En. simpl. split; [now apply updatedNode_identity |].
        congruence.
      * destruct (node sc b) as [n |]; [| exact I].
        split; [apply sameIdentity_refl | reflexivity].
  - pose proof (proj1 (findNodeById_None sc (uId p)) Ef) as Hnone.
    unfold handleUpdateElement. rewrite Ef. cbn [fst snd].
    split; [| split]; auto.
    + tauto.
    + intros a. destruct (node sc a) as [n |]; [| exact I].
      split; [apply sameIdentity_refl | reflexivity].
Qed.

(** X16. An update without a text writes the requested position whatever
    the outcome of the call.  The size is written, a missing dimension
    taken from the node, only for a Section or a type that has [resize],
    and only when the host accepts it; when the host rejects it the call
    fails after the position has been written; for the other types the
    requested size is ignored and the call succeeds all the same. *)
Theorem update_size_semantics
    (h : Host) (sc : Scene) (p : UpdateParams) (a : nat) (n : SceneNode) :
  findNodeById sc (uId p) = Some a -> node sc a = Some n ->
  uText p = None ->
  exists n',
    node (fst (handleUpdateElement h sc p)) a = Some n'
    /\ x n' = requested (uX p) (x n) /\ y n' = requested (uY p) (y n)
    /\ (if sizeGiven p && resizable h (type n) then
          if resizeOk h (updatePosition p n) (requested (uWidth p) (width n))
               (requested (uHeight p) (height n))
          then width n' = requested (uWidth p) (width n)
               /\ height n' = requested (uHeight p) (height n)
               /\ (uColor p = None ->
                   snd (handleUpdateElement h sc p)
                   = inr (serializeNode h n'))
          else width n' = width n /\ height n' = height n
               /\ snd (handleUpdateElement h sc p) = inl HostError
        else width n' = width n /\ height n' = height n
             /\ (uColor p = None ->
                 snd (handleUpdateElement h sc p)
                 = inr (serializeNode h n'))).
Proof.
  intros Ef En Ht.
  rewrite (handleUpdateElement_scene h sc p a n Ef En), node_update_same, En.
  cbn [option_map]. eexists. split; [reflexivity |].
  unfold handleUpdateElement, updatedNode. rewrite Ef, En. cbv zeta.
  destruct (updatePosition_fields p n)
    as ((_ & Ety & _) & Ex & Ey & Ew & Eh & _).
  unfold updateText, updateColor. rewrite Ht.
  destruct (updateSize h p (updatePosition p n)) as [e | n3] eqn:E3.
  - split; [exact Ex |]. split; [exact Ey |].
    unfold updateSize, sizeGiven, resizable, requested in *.
    rewrite Ety, Ew, Eh in E3.
    destruct (uWidth p) as [w |], (uHeight p) as [v |]; cbn [andb];
      try discriminate;
      destruct (NodeType_eqb (type n) SECTION); cbn [orb];
      try destruct (hasResize h (type n)); try discriminate;
      match goal with
      | |- context [resizeOk h ?m ?u ?v] =>
          destruct (resizeOk h m u v); try discriminate
      end;
      injection E3 as <-; cbn [snd]; auto.
  - destruct (updateSize_fields h p _ n3 E3)
      as (_ & Ex3 & Ey3 & _ & _ & Hsz).
    rewrite Ety, Ew, Eh in Hsz.
    split; [congruence |]. split; [congruence |].
    destruct (sizeGiven p && resizable h (type n)).
    + destruct Hsz as (Hw & Hh & Hok). rewrite Hok.
      split; [exact Hw |]. split; [exact Hh |].
      intros Hc. now rewrite Hc.
    + subst n3. split; [exact Ew |]. split; [exact Eh |].
      intros Hc. now rewrite Hc.
Qed.

Lemma update_size_semantics_witness :
  exists n',
    node (fst (handleUpdateElement exampleHost
                 [ mkNode "s" "s" STICKY 0 0 240 240 None "" 0 None None ]
                 (mkUpdateParams "s" (Some 10) None (Some 300) None None
                    None))) 0
    = Some n'
    /\ x n' = 10 /\ y n' = 0 /\ width n' = 240 /\ height n' = 240
    /\ (@None string = None ->
        snd (handleUpdateElement exampleHost
               [ mkNode "s" "s" STICKY 0 0 240 240 None "" 0 None None ]
               (mkUpdateParams "s" (Some 10) None (Some 300) None None
                  None))
        = inr (serializeNode exampleHost n')).
Proof.
  apply (update_size_semantics exampleHost
           [ mkNode "s" "s" STICKY 0 0 240 240 None "" 0 None None ]
           (mkUpdateParams "s" (Some 10) None (Some 300) None None None)
           0 (mkNode "s" "s" STICKY 0 0 240 240 None "" 0 None None));
    reflexivity.
Defined.

Lemma update_element_frame_witness :
  fst (handleUpdateElement exampleHost [ shapeAt "A" 0 0 100 100 None ]
         (mkUpdateParams "B" (Some 5) None None None (Some "t"%string)
            None))
  = [ shapeAt "A" 0 0 100 100 None ].
Proof.
  apply (update_element_frame exampleHost [ shapeAt "A" 0 0 100 100 None ]
           (mkUpdateParams "B" (Some 5) None None None (Some "t"%string)
              None)).
  - intros t n. repeat split.
  - intros n [<- | []]. discriminate.
Defined.

Lemma textTruncation_resized nd :
  textTruncation (resize (suggestedWidth nd) (suggestedHeight nd) nd) = [].
Proof.
  destruct (textTruncation _) as [| j l] eqn:E; [reflexivity |].
  exfalso.
  assert (Hj : In j (textTruncation
                       (resize (suggestedWidth nd) (suggestedHeight nd) nd)))
    by (rewrite E; now left).
  apply textTruncation_In in Hj as (_ & _ & Hj & _).
  pose proof (textHeight_widen nd _ (suggestedHeight nd)
                (suggestedWidth_ge nd)) as Hmono.
  assert (Hh : textHeight nd + 60 <= suggestedHeight nd).
  { unfold suggestedHeight, padding.
    eapply Qle_trans; [| apply Math_ceil_ge]. lra. }
  unfold availableHeight, padding in Hj. simpl height in Hj. lra.
Qed.

Lemma truncationReported_iff sc i :
  truncationReported (handleValidateLayout sc) i <->
  exists a n, node sc a = Some n /\ parent n = None /\ id n = i
              /\ textTruncation n <> [].
Proof.
  unfold truncationReported. split.
  - intros (j & Hj & Ht & Hid). apply validate_In in Hj. rewrite Ht in Hj.
    unfold truncationIssues in Hj.
    apply in_flat_map in Hj as (n & Hn & Hj).
    apply children_nodes_In in Hn as [Hn Hp].
    apply In_nth_error in Hn as (a & Ha).
    exists a, n. repeat split; auto.
    + apply textTruncation_In in Hj as (_ & _ & _ & ->).
      simpl in Hid. exact Hid.
    + intros E. now rewrite E in Hj.
  - intros (a & n & Hn & Hp & Hid & Hne).
    destruct (textTruncation n) as [| j l] eqn:E; [congruence |].
    assert (Hj : In j (textTruncation n)) by (rewrite E; now left).
    exists j. split; [| split].
    + apply validate_In.
      apply textTruncation_In in Hj as Hj'. destruct Hj' as (_ & _ & _ & ->).
      simpl. unfold truncationIssues. apply in_flat_map. exists n.
      split; [| exact Hj]. apply children_nodes_In. split; [| exact Hp].
      now apply node_In in Hn.
    + now apply textTruncation_In in Hj as (_ & _ & _ & ->).
    + apply textTruncation_In in Hj as (_ & _ & _ & ->). exact Hid.
Qed.

(** X17. Update followed by validation: resizing a shape to the width and
    height suggested by a text_truncated issue (on a host that accepts the
    size) succeeds, returns the element with that size, removes the
    text_truncated issue of that element from the next validation and
    leaves the text_truncated issues of all other elements as they
    were. *)
Theorem update_to_suggestion_clears_truncation
    (h : Host) (sc : Scene) (i : Issue) (sw sh : number) :
  NoDup (map id sc) ->
  In i (handleValidateLayout sc) -> issueType i = text_truncated ->
  suggestion i = ResizeToAtLeast sw sh ->
  hasResize h SHAPE_WITH_TEXT = true ->
  (forall n, resizeOk h n sw sh = true) ->
  (exists s, snd (handleUpdateElement h sc (resizeTo (elementId i) sw sh))
             = inr s
             /\ sId s = elementId i /\ sWidth s = sw /\ sHeight s = sh)
  /\ ~ truncationReported
         (handleValidateLayout
            (fst (handleUpdateElement h sc (resizeTo (elementId i) sw sh))))
         (elementId i)
  /\ (forall k, k <> elementId i ->
        (truncationReported
           (handleValidateLayout
              (fst (handleUpdateElement h sc
                      (resizeTo (elementId i) sw sh)))) k
         <-> truncationReported (handleValidateLayout sc) k)).
Proof.
  intros Hnd Hi Hty Hsug Hres Hok.
  apply validate_In in Hi. rewrite Hty in Hi.
  unfold truncationIssues in Hi. apply in_flat_map in Hi as (nd & Hin & Hi).
  apply children_nodes_In in Hin as [Hin Hp].
  apply textTruncation_In in Hi as (Hshape & _ & _ & ->).
  cbn [suggestion] in Hsug. injection Hsug as <- <-. cbn [elementId].
  apply In_nth_error in Hin as (a & Ha). fold (node sc a) in Ha.
  pose proof (findNodeById_complete sc a nd Hnd Ha) as Ef.
  set (p := resizeTo (id nd) (suggestedWidth nd) (suggestedHeight nd)).
  set (nd' := resize (suggestedWidth nd) (suggestedHeight nd) nd).
  assert (Esize : updateSize h p (updatePosition p nd) = inr nd').
  { unfold updateSize, p, resizeTo, updatePosition. cbn.
    rewrite Hshape. cbn. rewrite Hres, Hok. reflexivity. }
  assert (Eres : handleUpdateElement h sc p
                 = (update (fun _ => nd') a sc, inr (serializeNode h nd'))).
  { unfold handleUpdateElement.
    change (uId p) with (id nd). rewrite Ef, Ha. cbv zeta.
    rewrite Esize. reflexivity. }
  rewrite Eres. cbn [fst snd].
  assert (Hids : map id (update (fun _ => nd') a sc) = map id sc).
  { apply nth_error_ext. intros k. rewrite !nth_error_map.
    pose proof (node_update (fun _ => nd') a sc k) as H. unfold node in H.
    rewrite H. destruct (Nat.eqb a k) eqn:Eak; [| reflexivity].
    apply Nat.eqb_eq in Eak. rewrite <- Eak. unfold node in Ha.
    now rewrite Ha. }
  assert (Hnd' : NoDup (map id (update (fun _ => nd') a sc)))
    by (now rewrite Hids).
  assert (Ha' : node (update (fun _ => nd') a sc) a = Some nd')
    by (now rewrite node_update_same, Ha).
  split; [| split].
  - eexists. split; [reflexivity |]. now repeat split.
  - intros Hrep. apply truncationReported_iff in Hrep
      as (b & n & Hn & _ & Hid & Hne).
    assert (b = a)
      by (apply (node_id_inj _ b a n nd' Hnd' Hn Ha'); exact Hid).
    subst b. rewrite Ha' in Hn. injection Hn as <-.
    apply Hne. apply textTruncation_resized.
  - intros k Hk. rewrite !truncationReported_iff.
    split; intros (b & n & Hn & Hpn & Hid & Hne); exists b, n;
      (split; [| now repeat split]).
    + rewrite node_update in Hn.
      destruct (Nat.eqb_spec a b) as [<- | _]; [| exact Hn].
      exfalso. rewrite Ha in Hn. simpl in Hn. injection Hn as <-.
      now apply Hk.
    + rewrite node_update.
      destruct (Nat.eqb_spec a b) as [<- | _]; [| exact Hn].
      exfalso. rewrite Ha in Hn. injection Hn as <-. now apply Hk.
Qed.

Lemma update_to_suggestion_clears_truncation_witness :
  ~ truncationReported
      (handleValidateLayout
         (fst (handleUpdateElement exampleHost [crowdedShape]
                 (resizeTo "S" 210 198))))
      "S".
Proof.
  apply (update_to_suggestion_clears_truncation exampleHost [crowdedShape]
           (mkIssue text_truncated "S" "S"
              (TruncatedIn "The quick brown fox jumps over the lazy " true
                 100 50)
              (ResizeToAtLeast 210 198)) 210 198).
  - repeat constructor; simpl; intuition.
  - vm_compute. left. reflexivity.
  - reflexivity.
  - reflexivity.
  - reflexivity.
  - intros n. reflexivity.
Defined.

(** * batch_create *)

Section BatchFacts.
Variable World : Type.
Variable sendCommand : World -> Command -> World * Outcome.

Lemma batchStep_cases st spec :
  let st' := batchStep World sendCommand st spec in
  (succeeded World sendCommand st spec = true
   /\ (exists i,
         results st' = results st ++ [mkCreated (Spec.refId spec) i
                                        (Spec.type spec)]
         /\ refIdMap st'
            = if truthy (Spec.refId spec)
              then mapSet (orElse (Spec.refId spec) ""%string) i (refIdMap st)
              else refIdMap st)
   /\ errors st' = errors st)
  \/ (succeeded World sendCommand st spec = false
      /\ results st' = results st /\ refIdMap st' = refIdMap st
      /\ exists m, errors st'
                   = errors st ++ [mkBatchError (Spec.type spec)
                                     (shownRef spec) m]).
Proof.
  unfold batchStep, succeeded, pushError.
  destruct (sendCommand (world st) (commandOf (refIdMap st) spec))
    as [w [res | msg]]; cbn [snd].
  - destruct (success res), (data res) as [i |]; cbn.
    + left. split; [reflexivity |]. split; [| reflexivity].
      exists i. split; reflexivity.
    + right. repeat split. eexists. reflexivity.
    + right. repeat split. eexists. reflexivity.
    + right. repeat split. eexists. reflexivity.
  - right. cbn. repeat split. eexists. reflexivity.
Qed.

Lemma fold_batch_app l1 l2 st :
  fold_left (batchStep World sendCommand) (l1 ++ l2) st
  = fold_left (batchStep World sendCommand) l2
      (fold_left (batchStep World sendCommand) l1 st).
Proof. apply fold_left_app. Qed.

Lemma batch_accounting specs : forall st,
  let st' := fold_left (batchStep World sendCommand) specs st in
  (List.length (results st') + List.length (errors st')
   = List.length (results st) + List.length (errors st)
     + List.length specs)%nat
  /\ (exists l, results st' = results st ++ l)
  /\ (exists l, errors st' = errors st ++ l).
Proof.
  induction specs as [| spec specs IH]; intros st; cbn [fold_left].
  - cbv zeta. split; [simpl; lia |].
    split; exists []; now rewrite app_nil_r.
  - cbv zeta. destruct (IH (batchStep World sendCommand st spec))
      as (Hlen & (lr & Hr) & (le & He)).
    destruct (batchStep_cases st spec)
      as [(_ & (i & Er & _) & Ee) | (_ & Er & _ & (m & Ee))].
    + rewrite Hr, He, Er, Ee in *. rewrite <- app_assoc.
      rewrite !length_app in *. simpl in *.
      split; [lia |]. split; eauto.
    + rewrite Hr, He, Er, Ee in *. rewrite <- app_assoc.
      rewrite !length_app in *. simpl in *.
      split; [lia |]. split; eauto.
Qed.
End BatchFacts.

(** X18. Whatever the plugin answers, [batch_create] accounts for every
    spec exactly once, as a created element or as an error; [count] is the
    number of created elements and [errors] is absent exactly when there is
    none; the call is flagged as an error exactly when there is at least
    one spec and not a single element was created, so a batch in which
    some elements failed and one succeeded is not flagged. *)
Theorem batch_create_accounting
    (World : Type) (sendCommand : World -> Command -> World * Outcome)
    (w : World) (specs : list Spec.t) :
  let out := snd (batch_create World sendCommand w specs) in
  let failed := errors (runBatch World sendCommand w specs) in
  (List.length (BatchOutput.created out) + List.length failed
   = List.length specs)%nat
  /\ BatchOutput.count out = List.length (BatchOutput.created out)
  /\ (BatchOutput.errors out = None <-> failed = [])
  /\ (forall l, BatchOutput.errors out = Some l -> l = failed)
  /\ (BatchOutput.isError out = true
      <-> specs <> [] /\ BatchOutput.created out = []).
Proof.
  intros out failed. unfold out, failed, batch_create. cbn [snd BatchOutput.created
    BatchOutput.count BatchOutput.errors BatchOutput.isError].
  destruct (batch_accounting World sendCommand specs (mkBatch World w [] [] []))
    as (Hlen & _ & _).
  cbv zeta in Hlen. cbn [results errors List.length] in Hlen.
  fold (runBatch World sendCommand w specs) in Hlen.
  set (st := runBatch World sendCommand w specs) in *.
  split; [lia |]. split; [reflexivity |].
  split; [| split].
  - destruct (errors st) as [| e l]; simpl; split; congruence.
  - intros l. destruct (errors st) as [| e l']; simpl; congruence.
  - rewrite andb_true_iff, Nat.ltb_lt, Nat.eqb_eq. split.
    + intros [He Hr]. split.
      * intros E. clearbody st. subst specs. simpl in Hlen. lia.
      * now apply length_zero_iff_nil.
    + intros [Hs Hr]. clearbody st. rewrite Hr in *.
      destruct specs; [congruence |]. simpl in Hlen.
      split; [lia | reflexivity].
Qed.

Lemma lookup_filter_other r k m :
  k <> r ->
  lookup r (filter (fun p => negb (String.eqb (fst p) k)) m) = lookup r m.
Proof.
  intros Hne. induction m as [| [k' v] m IH]; [reflexivity |].
  simpl. destruct (String.eqb_spec k' k) as [-> | Hk]; simpl.
  - destruct (String.eqb_spec k r); [congruence | exact IH].
  - destruct (String.eqb k' r); [reflexivity | exact IH].
Qed.

Lemma lookup_mapSet r k v m :
  lookup r (mapSet k v m) = if String.eqb k r then Some v else lookup r m.
Proof.
  unfold mapSet. cbn [lookup].
  destruct (String.eqb_spec k r) as [E | E]; [reflexivity |].
  now apply lookup_filter_other.
Qed.

Lemma latest_snoc r l c :
  latest r (l ++ [c])
  = match createdRefId c with
    | Some r' => if String.eqb r' r then Some (createdId c) else latest r l
    | None => latest r l
    end.
Proof.
  induction l as [| d l IH]; simpl.
  - destruct (createdRefId c) as [r' |]; [| reflexivity].
    now destruct (String.eqb r' r).
  - rewrite IH. destruct (createdRefId c) as [r' |]; [| reflexivity].
    now destruct (String.eqb r' r).
Qed.

Section BatchRefs.
Variable World : Type.
Variable sendCommand : World -> Command -> World * Outcome.

Lemma batchStep_refsAgree st spec :
  refsAgree st -> refsAgree (batchStep World sendCommand st spec).
Proof.
  intros Hinv r.
  destruct (batchStep_cases World sendCommand st spec)
    as [(_ & (i & Er & Em) & _) | (_ & Er & Em & _)];
    rewrite Er, Em; [| apply Hinv].
  rewrite latest_snoc. cbn [createdRefId createdId].
  specialize (Hinv r). unfold truthy.
  destruct (Spec.refId spec) as [r0 |]; [| exact Hinv]. cbn [orElse].
  destruct (String.eqb r0 "") eqn:Er0; cbn [negb].
  - apply String.eqb_eq in Er0. subst r0. rewrite Hinv.
    destruct (String.eqb r "") eqn:Ere; [reflexivity |].
    rewrite String.eqb_sym, Ere. reflexivity.
  - rewrite lookup_mapSet.
    destruct (String.eqb r0 r) eqn:E0; [| exact Hinv].
    apply String.eqb_eq in E0. subst r0. now rewrite Er0.
Qed.

Lemma runBatch_refsAgree w specs :
  refsAgree (runBatch World sendCommand w specs).
Proof.
  unfold runBatch.
  assert (H : forall st, refsAgree st ->
                refsAgree (fold_left (batchStep World sendCommand) specs st)).
  { induction specs as [| s l IH]; intros st Hst; [exact Hst |].
    apply IH. now apply batchStep_refsAgree. }
  apply H. intros r. simpl. now destruct (String.eqb r "").
Qed.

Lemma results_from_specs specs : forall st c,
  In c (results (fold_left (batchStep World sendCommand) specs st)) ->
  In c (results st)
  \/ exists s, In s specs /\ Spec.refId s = createdRefId c
               /\ Spec.type s = createdType c.
Proof.
  induction specs as [| s l IH]; intros st c Hc; [now left |].
  cbn [fold_left] in Hc. apply IH in Hc as [Hc | (s' & Hs' & H)].
  - destruct (batchStep_cases World sendCommand st s)
      as [(_ & (i & Er & _) & _) | (_ & Er & _)]; rewrite Er in Hc.
    + apply in_app_or in Hc as [Hc | [<- | []]]; [now left |].
      right. exists s. split; [now left | now split].
    + now left.
  - right. exists s'. split; [now right | exact H].
Qed.
End BatchRefs.

(** X19. References inside a batch: when a spec is reached, a reference
    stands for the id of the element created last under that refId among
    the specs before it, and for itself when no such element was created
    (the refId is empty or absent, the creation failed, or the refId is
    declared later); the ids sent for the two ends of a connector are the
    references of its spec resolved in this way, and every created element
    comes from a spec with its refId and type. *)
Theorem batch_refs_resolve_to_latest_created
    (World : Type) (sendCommand : World -> Command -> World * Outcome)
    (w : World) (before after : list Spec.t) (spec : Spec.t) :
  let st := runBatch World sendCommand w before in
  runBatch World sendCommand w (before ++ spec :: after)
  = fold_left (batchStep World sendCommand) after
      (batchStep World sendCommand st spec)
  /\ (forall r, resolveRef (refIdMap st) r = refersTo (results st) r)
  /\ (Spec.type spec = Kind.connector ->
      commandOf (refIdMap st) spec
      = create_connector
          (refersTo (results st) (orElse (Spec.startElementId spec) ""%string))
          (refersTo (results st) (orElse (Spec.endElementId spec) ""%string))
          (Spec.label spec) (Spec.strokeColor spec))
  /\ (forall c, In c (results st) ->
        exists s, In s before /\ Spec.refId s = createdRefId c
                  /\ Spec.type s = createdType c).
Proof.
  intros st.
  assert (Href : forall r, resolveRef (refIdMap st) r
                           = refersTo (results st) r).
  { intros r. unfold resolveRef, refersTo.
    unfold st. rewrite (runBatch_refsAgree World sendCommand w before r).
    now destruct (String.eqb r ""). }
  split; [| split; [exact Href | split]].
  - unfold st, runBatch. now rewrite fold_left_app.
  - intros Hty. unfold commandOf. rewrite Hty. now rewrite !Href.
  - intros c Hc. unfold st, runBatch in Hc.
    apply results_from_specs in Hc as [[] | H]. exact H.
Qed.

(** * The bridge *)

Lemma bridge_get_In id m c : Bridge.get id m = Some c -> In (id, c) m.
Proof.
  induction m as [| [k d] m IH]; simpl; [discriminate |].
  destruct (String.eqb k id) eqn:E.
  - apply String.eqb_eq in E. subst k. intros H. injection H as <-.
    now left.
  - intros H. right. now apply IH.
Qed.

Lemma bridge_In_delete id m k c :
  In (k, c) (Bridge.delete id m) <-> In (k, c) m /\ k <> id.
Proof.
  unfold Bridge.delete. rewrite filter_In. simpl.
  rewrite negb_true_iff, String.eqb_neq. tauto.
Qed.

Lemma bridge_In_clearTimeout call ts c i :
  In (c, i) (Bridge.clearTimeout call ts) <-> In (c, i) ts /\ c <> call.
Proof.
  unfold Bridge.clearTimeout. rewrite filter_In. simpl.
  rewrite negb_true_iff, Nat.eqb_neq. tauto.
Qed.

Lemma NoDup_map_filter {A B} (f : A -> B) (p : A -> bool) l :
  NoDup (map f l) -> NoDup (map f (filter p l)).
Proof.
  induction l as [| a l IH]; simpl; intros H; [constructor |].
  inversion H as [| ? ? Hnotin Hnd]; subst.
  destruct (p a); simpl; [| now apply IH].
  constructor; [| now apply IH].
  rewrite in_map_iff in *. intros (b & E & Hb). apply Hnotin.
  exists b. split; [exact E |]. now apply filter_In in Hb as [Hb _].
Qed.

Lemma bridge_set_keys id call m :
  (In id (map fst m) -> map fst (Bridge.set id call m) = map fst m)
  /\ (~ In id (map fst m) ->
      Bridge.set id call m = (m ++ [(id, call)])%list).
Proof.
  induction m as [| [k c] m [IH1 IH2]]; simpl.
  - split; [contradiction | reflexivity].
  - destruct (String.eqb k id) eqn:E.
    + apply String.eqb_eq in E. subst k. split; [reflexivity | tauto].
    + apply String.eqb_neq in E. split.
      * intros [H | H]; [congruence |]. simpl. now rewrite IH1.
      * intros H. rewrite IH2 by tauto. reflexivity.
Qed.

Lemma bridge_set_NoDup id call m :
  NoDup (map fst m) -> NoDup (map fst (Bridge.set id call m)).
Proof.
  intros H. destruct (in_dec string_dec id (map fst m)) as [Hin | Hin].
  - now rewrite (proj1 (bridge_set_keys id call m) Hin).
  - rewrite (proj2 (bridge_set_keys id call m) Hin), map_app. simpl.
    apply NoDup_app; auto.
    + repeat constructor. simpl. tauto.
    + intros a Ha [<- | []]. contradiction.
Qed.

Lemma bridge_In_set id call m k c :
  NoDup (map fst m) ->
  In (k, c) (Bridge.set id call m) ->
  (k = id /\ c = call) \/ (In (k, c) m /\ k <> id).
Proof.
  induction m as [| [k' c'] m IH]; simpl; intros Hnd.
  - intros [H | []]. injection H as <- <-. now left.
  - inversion Hnd as [| ? ? Hnotin Hnd']; subst.
    destruct (String.eqb k' id) eqn:E.
    + apply String.eqb_eq in E. subst k'. intros [H | H].
      * injection H as <- <-. now left.
      * right. split; [now right |]. intros ->. apply Hnotin.
        apply in_map_iff. now exists (id, c).
    + apply String.eqb_neq in E. intros [H | H].
      * injection H as <- <-. right. split; [now left | exact E].
      * apply (IH Hnd') in H as [H | [H1 H2]]; [now left |].
        right. split; [now right | exact H2].
Qed.

Lemma bridge_armed_In call ts id :
  Bridge.armed call ts = Some id -> In (call, id) ts.
Proof.
  unfold Bridge.armed.
  destruct (find _ ts) as [[c i] |] eqn:E; [| discriminate].
  simpl. intros H. injection H as <-.
  apply find_some in E as [Hin Hc]. simpl in Hc.
  apply Nat.eqb_eq in Hc. now subst c.
Qed.

Lemma bridge_rejectAll_timers message b c i :
  In (c, i) (fst (Bridge.rejectAll message b)) <->
  In (c, i) (Bridge.timers b)
  /\ ~ In c (map snd (Bridge.pendingCommands b)).
Proof.
  unfold Bridge.rejectAll. cbn [fst].
  generalize (Bridge.timers b).
  induction (Bridge.pendingCommands b) as [| [k d] m IH]; intros ts;
    cbn [fold_left map snd].
  - simpl. tauto.
  - rewrite IH, bridge_In_clearTimeout. simpl. intuition.
Qed.

Lemma bridge_rejectAll_NoDup message b :
  NoDup (map fst (Bridge.timers b)) ->
  NoDup (map fst (fst (Bridge.rejectAll message b))).
Proof.
  unfold Bridge.rejectAll. cbn [fst].
  generalize (Bridge.timers b).
  induction (Bridge.pendingCommands b) as [| [k d] m IH]; intros ts H;
    cbn [fold_left]; [exact H |].
  apply IH. now apply NoDup_map_filter.
Qed.

Lemma bridge_rejectAll_resolved message b :
  Bridge.resolved (snd (Bridge.rejectAll message b))
  = map Bridge.swap (Bridge.pendingCommands b).
Proof.
  unfold Bridge.rejectAll, Bridge.resolved. cbn [snd].
  induction (Bridge.pendingCommands b) as [| [k d] m IH]; [reflexivity |].
  simpl. now rewrite IH.
Qed.

Lemma NoDup_values (m : list (string * nat)) (ts : list (nat * string)) :
  (forall id c, In (id, c) m -> In (c, id) ts) ->
  NoDup (map fst ts) -> NoDup (map fst m) -> NoDup (map snd m).
Proof.
  intros I1 I2. induction m as [| [k c] m IH]; intros I3; [constructor |].
  simpl in *. inversion I3 as [| ? ? Hnotin I3']; subst.
  constructor.
  - rewrite in_map_iff. intros ([k' c'] & E & Hin). simpl in E. subst c'.
    assert (H1 : In (c, k) ts) by (apply I1; now left).
    assert (H2 : In (c, k') ts) by (apply I1; now right).
    assert (E : (c, k) = (c, k'))
      by (apply (NoDup_map_inj fst _ _ _ I2 H1 H2); reflexivity).
    injection E as E. subst k'. apply Hnotin. apply in_map_iff.
    now exists (k, c).
  - apply IH; auto.
Qed.

(** The calls of the pending commands are pairwise distinct. *)
Lemma bridge_pending_calls_NoDup s r b :
  Bridge.invariant s r b -> NoDup (map snd (Bridge.pendingCommands b)).
Proof.
  intros (I1 & I2 & I3 & _). now apply (NoDup_values _ (Bridge.timers b)).
Qed.

Lemma bridge_timer_unique s r b c i j :
  Bridge.invariant s r b ->
  In (c, i) (Bridge.timers b) -> In (c, j) (Bridge.timers b) -> i = j.
Proof.
  intros (_ & I2 & _) H1 H2.
  assert (E : (c, i) = (c, j))
    by (apply (NoDup_map_inj fst _ _ _ I2 H1 H2); reflexivity).
  now injection E.
Qed.

(** Resolution of one call by a response or by its timer. *)
Lemma bridge_resolve_one s r b id call :
  Bridge.invariant s r b -> In (call, id) (Bridge.timers b) ->
  Bridge.invariant s (r ++ [(call, id)])
    (Bridge.mk (Bridge.pluginSocket b)
       (Bridge.delete id (Bridge.pendingCommands b))
       (Bridge.clearTimeout call (Bridge.timers b))).
Proof.
  intros Hinv Ht.
  pose proof Hinv as (I1 & I2 & I3 & I4 & I5 & I6).
  destruct (I4 call id Ht) as [Hs Hr].
  unfold Bridge.invariant. cbn [Bridge.pendingCommands Bridge.timers].
  split; [| split; [| split; [| split; [| split]]]].
  - intros k c Hk. apply bridge_In_delete in Hk as [Hk Hne].
    apply bridge_In_clearTimeout. split; [now apply I1 |].
    intros ->. apply Hne.
    apply (bridge_timer_unique s r b call k id Hinv); auto.
  - now apply NoDup_map_filter.
  - now apply NoDup_map_filter.
  - intros c i Hc. apply bridge_In_clearTimeout in Hc as [Hc Hne].
    destruct (I4 c i Hc) as [H1 H2]. split; [exact H1 |].
    rewrite map_app, in_app_iff. simpl. intuition.
  - rewrite map_app. simpl. apply NoDup_app; auto.
    + repeat constructor. simpl. tauto.
    + intros a Ha [<- | []]. contradiction.
  - intros c i Hc. apply in_app_or in Hc as [Hc | [Hc | []]].
    + now apply I6.
    + injection Hc as <- <-. now left.
Qed.

(** Rejection of all pending commands by the close handler or [stop]. *)
Lemma bridge_reject_all s r b socket message :
  Bridge.invariant s r b ->
  Bridge.invariant s
    (r ++ Bridge.resolved (snd (Bridge.rejectAll message b)))
    (Bridge.mk socket [] (fst (Bridge.rejectAll message b))).
Proof.
  intros Hinv.
  pose proof Hinv as (I1 & I2 & I3 & I4 & I5 & I6).
  pose proof (bridge_pending_calls_NoDup s r b Hinv) as Hcalls.
  rewrite bridge_rejectAll_resolved.
  assert (Hmap : map fst (map Bridge.swap (Bridge.pendingCommands b))
                 = map snd (Bridge.pendingCommands b)).
  { rewrite map_map. apply map_ext. now intros [k c]. }
  unfold Bridge.invariant. cbn [Bridge.pendingCommands Bridge.timers].
  split; [| split; [| split; [| split; [| split]]]].
  - intros id c [].
  - now apply bridge_rejectAll_NoDup.
  - constructor.
  - intros c i Hc. apply bridge_rejectAll_timers in Hc as [Hc Hnot].
    destruct (I4 c i Hc) as [H1 H2]. split; [exact H1 |].
    rewrite map_app, in_app_iff, Hmap. tauto.
  - rewrite map_app, Hmap. apply NoDup_app; auto.
    intros c Hr Hp. apply in_map_iff in Hp as ([k c'] & E & Hp).
    simpl in E. subst c'. apply I1 in Hp. now apply I4 in Hp as [_ Hp].
  - intros c i Hc. apply in_app_or in Hc as [Hc | Hc]; [now apply I6 |].
    apply in_map_iff in Hc as ([k c'] & E & Hp). unfold Bridge.swap in E.
    simpl in E. injection E as -> ->. left. apply I1 in Hp.
    now apply I4 in Hp as [Hp _].
Qed.

Lemma bridge_not_connected s r b call id :
  Bridge.invariant s r b -> ~ In call (map fst s) ->
  Bridge.invariant (s ++ [(call, id)]) (r ++ [(call, ""%string)]) b.
Proof.
  intros Hinv Hfresh.
  pose proof Hinv as (I1 & I2 & I3 & I4 & I5 & I6).
  assert (Hr : ~ In call (map fst r)).
  { intros H. apply in_map_iff in H as ([c i] & E & H). simpl in E.
    subst c. apply Hfresh. destruct (I6 call i H) as [H' | [_ H']]; auto.
    apply in_map_iff. now exists (call, i). }
  unfold Bridge.invariant.
  split; [| split; [| split; [| split; [| split]]]]; auto.
  - intros c i Hc. destruct (I4 c i Hc) as [H1 H2]. split.
    + apply in_or_app. now left.
    + rewrite map_app, in_app_iff. simpl. intros [H | [E | []]]; auto.
      apply Hfresh. rewrite E. apply in_map_iff. now exists (c, i).
  - rewrite map_app. simpl. apply NoDup_app; auto.
    + repeat constructor. simpl. tauto.
    + intros a Ha [<- | []]. contradiction.
  - intros c i Hc. apply in_app_or in Hc as [Hc | [Hc | []]].
    + destruct (I6 c i Hc) as [H | [H1 H2]].
      * left. apply in_or_app. now left.
      * right. split; [exact H1 |]. rewrite map_app. apply in_or_app.
        now left.
    + injection Hc as <- <-. right. split; [reflexivity |].
      rewrite map_app. apply in_or_app. right. now left.
Qed.

Lemma bridge_step_invariant s r b e :
  Bridge.invariant s r b ->
  (forall c i, In (c, i) (Bridge.sentBy e) -> ~ In c (map fst s)) ->
  Bridge.invariant (s ++ Bridge.sentBy e)
    (r ++ Bridge.resolved (snd (Bridge.step b e)))
    (fst (Bridge.step b e)).
Proof.
  intros Hinv Hfresh.
  pose proof Hinv as (I1 & I2 & I3 & I4 & I5 & I6).
  destruct e as [ws | ws [[id res] |] | ws | call id payload op | call |];
    cbn [Bridge.step Bridge.sentBy].
  - cbn [fst snd Bridge.resolved flat_map]. rewrite !app_nil_r.
    exact Hinv.
  - destruct (Bridge.get id (Bridge.pendingCommands b)) as [call |] eqn:Eg.
    + cbn [fst snd]. rewrite app_nil_r.
      apply bridge_resolve_one; auto. apply I1. now apply bridge_get_In.
    + cbn [fst snd Bridge.resolved flat_map]. rewrite !app_nil_r.
      exact Hinv.
  - cbn [fst snd Bridge.resolved flat_map]. rewrite !app_nil_r.
    exact Hinv.
  - rewrite app_nil_r.
    destruct (Bridge.rejectAll "Plugin disconnected" b) as [ts effects] eqn:E.
    cbn [fst snd].
    pose proof (bridge_reject_all s r b
                  (if Bridge.sameSocket (Bridge.pluginSocket b) ws
                   then None else Bridge.pluginSocket b)
                  "Plugin disconnected" Hinv) as H.
    now rewrite E in H.
  - assert (Hc : ~ In call (map fst s))
      by (apply (Hfresh call id); now left).
    destruct (Bridge.pluginSocket b) as [w |] eqn:Es;
      [destruct op |]; cbn [fst snd];
      try (apply bridge_not_connected; assumption).
    cbn [Bridge.resolved flat_map Bridge.resolvedBy]. rewrite app_nil_r.
    assert (Hr : ~ In call (map fst r)).
    { intros H. apply in_map_iff in H as ([c i] & E & H). simpl in E.
      subst c. apply Hc. destruct (I6 call i H) as [H' | [_ H']]; auto.
      apply in_map_iff. now exists (call, i). }
    assert (Ht : ~ In call (map fst (Bridge.timers b))).
    { intros H. apply in_map_iff in H as ([c i] & E & H). simpl in E.
      subst c. apply Hc. apply in_map_iff. exists (call, i).
      split; [reflexivity |]. now apply (I4 call i). }
    unfold Bridge.invariant. cbn [Bridge.pendingCommands Bridge.timers].
    split; [| split; [| split; [| split; [| split]]]].
    + intros k c Hk. apply bridge_In_set in Hk as [[-> ->] | [Hk _]];
        auto; apply in_or_app; [right; now left | left; now apply I1].
    + rewrite map_app. simpl. apply NoDup_app; auto.
      * repeat constructor. simpl. tauto.
      * intros a Ha [<- | []]. contradiction.
    + now apply bridge_set_NoDup.
    + intros c i Hci. apply in_app_or in Hci as [Hci | [Hci | []]].
      * destruct (I4 c i Hci) as [H1 H2]. split; [| exact H2].
        apply in_or_app. now left.
      * injection Hci as <- <-. split; [| exact Hr].
        apply in_or_app. right. now left.
    + exact I5.
    + intros c i Hci. destruct (I6 c i Hci) as [H | [H1 H2]].
      * left. apply in_or_app. now left.
      * right. split; [exact H1 |]. rewrite map_app. apply in_or_app.
        now left.
  - destruct (Bridge.armed call (Bridge.timers b)) as [id |] eqn:Ea.
    + cbn [fst snd]. rewrite app_nil_r.
      apply bridge_resolve_one; auto. now apply bridge_armed_In.
    + cbn [fst snd Bridge.resolved flat_map]. rewrite !app_nil_r.
      exact Hinv.
  - rewrite app_nil_r.
    destruct (Bridge.rejectAll "Server shutting down" b) as [ts effects] eqn:E.
    cbn [fst snd].
    pose proof (bridge_reject_all s r b (Bridge.pluginSocket b)
                  "Server shutting down" Hinv) as H.
    now rewrite E in H.
Qed.

Lemma NoDup_app_disjoint {A} (l l' : list A) a :
  NoDup (l ++ l') -> In a l -> In a l' -> False.
Proof.
  induction l as [| b l IH]; simpl; intros H; [contradiction |].
  inversion H as [| ? ? Hnotin Hnd]; subst.
  intros [<- | Ha] Ha'; [| now apply IH].
  apply Hnotin, in_or_app. now right.
Qed.

Lemma bridge_run_invariant es : forall s r b,
  Bridge.invariant s r b ->
  NoDup (map fst (s ++ Bridge.sent es)) ->
  Bridge.invariant (s ++ Bridge.sent es)
    (r ++ Bridge.resolved (snd (Bridge.run b es)))
    (fst (Bridge.run b es)).
Proof.
  induction es as [| e es IH]; intros s r b Hinv Hnd.
  - simpl. rewrite !app_nil_r. exact Hinv.
  - cbn [Bridge.run Bridge.sent flat_map] in *.
    fold (Bridge.sent es) in *.
    rewrite app_assoc in Hnd.
    assert (Hfresh : forall c i, In (c, i) (Bridge.sentBy e) ->
                       ~ In c (map fst s)).
    { intros c i Hc Hs. rewrite !map_app in Hnd.
      apply NoDup_app_remove_r in Hnd.
      apply (NoDup_app_disjoint _ _ c Hnd Hs).
      apply in_map_iff. now exists (c, i). }
    pose proof (bridge_step_invariant s r b e Hinv Hfresh) as Hstep.
    destruct (Bridge.step b e) as [b1 o1]. cbn [fst snd] in Hstep.
    specialize (IH _ _ b1 Hstep Hnd).
    destruct (Bridge.run b1 es) as [b2 o2]. cbn [fst snd] in *.
    unfold Bridge.resolved in *. rewrite flat_map_app.
    now rewrite !app_assoc.
Qed.

Lemma bridge_init_invariant : Bridge.invariant [] [] Bridge.init.
Proof.
  unfold Bridge.invariant. simpl.
  repeat split; try constructor; try contradiction.
Qed.

(** X20. In every run of the bridge each call of [sendCommand] is
    resolved at most once, whichever of a response, its timeout, a
    disconnection or the shutdown comes first, even when ids collide; only
    calls that were made are resolved, and a call is resolved with the id
    the command was sent under, or with the empty id when the plugin was
    not connected. *)
Theorem bridge_resolves_each_call_at_most_once (es : list Bridge.Event) :
  NoDup (map fst (Bridge.sent es)) ->
  NoDup (map fst (Bridge.resolved (snd (Bridge.run Bridge.init es))))
  /\ (forall c i,
        In (c, i) (Bridge.resolved (snd (Bridge.run Bridge.init es))) ->
        In (c, i) (Bridge.sent es)
        \/ (i = ""%string /\ In c (map fst (Bridge.sent es)))).
Proof.
  intros Hnd.
  pose proof (bridge_run_invariant es [] [] Bridge.init
                bridge_init_invariant Hnd) as (_ & _ & _ & _ & I5 & I6).
  simpl in I5, I6. split; [exact I5 | exact I6].
Qed.

Lemma bridge_swap_In (m : list (string * nat)) c i :
  In (c, i) (map Bridge.swap m) <-> In (i, c) m.
Proof.
  rewrite in_map_iff. split.
  - intros ([k d] & E & H). unfold Bridge.swap in E. simpl in E.
    now injection E as -> ->.
  - intros H. now exists (i, c).
Qed.

Lemma bridge_filter_swap (m : list (string * nat)) id call :
  (forall k c, In (k, c) m -> (k = id <-> c = call)) ->
  Bridge.clearTimeout call (map Bridge.swap m)
  = map Bridge.swap (Bridge.delete id m).
Proof.
  unfold Bridge.clearTimeout, Bridge.delete.
  induction m as [| [k c] m IH]; intros H; [reflexivity |].
  simpl. rewrite IH by (intros k' c' Hin; apply H; now right).
  destruct (H k c (or_introl eq_refl)) as [H1 H2].
  destruct (Nat.eqb c call) eqn:Ec, (String.eqb k id) eqn:Ek; simpl;
    try reflexivity; exfalso.
  - apply Nat.eqb_eq in Ec. apply String.eqb_neq in Ek. tauto.
  - apply Nat.eqb_neq in Ec. apply String.eqb_eq in Ek. tauto.
Qed.

Lemma bridge_pending_bijection s r b id call :
  Bridge.invariant s r b -> In (id, call) (Bridge.pendingCommands b) ->
  forall k c, In (k, c) (Bridge.pendingCommands b) ->
              (k = id <-> c = call).
Proof.
  intros Hinv Hin k c Hk.
  pose proof (bridge_pending_calls_NoDup s r b Hinv) as Hcalls.
  destruct Hinv as (_ & _ & Hkeys & _).
  split; intros ->.
  - assert (E : (id, c) = (id, call))
      by (apply (NoDup_map_inj fst _ _ _ Hkeys Hk Hin); reflexivity).
    now injection E.
  - assert (E : (k, call) = (id, call))
      by (apply (NoDup_map_inj snd _ _ _ Hcalls Hk Hin); reflexivity).
    now injection E.
Qed.

Lemma bridge_track_one s r b id call :
  Bridge.invariant s r b -> bridgeTracks s r b ->
  In (id, call) (Bridge.pendingCommands b) ->
  bridgeTracks s (r ++ [(call, id)])
    (Bridge.mk (Bridge.pluginSocket b)
       (Bridge.delete id (Bridge.pendingCommands b))
       (Bridge.clearTimeout call (Bridge.timers b))).
Proof.
  intros Hinv (J1 & J2 & J3) Hin.
  pose proof (bridge_pending_bijection s r b id call Hinv Hin) as Hbij.
  unfold bridgeTracks. cbn [Bridge.pendingCommands Bridge.timers].
  split; [| split].
  - rewrite J1. now apply bridge_filter_swap.
  - intros k c Hk. apply bridge_In_delete in Hk as [Hk _]. eauto.
  - intros c i Hc. rewrite map_app, in_app_iff. simpl.
    destruct (J3 c i Hc) as [H | H]; [tauto |].
    destruct (Nat.eq_dec c call) as [-> | Hne]; [tauto |].
    right. apply bridge_In_delete. split; [exact H |].
    intros ->. apply Hne. now apply (Hbij id c H).
Qed.

Lemma bridge_track_reject s r b socket message :
  bridgeTracks s r b ->
  bridgeTracks s (r ++ Bridge.resolved (snd (Bridge.rejectAll message b)))
    (Bridge.mk socket [] (fst (Bridge.rejectAll message b)))
  /\ fst (Bridge.rejectAll message b) = [].
Proof.
  intros (J1 & J2 & J3).
  assert (E : fst (Bridge.rejectAll message b) = []).
  { destruct (fst (Bridge.rejectAll message b)) as [| [c i] l] eqn:El;
      [reflexivity |].
    exfalso.
    assert (H : In (c, i) (fst (Bridge.rejectAll message b)))
      by (rewrite El; now left).
    apply bridge_rejectAll_timers in H as [H Hnot]. apply Hnot.
    rewrite J1 in H. apply bridge_swap_In in H.
    apply in_map_iff. now exists (i, c). }
  split; [| exact E].
  unfold bridgeTracks. cbn [Bridge.pendingCommands Bridge.timers].
  rewrite E, bridge_rejectAll_resolved. split; [reflexivity |].
  split; [intros id c [] |].
  intros c i Hc. left. rewrite map_app, in_app_iff.
  destruct (J3 c i Hc) as [H | H]; [now left |].
  right. apply in_map_iff. exists (c, i). split; [reflexivity |].
  now apply bridge_swap_In.
Qed.

Lemma bridge_step_tracks s r b e :
  Bridge.invariant s r b -> bridgeTracks s r b ->
  (forall c i, In (c, i) (Bridge.sentBy e) ->
     ~ In c (map fst s) /\ ~ In i (map snd s)) ->
  bridgeTracks (s ++ Bridge.sentBy e)
    (r ++ Bridge.resolved (snd (Bridge.step b e)))
    (fst (Bridge.step b e)).
Proof.
  intros Hinv Htr Hfresh.
  pose proof Htr as (J1 & J2 & J3).
  destruct e as [ws | ws [[id res] |] | ws | call id payload op | call |];
    cbn [Bridge.step Bridge.sentBy].
  - cbn [fst snd Bridge.resolved flat_map]. rewrite !app_nil_r.
    exact Htr.
  - destruct (Bridge.get id (Bridge.pendingCommands b)) as [call |] eqn:Eg.
    + cbn [fst snd]. rewrite app_nil_r.
      apply bridge_track_one; auto. now apply bridge_get_In.
    + cbn [fst snd Bridge.resolved flat_map]. rewrite !app_nil_r.
      exact Htr.
  - cbn [fst snd Bridge.resolved flat_map]. rewrite !app_nil_r.
    exact Htr.
  - rewrite app_nil_r.
    destruct (Bridge.rejectAll "Plugin disconnected" b) as [ts effects] eqn:E.
    cbn [fst snd].
    pose proof (bridge_track_reject s r b
                  (if Bridge.sameSocket (Bridge.pluginSocket b) ws
                   then None else Bridge.pluginSocket b)
                  "Plugin disconnected" Htr) as [H _].
    now rewrite E in H.
  - destruct (Hfresh call id (or_introl eq_refl)) as [Hc Hi].
    assert (Hnc : bridgeTracks (s ++ [(call, id)])
                    (r ++ [(call, ""%string)]) b).
    { unfold bridgeTracks. split; [exact J1 |]. split.
      - intros k c Hk. rewrite map_app. apply in_or_app. left. eauto.
      - intros c i Hci. rewrite map_app, in_app_iff. simpl.
        apply in_app_or in Hci as [Hci | [Hci | []]].
        + destruct (J3 c i Hci); tauto.
        + injection Hci as <- <-. tauto. }
    destruct (Bridge.pluginSocket b) as [w |] eqn:Es;
      [destruct op |]; cbn [fst snd]; try exact Hnc.
    cbn [Bridge.resolved flat_map Bridge.resolvedBy]. rewrite app_nil_r.
    assert (Hkey : ~ In id (map fst (Bridge.pendingCommands b))).
    { intros H. apply in_map_iff in H as ([k c] & E & H). simpl in E.
      subst k. apply Hi. eauto. }
    unfold bridgeTracks. cbn [Bridge.pendingCommands Bridge.timers].
    rewrite (proj2 (bridge_set_keys id call (Bridge.pendingCommands b)) Hkey).
    split; [| split].
    + rewrite map_app, J1. reflexivity.
    + intros k c Hk. rewrite map_app. apply in_or_app.
      apply in_app_or in Hk as [Hk | [Hk | []]]; [left; eauto |].
      injection Hk as <- <-. right. now left.
    + intros c i Hci. apply in_app_or in Hci as [Hci | [Hci | []]].
      * destruct (J3 c i Hci) as [H | H]; [now left |].
        right. apply in_or_app. now left.
      * injection Hci as <- <-. right. apply in_or_app. right. now left.
  - destruct (Bridge.armed call (Bridge.timers b)) as [id |] eqn:Ea.
    + cbn [fst snd]. rewrite app_nil_r.
      apply bridge_track_one; auto. apply bridge_armed_In in Ea.
      rewrite J1 in Ea. now apply bridge_swap_In in Ea.
    + cbn [fst snd Bridge.resolved flat_map]. rewrite !app_nil_r.
      exact Htr.
  - rewrite app_nil_r.
    destruct (Bridge.rejectAll "Server shutting down" b) as [ts effects] eqn:E.
    cbn [fst snd].
    pose proof (bridge_track_reject s r b (Bridge.pluginSocket b)
                  "Server shutting down" Htr) as [H _].
    now rewrite E in H.
Qed.

Lemma bridge_run_tracks es : forall s r b,
  Bridge.invariant s r b -> bridgeTracks s r b ->
  NoDup (map fst (s ++ Bridge.sent es)) ->
  NoDup (map snd (s ++ Bridge.sent es)) ->
  bridgeTracks (s ++ Bridge.sent es)
    (r ++ Bridge.resolved (snd (Bridge.run b es)))
    (fst (Bridge.run b es)).
Proof.
  induction es as [| e es IH]; intros s r b Hinv Htr Hnd1 Hnd2.
  - simpl. rewrite !app_nil_r. exact Htr.
  - cbn [Bridge.run Bridge.sent flat_map] in *.
    fold (Bridge.sent es) in *.
    rewrite app_assoc in Hnd1, Hnd2.
    assert (Hfresh : forall c i, In (c, i) (Bridge.sentBy e) ->
                       ~ In c (map fst s) /\ ~ In i (map snd s)).
    { intros c i Hc. split; intros Hs.
      - rewrite !map_app in Hnd1. apply NoDup_app_remove_r in Hnd1.
        apply (NoDup_app_disjoint _ _ c Hnd1 Hs).
        apply in_map_iff. now exists (c, i).
      - rewrite !map_app in Hnd2. apply NoDup_app_remove_r in Hnd2.
        apply (NoDup_app_disjoint _ _ i Hnd2 Hs).
        apply in_map_iff. now exists (c, i). }
    pose proof (bridge_step_invariant s r b e Hinv
                  (fun c i H => proj1 (Hfresh c i H))) as Hstep.
    pose proof (bridge_step_tracks s r b e Hinv Htr Hfresh) as Hstep'.
    destruct (Bridge.step b e) as [b1 o1]. cbn [fst snd] in Hstep, Hstep'.
    specialize (IH _ _ b1 Hstep Hstep' Hnd1 Hnd2).
    destruct (Bridge.run b1 es) as [b2 o2]. cbn [fst snd] in *.
    unfold Bridge.resolved in *. rewrite flat_map_app.
    now rewrite !app_assoc.
Qed.

Lemma bridge_init_tracks : bridgeTracks [] [] Bridge.init.
Proof.
  unfold bridgeTracks. simpl. repeat split; contradiction.
Qed.

(** X21. When the ids drawn for the commands do not collide, the bridge
    loses no command: after every run the armed timers are exactly those
    of the pending commands, every call made so far is either resolved or
    still pending, and a pending command is one that was sent and is not
    resolved.  A disconnection or the shutdown then resolves every pending
    command and leaves neither a pending command nor a timer, and the
    close of a socket other than the current one does so too while the
    current socket stays in place. *)
Theorem bridge_loses_no_command (es : list Bridge.Event) :
  NoDup (map fst (Bridge.sent es)) -> NoDup (map snd (Bridge.sent es)) ->
  let b := fst (Bridge.run Bridge.init es) in
  let done := Bridge.resolved (snd (Bridge.run Bridge.init es)) in
  Bridge.timers b = map Bridge.swap (Bridge.pendingCommands b)
  /\ (forall c i, In (c, i) (Bridge.sent es) ->
        In c (map fst done) \/ In (i, c) (Bridge.pendingCommands b))
  /\ (forall c i, In (i, c) (Bridge.pendingCommands b) ->
        In (c, i) (Bridge.sent es) /\ ~ In c (map fst done))
  /\ (forall e, e = Bridge.stop \/ (exists ws, e = Bridge.close ws) ->
        Bridge.pendingCommands (fst (Bridge.step b e)) = []
        /\ Bridge.timers (fst (Bridge.step b e)) = []
        /\ Bridge.resolved (snd (Bridge.step b e))
           = map Bridge.swap (Bridge.pendingCommands b))
  /\ (forall ws w, Bridge.pluginSocket b = Some w -> w <> ws ->
        Bridge.pluginSocket (fst (Bridge.step b (Bridge.close ws)))
        = Some w).
Proof.
  intros Hnd1 Hnd2 b done.
  pose proof (bridge_run_invariant es [] [] Bridge.init
                bridge_init_invariant Hnd1) as Hinv.
  pose proof (bridge_run_tracks es [] [] Bridge.init
                bridge_init_invariant bridge_init_tracks Hnd1 Hnd2) as Htr.
  simpl in Hinv, Htr. fold b done in Hinv, Htr.
  pose proof Hinv as (I1 & _ & _ & I4 & _).
  pose proof Htr as (J1 & _ & J3).
  split; [exact J1 |]. split; [exact J3 |]. split; [| split].
  - intros c i H. apply I4. now apply I1.
  - intros e He.
    assert (Hrej : forall message (socket : option nat),
              let r := Bridge.rejectAll message b in
              fst r = [] /\ Bridge.resolved (snd r)
                            = map Bridge.swap (Bridge.pendingCommands b)).
    { intros message socket. split.
      - now destruct (bridge_track_reject (Bridge.sent es) done b socket
                        message Htr).
      - apply bridge_rejectAll_resolved. }
    destruct He as [-> | (ws & ->)]; cbn [Bridge.step].
    + destruct (Hrej "Server shutting down"%string None) as [E1 E2].
      destruct (Bridge.rejectAll "Server shutting down" b) as [ts effects].
      cbn [fst snd] in *. now subst ts.
    + destruct (Hrej "Plugin disconnected"%string None) as [E1 E2].
      destruct (Bridge.rejectAll "Plugin disconnected" b) as [ts effects].
      cbn [fst snd] in *. now subst ts.
  - intros ws w Hw Hne. cbn [Bridge.step].
    destruct (Bridge.rejectAll "Plugin disconnected" b) as [ts effects].
    cbn [fst Bridge.pluginSocket]. rewrite Hw. cbn [Bridge.sameSocket].
    apply Nat.eqb_neq in Hne. now rewrite Hne.
Qed.

Lemma bridge_resolves_each_call_at_most_once_witness :
  NoDup (map fst (Bridge.resolved
                    (snd (Bridge.run Bridge.init exampleTrace)))).
Proof.
  apply (bridge_resolves_each_call_at_most_once exampleTrace).
  vm_compute. repeat constructor; simpl; intuition discriminate.
Defined.

Lemma bridge_loses_no_command_witness :
  Bridge.timers (fst (Bridge.run Bridge.init exampleTrace))
  = map Bridge.swap
      (Bridge.pendingCommands (fst (Bridge.run Bridge.init exampleTrace))).
Proof.
  apply (bridge_loses_no_command exampleTrace).
  - vm_compute. repeat constructor; simpl; intuition discriminate.
  - vm_compute. repeat constructor; simpl; intuition discriminate.
Defined.

(** * Repeating a call *)














Section Again.
Variable set : number -> SceneNode -> SceneNode.
Variable size coord : SceneNode -> number.
Hypothesis coord_set : forall v n, coord (set v n) = v.
Hypothesis size_set : forall v n, size (set v n) = size n.



End Again.




(** * Issues and the page *)

Lemma endpoints_Some sc cn s e :
  endpoints sc cn = Some (s, e) ->
  type cn = CONNECTOR /\ In s sc /\ In e sc.
Proof.
  unfold endpoints.
  destruct (NodeType_eqb (type cn) CONNECTOR) eqn:Et; [| discriminate].
  apply NodeType_eqb_eq in Et.
  destruct (connectorStart cn) as [i |]; [| discriminate].
  destruct (connectorEnd cn) as [j |]; [| discriminate].
  unfold resolve.
  destruct (findNodeById sc i) as [a |] eqn:Ea; [| discriminate].
  destruct (node sc a) as [s' |] eqn:Es; [| discriminate].
  destruct (findNodeById sc j) as [b |] eqn:Eb; [| discriminate].
  destruct (node sc b) as [e' |] eqn:Ee; [| discriminate].
  intros H. injection H as <- <-.
  split; [exact Et |]. split; eapply node_In; eauto.
Qed.

(** X24. Every issue of the validator is about the page: the element it
    is reported for is a node of the page of the kind its type is about
    (a page-level shape for text_truncated, a page-level element that is
    neither a Section nor a Connector for overlap, a Connector for the two
    connector checks, an element that is not a Connector for
    section_bleed), and every id named in its suggestion is the id of a
    node of the page. *)
Theorem issues_name_elements_of_the_page (sc : Scene) (i : Issue) :
  In i (handleValidateLayout sc) ->
  (exists n, In n sc /\ id n = elementId i /\ subjectOf (issueType i) n)
  /\ (forall j, In j (suggestionIds (suggestion i)) -> onPage sc j).
Proof.
  intros Hi. apply validate_In in Hi.
  destruct (issueType i) eqn:Ety.
  - unfold truncationIssues in Hi.
    apply in_flat_map in Hi as (nd & Hnd & Hi).
    apply children_nodes_In in Hnd as [Hnd Hp].
    apply textTruncation_In in Hi as (Hshape & _ & _ & Ei).
    rewrite Ei. cbn.
    split; [exists nd; repeat split; auto | intros j []].
  - apply overlapIssues_In in Hi as (a & b & Hbef & Hi).
    apply before_In in Hbef as [Ha Hb].
    apply overlapPair_In in Hi as [(Hta & Htb & _) Ei].
    apply collectBoxes_In in Ha as (na & Hna & Hpa & Hca & Ea).
    apply collectBoxes_In in Hb as (nb & Hnb & Hpb & Hcb & Eb).
    rewrite Ei, Ea, Eb. rewrite Ea in Hta. cbn in *. split.
    + exists na. repeat split; auto.
    + intros j [<- | []]. now exists nb.
  - apply tightIssues_In in Hi as (cn & Hcn & Hi).
    destruct (endpoints sc cn) as [[s e] |] eqn:E.
    + pose proof (endpoints_Some sc cn s e E) as (Ht & Hs & He).
      pose proof (proj1 (tightConnector_In sc cn s e i E) Hi)
        as (_ & _ & Ei).
      rewrite Ei. cbn. split.
      * exists cn. repeat split; auto.
      * intros j [<- | []]. now exists e.
    + unfold tightConnector in Hi. rewrite E in Hi. contradiction.
  - apply throughIssues_In in Hi as (cn & s & e & bx & Hcn & E & Hbx & Hi).
    pose proof (endpoints_Some sc cn s e E) as (Ht & Hs & He).
    apply throughBox_In in Hi as (_ & _ & _ & _ & _ & Ei).
    apply collectBoxes_In in Hbx as (nb & Hnb & _ & _ & Eb).
    rewrite Ei, Eb. cbn. split.
    + exists cn. repeat split; auto.
    + intros j [<- | []]. now exists nb.
  - apply bleedIssues_In in Hi
      as (s & sec & Hs & Hps & Hts
          & [(c & Hc & Hpc & Hi) | (bx & Hbx & Hi)]).
    + apply bleedChild_In in Hi as (Htc & _ & Ei). rewrite Ei. cbn.
      apply node_In in Hs as Hsec. split.
      * exists c. repeat split; auto.
      * intros j [<- | [<- | []]]; [now exists sec | now exists c].
    + apply bleedVisual_In in Hi as (Htb & _ & _ & _ & Ei).
      apply collectBoxes_In in Hbx as (nb & Hnb & _ & Hcb & Eb).
      rewrite Ei, Eb. apply node_In in Hs as Hsec. cbn. split.
      * exists nb. repeat split; auto.
      * intros j [<- | [<- | []]]; [now exists sec | now exists nb].
Qed.

Lemma issues_name_elements_of_the_page_witness :
  exists n, In n [crowdedShape] /\ id n = "S"%string
            /\ subjectOf text_truncated n.
Proof.
  apply (issues_name_elements_of_the_page [crowdedShape]
           (mkIssue text_truncated "S" "S"
              (TruncatedIn "The quick brown fox jumps over the lazy " true
                 100 50)
              (ResizeToAtLeast 210 198))).
  vm_compute. left. reflexivity.
Defined.
